(** * vex: a shallow embedding of the argument parser of [vex.h]

    The development follows the single header [include/vex/vex.h]:
    the C library functions it calls, its structs, its private helpers
    ([_vex_strdup], [_vex_set_status], [_vec_token_add_value],
    [_vex_add_token]) and its public entry points ([vex_init],
    [vex_add_arg], [vex_parse], [vex_token_count], [vex_get_token],
    [vex_arg_found], [vex_free], [vex_get_version], [vex_get_help]).

    Modelling conventions.
    - A [char*] is an [option string]: [None] is the null pointer, and a
      [string] stands for the bytes before the terminating NUL.
    - A [char] is an [ascii]; [int] counters are [Z].  Buffers hold far
      fewer than [2^30] cells, so the arithmetic on counters is exact.
    - [malloc] and [realloc] may fail.  The machine carries an oracle, the
      list of outcomes of the coming allocation requests; once the list is
      exhausted every request succeeds.
    - A heap block of structs is a [buffer]: the null pointer, a live block
      with its cells, or a pointer whose block has been released.
    - Undefined behaviour (a null or released pointer handed to the C
      library, a read outside a block, an [int] conversion that does not
      fit) is the outcome [Undef]. *)

From Stdlib Require Import ZArith Lia Ascii String.
From stdpp Require Import base list strings.

Local Open Scope string_scope.
Local Open Scope list_scope.
Local Open Scope Z_scope.

(** ** Characters and the C library *)

Definition char_code (c : ascii) : Z := Z.of_N (N_of_ascii c).

Definition NUL : ascii := Ascii.zero.

(** [<ctype.h>] in the "C" locale. *)
Definition isalpha (c : ascii) : bool :=
  let n := char_code c in
  ((65 <=? n) && (n <=? 90)) || ((97 <=? n) && (n <=? 122)).

Definition isdigit (c : ascii) : bool :=
  let n := char_code c in (48 <=? n) && (n <=? 57).

Definition isspace (c : ascii) : bool :=
  let n := char_code c in (n =? 32) || ((9 <=? n) && (n <=? 13)).

Definition strlen (s : string) : Z := Z.of_nat (String.length s).

(** [strcmp] and [strncmp]: zero when equal, otherwise the difference of
    the first pair of characters that differ (the terminator counts as 0). *)
Fixpoint strcmp (a b : string) : Z :=
  match a, b with
  | EmptyString, EmptyString => 0
  | EmptyString, String y _ => - char_code y
  | String x _, EmptyString => char_code x
  | String x a', String y b' =>
      if Ascii.eqb x y then strcmp a' b' else char_code x - char_code y
  end.

Fixpoint strncmp (a b : string) (n : nat) {struct n} : Z :=
  match n with
  | O => 0
  | S n' =>
      match a, b with
      | EmptyString, EmptyString => 0
      | EmptyString, String y _ => - char_code y
      | String x _, EmptyString => char_code x
      | String x a', String y b' =>
          if Ascii.eqb x y then strncmp a' b' n' else char_code x - char_code y
      end
  end.

Fixpoint char_in (c : ascii) (set : string) : bool :=
  match set with
  | EmptyString => false
  | String x set' => Ascii.eqb c x || char_in c set'
  end.

(** [strcspn s reject]: length of the initial segment of [s] without any
    character of [reject]. *)
Fixpoint strcspn (s reject : string) : nat :=
  match s with
  | EmptyString => O
  | String c s' => if char_in c reject then O else S (strcspn s' reject)
  end.

(** [strchr s c]: the suffix of [s] that starts at the first [c]. *)
Fixpoint strchr (s : string) (c : ascii) : option string :=
  match s with
  | EmptyString => None
  | String x s' => if Ascii.eqb x c then Some s else strchr s' c
  end.

(** Pointer arithmetic on a string: [&s[n]] for [n] within the string. *)
Fixpoint advance (n : nat) (s : string) : string :=
  match n, s with
  | S n', String _ s' => advance n' s'
  | _, _ => s
  end.

(** The character [s[0]]; the terminator for the empty string. *)
Definition head_char (s : string) : ascii :=
  match s with
  | EmptyString => NUL
  | String c _ => c
  end.

(** *** [atoi] *)

Definition INT_MAX : Z := 2147483647.
Definition INT_MIN : Z := -2147483648.

Fixpoint skip_space (s : string) : string :=
  match s with
  | String c s' => if isspace c then skip_space s' else s
  | EmptyString => s
  end.

Fixpoint leading_digits (acc : Z) (s : string) : Z :=
  match s with
  | String c s' =>
      if isdigit c then leading_digits (10 * acc + (char_code c - 48)) s'
      else acc
  | EmptyString => acc
  end.

(** [atoi]: optional white space, an optional sign, then the longest run
    of decimal digits.  The behaviour is undefined ([None]) when the value
    is not representable as an [int]. *)
Definition atoi (s : string) : option Z :=
  let s1 := skip_space s in
  let v :=
    match s1 with
    | String c s2 =>
        if Ascii.eqb c "-" then - leading_digits 0 s2
        else if Ascii.eqb c "+" then leading_digits 0 s2
        else leading_digits 0 s1
    | EmptyString => leading_digits 0 s1
    end in
  if (INT_MIN <=? v) && (v <=? INT_MAX) then Some v else None.

(** ** Constants of the header *)

Definition VEX_ARG_TYPE_UNKNOWN : Z := 0.
Definition VEX_ARG_TYPE_FLAG : Z := 1.
Definition VEX_ARG_TYPE_INT : Z := 2.
Definition VEX_ARG_TYPE_DUB : Z := 3.
Definition VEX_ARG_TYPE_STR : Z := 4.

Definition VEX_STATUS_OK : Z := 0.
Definition VEX_STATUS_BAD_ALLOC : Z := 1.
Definition VEX_STATUS_BAD_VALUE : Z := 2.
Definition VEX_STATUS_UNKNOWN_ARG : Z := 3.

(** ** Data model *)

(** The union [vex_value].  [zero_value] is the initialiser [{ 0 }] with no
    member written afterwards.  The result of [atof] is kept as the text it
    was applied to. *)
Inductive vex_value : Type :=
| zero_value
| int_arg (n : Z)
| dub_arg (atof_of : string)
| str_arg (s : option string).

(** [vex_arg_token].  The pair ([arg], [arg_count]) is the list [arg]. *)
Module Tok.
Record t : Type := mk {
  long_name : option string;
  short_name : ascii;
  arg : list vex_value;
  arg_type : Z
}.
Definition arg_count (tk : t) : Z := Z.of_nat (length (arg tk)).
(** [vex_arg_token token = { 0 }] *)
Definition zero : t := mk None NUL [] 0.
End Tok.
Abbreviation vex_arg_token := Tok.t.

(** [vex_arg_desc] *)
Module Desc.
Record t : Type := mk {
  description : option string;
  long_name : option string;
  short_name : ascii;
  arg_type : Z;
  max_count : Z
}.
Definition zero : t := mk None None NUL 0 0.
End Desc.
Abbreviation vex_arg_desc := Desc.t.

(** A pointer to a heap block of [A] cells. *)
Inductive buffer (A : Type) : Type :=
| NullPtr
| Block (cells : list A)
| Freed.
Arguments NullPtr {A}.
Arguments Block {A} cells.
Arguments Freed {A}.

Definition cells_of {A} (b : buffer A) : list A :=
  match b with
  | Block cells => cells
  | _ => []
  end.

(** [b[i]] as an rvalue. *)
Definition read {A} (b : buffer A) (i : Z) : option A :=
  match b with
  | Block cells => if 0 <=? i then cells !! Z.to_nat i else None
  | _ => None
  end.

(** [b[i] = x] *)
Definition write {A} (b : buffer A) (i : Z) (x : A) : option (buffer A) :=
  match b with
  | Block cells =>
      if (0 <=? i) && (i <? Z.of_nat (length cells))
      then Some (Block (<[Z.to_nat i := x]> cells))
      else None
  | _ => None
  end.

(** [vex_ctx] *)
Module Ctx.
Record t : Type := mk {
  name : option string;
  help_msg : option string;
  status_msg : option string;
  description : option string;
  version : option string;
  arg_desc : buffer vex_arg_desc;
  num_arg_desc : Z;
  capacity_arg_desc : Z;
  arg_token : buffer vex_arg_token;
  num_arg_token : Z;
  capacity_arg_token : Z;
  status : Z
}.

Definition set_status (st : Z) (msg : option string) (c : t) : t :=
  mk (name c) (help_msg c) msg (description c) (version c)
     (arg_desc c) (num_arg_desc c) (capacity_arg_desc c)
     (arg_token c) (num_arg_token c) (capacity_arg_token c) st.

Definition set_help_msg (h : option string) (c : t) : t :=
  mk (name c) h (status_msg c) (description c) (version c)
     (arg_desc c) (num_arg_desc c) (capacity_arg_desc c)
     (arg_token c) (num_arg_token c) (capacity_arg_token c) (status c).

Definition set_descs (b : buffer vex_arg_desc) (num cap : Z) (c : t) : t :=
  mk (name c) (help_msg c) (status_msg c) (description c) (version c)
     b num cap
     (arg_token c) (num_arg_token c) (capacity_arg_token c) (status c).

Definition set_tokens (b : buffer vex_arg_token) (num cap : Z) (c : t) : t :=
  mk (name c) (help_msg c) (status_msg c) (description c) (version c)
     (arg_desc c) (num_arg_desc c) (capacity_arg_desc c)
     b num cap (status c).
End Ctx.
Abbreviation vex_ctx := Ctx.t.

(** ** The machine and its monad *)

Record machine : Type := Machine {
  ctx : vex_ctx;
  allocs : list bool
}.

(** How a piece of a function body ends. *)
Inductive outcome (A : Type) : Type :=
| Next (a : A) (m : machine)   (* falls through with [a] *)
| Stop (m : machine)           (* executed [return false;] *)
| Undef.                       (* undefined behaviour *)
Arguments Next {A} a m.
Arguments Stop {A} m.
Arguments Undef {A}.

Definition M (A : Type) : Type := machine -> outcome A.

Definition ret {A} (a : A) : M A := fun m => Next a m.

Definition bind {A B} (c : M A) (k : A -> M B) : M B :=
  fun m =>
    match c m with
    | Next a m' => k a m'
    | Stop m' => Stop m'
    | Undef => Undef
    end.

Declare Scope vex_scope.
Delimit Scope vex_scope with vex.
Notation "x <- c ;; k" := (bind c (fun x => k))
  (at level 100, c at next level, right associativity) : vex_scope.
Notation "c ;;; k" := (bind c (fun _ => k))
  (at level 100, right associativity) : vex_scope.
Local Open Scope vex_scope.

Definition return_false {A} : M A := fun m => Stop m.
Definition undef {A} : M A := fun _ => Undef.

Definition get_ctx : M vex_ctx := fun m => Next (ctx m) m.
Definition modify_ctx (f : vex_ctx -> vex_ctx) : M unit :=
  fun m => Next tt (Machine (f (ctx m)) (allocs m)).

(** [!p] for a pointer [p]. *)
Definition is_null {A} (p : option A) : bool :=
  match p with
  | None => true
  | Some _ => false
  end.

(** Dereference: a missing object is undefined behaviour. *)
Definition deref {A} (o : option A) : M A :=
  match o with
  | Some a => ret a
  | None => undef
  end.

(** [if (!c) return false;] *)
Definition check (c : M bool) : M unit :=
  b <- c ;; if b : bool then ret tt else return_false.

(** One allocation request: [true] when the allocator returns a block. *)
Definition alloc : M bool :=
  fun m =>
    match allocs m with
    | [] => Next true m
    | b :: rest => Next b (Machine (ctx m) rest)
    end.

(** What an entry point returning [bool] does. *)
Inductive result : Type :=
| Returns (b : bool) (m : machine)
| Undefined.

Definition run (c : M unit) (m : machine) : result :=
  match c m with
  | Next _ m' => Returns true m'
  | Stop m' => Returns false m'
  | Undef => Undefined
  end.

(** A call whose [bool] result the caller ignores. *)
Definition ignore_result (c : M unit) : M unit :=
  fun m =>
    match c m with
    | Next _ m' => Next tt m'
    | Stop m' => Next tt m'
    | Undef => Undef
    end.

(** ** Private helpers of the header *)

Definition _vex_strdup (str : option string) : M (option string) :=
  match str with
  | None => ret None
  | Some s => ok <- alloc ;; ret (if ok : bool then Some s else None)
  end.

(** The C string held by a character array: the bytes before the first NUL. *)
Fixpoint c_str (s : string) : string :=
  match s with
  | EmptyString => EmptyString
  | String c s' => if Ascii.eqb c NUL then EmptyString else String c (c_str s')
  end.

(** [vsnprintf (buf, size, ...)] keeps at most [size - 1] characters of the
    formatted [text]. *)
Definition vsnprintf (size : nat) (text : string) : string :=
  c_str (String.substring 0 (Nat.pred size) text).

(** [_vex_set_status].  [fmt] is the format with its arguments substituted
    ([None] for a null format).  The message buffer comes from an unchecked
    [malloc (256)]: writing through a null result is undefined. *)
Definition _vex_set_status (st : Z) (fmt : option string) : M unit :=
  match fmt with
  | Some text =>
      if negb (st =? VEX_STATUS_OK) && negb (st =? VEX_STATUS_BAD_ALLOC) then
        ok <- alloc ;;
        if ok : bool
        then modify_ctx (Ctx.set_status st (Some (vsnprintf 256 text)))
        else undef
      else modify_ctx (Ctx.set_status st None)
  | None => modify_ctx (Ctx.set_status st None)
  end.

Definition fmt_c (prefix : string) (c : ascii) : string :=
  String.append prefix (String c EmptyString).

Definition fmt_s (prefix : string) (s : string) : string :=
  String.append prefix s.

Definition token_add (token : vex_arg_token) (value : vex_value) : vex_arg_token :=
  Tok.mk (Tok.long_name token) (Tok.short_name token)
         (Tok.arg token ++ [value]) (Tok.arg_type token).

(** [_vec_token_add_value (ctx, token, value)]; the token behind the
    pointer is passed in and handed back. *)
Definition _vec_token_add_value (token : vex_arg_token) (value : vex_value)
  : M (bool * vex_arg_token) :=
  ok <- alloc ;;
  if ok : bool then ret (true, token_add token value)
  else _vex_set_status VEX_STATUS_BAD_ALLOC None ;;; ret (false, token).

(** [temp = realloc (b, new_capacity * sizeof *temp)] followed, when it
    succeeds, by [memset (&temp[capacity], 0, ...)].  The cells below
    [capacity] keep the old contents; when the old block is shorter than
    [capacity] they would be indeterminate, which the model leaves
    undefined. *)
Definition grow {A} (zero : A) (b : buffer A) (capacity new_capacity : Z)
  : M (option (buffer A)) :=
  match b with
  | Freed => undef
  | _ =>
      ok <- alloc ;;
      if ok : bool then
        if (0 <=? capacity) && (capacity <=? Z.of_nat (length (cells_of b)))
        then ret (Some (Block (take (Z.to_nat capacity) (cells_of b)
                               ++ replicate (Z.to_nat (new_capacity - capacity)) zero)))
        else undef
      else ret None
  end.

(** [new_capacity = capacity * 2; new_capacity += (new_capacity == 0);] *)
Definition next_capacity (capacity : Z) : Z :=
  let new_capacity := capacity * 2 in
  new_capacity + (if new_capacity =? 0 then 1 else 0).

(** The resize loop of [_vex_add_token]:
    [while (ctx->num_arg_token >= ctx->capacity_arg_token)].  Each round
    raises the capacity, so [fuel] rounds are enough when [fuel] exceeds
    [num_arg_token - capacity_arg_token]. *)
Fixpoint resize_tokens (fuel : nat) : M bool :=
  c <- get_ctx ;;
  if Ctx.num_arg_token c >=? Ctx.capacity_arg_token c then
    match fuel with
    | O => undef
    | S fuel' =>
        let new_capacity := next_capacity (Ctx.capacity_arg_token c) in
        temp <- grow Tok.zero (Ctx.arg_token c) (Ctx.capacity_arg_token c) new_capacity ;;
        match temp with
        | None => _vex_set_status VEX_STATUS_BAD_ALLOC None ;;; ret false
        | Some b =>
            modify_ctx (Ctx.set_tokens b (Ctx.num_arg_token c) new_capacity) ;;;
            resize_tokens fuel'
        end
    end
  else ret true.

Definition resize_fuel (num capacity : Z) : nat := S (Z.to_nat (num - capacity)).

Definition _vex_add_token (token : vex_arg_token) : M bool :=
  c <- get_ctx ;;
  ok <- resize_tokens (resize_fuel (Ctx.num_arg_token c) (Ctx.capacity_arg_token c)) ;;
  if ok : bool then
    c <- get_ctx ;;
    b <- deref (write (Ctx.arg_token c) (Ctx.num_arg_token c) token) ;;
    modify_ctx (Ctx.set_tokens b (Ctx.num_arg_token c + 1) (Ctx.capacity_arg_token c)) ;;;
    ret true
  else ret false.

(** ** [vex_add_arg] *)

(** The duplicate scan: [for (i = 0; i < ctx->num_arg_desc; ++i)], with [n]
    rounds left. *)
Fixpoint find_duplicate (desc : vex_arg_desc) (n : nat) (i : Z) : M unit :=
  match n with
  | O => ret tt
  | S n' =>
      c <- get_ctx ;;
      entry <- deref (read (Ctx.arg_desc c) i) ;;
      dup <- (if Ascii.eqb (Desc.short_name entry) (Desc.short_name desc)
              then ret true
              else a <- deref (Desc.long_name entry) ;;
                   b <- deref (Desc.long_name desc) ;;
                   ret (strcmp a b =? 0)) ;;
      if dup : bool then
        (if Ascii.eqb (Desc.short_name desc) NUL
         then ln <- deref (Desc.long_name desc) ;;
              _vex_set_status VEX_STATUS_BAD_VALUE
                (Some (fmt_s "Duplicate arguments: --" ln))
         else _vex_set_status VEX_STATUS_BAD_VALUE
                (Some (fmt_c "Duplicate arguments: -" (Desc.short_name desc)))) ;;;
        return_false
      else find_duplicate desc n' (i + 1)
  end.

(** The resize loop of the descriptor buffer. *)
Fixpoint resize_descs (fuel : nat) : M unit :=
  c <- get_ctx ;;
  if Ctx.num_arg_desc c >=? Ctx.capacity_arg_desc c then
    match fuel with
    | O => undef
    | S fuel' =>
        let new_capacity := next_capacity (Ctx.capacity_arg_desc c) in
        temp <- grow Desc.zero (Ctx.arg_desc c) (Ctx.capacity_arg_desc c) new_capacity ;;
        match temp with
        | None => _vex_set_status VEX_STATUS_BAD_ALLOC None ;;; return_false
        | Some b =>
            modify_ctx (Ctx.set_descs b (Ctx.num_arg_desc c) new_capacity) ;;;
            resize_descs fuel'
        end
    end
  else ret tt.

Definition vex_add_arg_body (desc : vex_arg_desc) : M unit :=
  (if negb (isalpha (Desc.short_name desc)) then
     _vex_set_status VEX_STATUS_BAD_VALUE
       (Some (fmt_c "Invalid short arg name: " (Desc.short_name desc))) ;;;
     return_false
   else ret tt) ;;;
  (if Ascii.eqb (Desc.short_name desc) NUL && is_null (Desc.long_name desc) then
     _vex_set_status VEX_STATUS_BAD_VALUE (Some "No arg name given") ;;;
     return_false
   else ret tt) ;;;
  c <- get_ctx ;;
  find_duplicate desc (Z.to_nat (Ctx.num_arg_desc c)) 0 ;;;
  resize_descs (resize_fuel (Ctx.num_arg_desc c) (Ctx.capacity_arg_desc c)) ;;;
  c <- get_ctx ;;
  long_name <- _vex_strdup (Desc.long_name desc) ;;
  description <- _vex_strdup (Desc.description desc) ;;
  b <- deref (write (Ctx.arg_desc c) (Ctx.num_arg_desc c)
                (Desc.mk description long_name (Desc.short_name desc)
                         (Desc.arg_type desc) (Desc.max_count desc))) ;;
  modify_ctx (Ctx.set_descs b (Ctx.num_arg_desc c + 1) (Ctx.capacity_arg_desc c)) ;;;
  modify_ctx (Ctx.set_help_msg None).

Definition vex_add_arg (desc : vex_arg_desc) (m : machine) : result :=
  run (vex_add_arg_body desc) m.

(** ** [vex_init] *)

Record vex_init_info : Type := {
  info_name : option string;
  info_version : option string;
  info_description : option string
}.

(** [vex_ctx ctx = { 0 }] *)
Definition ctx_zero : vex_ctx :=
  Ctx.mk None None None None None NullPtr 0 0 NullPtr 0 0 0.

Definition vex_init_body (init_info : vex_init_info) : M unit :=
  name <- _vex_strdup (info_name init_info) ;;
  description <- _vex_strdup (info_description init_info) ;;
  version <- _vex_strdup (info_version init_info) ;;
  modify_ctx (fun _ => Ctx.mk name None None description version
                              NullPtr 0 0 NullPtr 0 0 VEX_STATUS_OK) ;;;
  if is_null name || is_null description || is_null version
  then _vex_set_status VEX_STATUS_BAD_ALLOC None
  else
    help_long <- _vex_strdup (Some "help") ;;
    help_text <- _vex_strdup (Some "Print this help message") ;;
    ignore_result (vex_add_arg_body
      (Desc.mk help_text help_long "h"%char VEX_ARG_TYPE_FLAG 0)) ;;;
    ver_long <- _vex_strdup (Some "version") ;;
    ver_text <- _vex_strdup (Some "Print the version string") ;;
    ignore_result (vex_add_arg_body
      (Desc.mk ver_text ver_long "v"%char VEX_ARG_TYPE_FLAG 0)).

(** [vex_init] returns the context by value: [None] when its behaviour is
    undefined. *)
Definition vex_init (init_info : vex_init_info) (oracle : list bool) : option machine :=
  match vex_init_body init_info (Machine ctx_zero oracle) with
  | Next _ m => Some m
  | Stop m => Some m
  | Undef => None
  end.

(** ** [vex_parse] *)

(** The local variables of [vex_parse] that live across arguments. *)
Record locals : Type := Locals {
  last_desc : Z;
  last_token : Z;
  token_count : Z;
  parse_options : bool
}.

(** The [switch] that fills a [vex_value] from the text of a value; the
    header repeats it at each of its four conversion sites. *)
Definition convert (type : Z) (text : string) : M vex_value :=
  if type =? VEX_ARG_TYPE_INT then n <- deref (atoi text) ;; ret (int_arg n)
  else if type =? VEX_ARG_TYPE_DUB then ret (dub_arg text)
  else if type =? VEX_ARG_TYPE_STR then s <- _vex_strdup (Some text) ;; ret (str_arg s)
  else ret zero_value.

(** [if (!_vec_token_add_value (ctx, &token, value)) return false;] on a
    local token. *)
Definition add_value_local (token : vex_arg_token) (value : vex_value)
  : M vex_arg_token :=
  r <- _vec_token_add_value token value ;;
  if fst r : bool then ret (snd r) else return_false.

(** The same call on [&ctx->arg_token[i]]. *)
Definition add_value_at (i : Z) (value : vex_value) : M unit :=
  c <- get_ctx ;;
  token <- deref (read (Ctx.arg_token c) i) ;;
  r <- _vec_token_add_value token value ;;
  c <- get_ctx ;;
  b <- deref (write (Ctx.arg_token c) i (snd r)) ;;
  modify_ctx (Ctx.set_tokens b (Ctx.num_arg_token c) (Ctx.capacity_arg_token c)) ;;;
  if fst r : bool then ret tt else return_false.

Definition token_of_desc (entry : vex_arg_desc) (long_name : option string)
  : vex_arg_token :=
  Tok.mk long_name (Desc.short_name entry) [] (Desc.arg_type entry).

(** The descriptor scan of a long option, [name] being [&arg[2]]:
    [for (d = 0; d < ctx->num_arg_desc; ++d)] with [n] rounds left. *)
Fixpoint match_long (name : string) (n : nat) (d : Z)
    (token : vex_arg_token) (last_desc : Z) : M (vex_arg_token * Z) :=
  match n with
  | O => ret (token, last_desc)
  | S n' =>
      c <- get_ctx ;;
      entry <- deref (read (Ctx.arg_desc c) d) ;;
      let span := strcspn name "=" in
      long_name <- deref (Desc.long_name entry) ;;
      if strncmp name long_name span =? 0 then
        dup <- _vex_strdup (Desc.long_name entry) ;;
        ret (token_of_desc entry dup, d)
      else match_long name n' (d + 1) token last_desc
  end.

Definition parse_long (arg : string) (l : locals) : M locals :=
  c <- get_ctx ;;
  r <- match_long (advance 2 arg) (Z.to_nat (Ctx.num_arg_desc c)) 0 Tok.zero (last_desc l) ;;
  let token := fst r in
  (if is_null (Tok.long_name token) then
     _vex_set_status VEX_STATUS_UNKNOWN_ARG (Some (fmt_s "Unknown option: " arg)) ;;;
     return_false
   else ret tt) ;;;
  token <- (if negb (Tok.arg_type token =? VEX_ARG_TYPE_FLAG) then
              match strchr arg "=" with
              | Some pch =>
                  value <- convert (Tok.arg_type token) (advance 1 pch) ;;
                  add_value_local token value
              | None => ret token
              end
            else ret token) ;;
  check (_vex_add_token token) ;;;
  c <- get_ctx ;;
  ret (Locals (snd r) (Ctx.num_arg_token c - 1) (token_count l + 1) (parse_options l)).

(** The descriptor scan for one character of a short cluster. *)
Fixpoint match_short (ch : ascii) (n : nat) (d : Z)
    (token : vex_arg_token) (last_desc : Z) : M (vex_arg_token * Z) :=
  match n with
  | O => ret (token, last_desc)
  | S n' =>
      c <- get_ctx ;;
      entry <- deref (read (Ctx.arg_desc c) d) ;;
      if Ascii.eqb ch (Desc.short_name entry) then
        dup <- _vex_strdup (Desc.long_name entry) ;;
        ret (token_of_desc entry dup, d)
      else match_short ch n' (d + 1) token last_desc
  end.

Definition unknown_short (ch : ascii) : M locals :=
  _vex_set_status VEX_STATUS_UNKNOWN_ARG (Some (fmt_c "Unknown option: -" ch)) ;;;
  return_false.

(** [for (c = &arg[1]; *c != 0; ++c)]: [cluster] is the text at [c]. *)
Fixpoint parse_short (cluster : string) (l : locals) : M locals :=
  match cluster with
  | EmptyString => ret l
  | String ch rest =>
      c <- get_ctx ;;
      r <- match_short ch (Z.to_nat (Ctx.num_arg_desc c)) 0 Tok.zero (last_desc l) ;;
      let token := fst r in
      let l := Locals (snd r) (last_token l) (token_count l) (parse_options l) in
      if Ascii.eqb (Tok.short_name token) NUL then
        if 0 <=? last_token l then
          last <- deref (read (Ctx.arg_token c) (last_token l)) ;;
          if negb (Ascii.eqb (Tok.short_name last) NUL)
             && negb (Tok.arg_type last =? VEX_ARG_TYPE_FLAG)
          then
            value <- convert (Tok.arg_type last) cluster ;;
            add_value_at (last_token l) value ;;;
            ret l
          else unknown_short ch
        else unknown_short ch
      else
        check (_vex_add_token token) ;;;
        c <- get_ctx ;;
        parse_short rest
          (Locals (last_desc l) (Ctx.num_arg_token c - 1) (token_count l + 1)
                  (parse_options l))
  end.

(** The type of a free-standing value: the scan
    [for (c = arg; *c != 0; ++c)] started with [type]. *)
Fixpoint infer_type (type : Z) (s : string) : Z :=
  match s with
  | EmptyString => type
  | String c s' =>
      if negb (isdigit c) then
        if Ascii.eqb c "."%char then infer_type VEX_ARG_TYPE_DUB s'
        else VEX_ARG_TYPE_STR
      else if negb (type =? VEX_ARG_TYPE_DUB) then infer_type VEX_ARG_TYPE_INT s'
      else infer_type type s'
  end.

Definition parse_value (arg : string) (l : locals) : M locals :=
  let type := infer_type VEX_ARG_TYPE_UNKNOWN arg in
  c <- get_ctx ;;
  group_with_last_token <-
    (if 0 <=? last_token l then
       desc <- deref (read (Ctx.arg_desc c) (last_desc l)) ;;
       token <- deref (read (Ctx.arg_token c) (last_token l)) ;;
       ret ((Desc.max_count desc <? 0)
            || (Tok.arg_count token <? Desc.max_count desc))
     else ret false) ;;
  if parse_options l && group_with_last_token then
    token <- deref (read (Ctx.arg_token c) (last_token l)) ;;
    (if negb (Tok.arg_type token =? type) then
       _vex_set_status VEX_STATUS_BAD_VALUE (Some "Unexpected value") ;;;
       return_false
     else ret tt) ;;;
    value <- convert type arg ;;
    add_value_at (last_token l) value ;;;
    ret l
  else
    value <- convert type arg ;;
    token <- add_value_local (Tok.mk None NUL [] type) value ;;
    check (_vex_add_token token) ;;;
    ret (Locals (-1) (-1) (token_count l) (parse_options l)).

(** One round of [for (a = 1; a < argc; ++a)] on [argv[a]]. *)
Definition parse_arg (arg : option string) (l : locals) : M locals :=
  match arg with
  | None => ret l
  | Some arg =>
      if strcmp arg "--" =? 0 then
        ret (Locals (last_desc l) (last_token l) (token_count l) false)
      else if parse_options l && Ascii.eqb (head_char arg) "-"%char then
        let l := Locals (-1) (-1) 0 (parse_options l) in
        if Ascii.eqb (head_char (advance 1 arg)) "-"%char
        then parse_long arg l
        else parse_short (advance 1 arg) l
      else parse_value arg l
  end.

(** The argument loop, with [n] rounds left and [rest] the part of [argv]
    from the current index on; reading past the array is undefined. *)
Fixpoint parse_loop (n : nat) (rest : list (option string)) (l : locals) : M locals :=
  match n with
  | O => ret l
  | S n' =>
      match rest with
      | [] => undef
      | arg :: rest' => l' <- parse_arg arg l ;; parse_loop n' rest' l'
      end
  end.

Definition init_locals : locals := Locals (-1) (-1) 0 true.

(** [if (ctx->arg_token) free (ctx->arg_token);] leaves the pointer in
    place; the counters are zeroed. *)
Definition clear_tokens : M unit :=
  c <- get_ctx ;;
  match Ctx.arg_token c with
  | NullPtr => modify_ctx (Ctx.set_tokens NullPtr 0 0)
  | Block _ => modify_ctx (Ctx.set_tokens Freed 0 0)
  | Freed => undef
  end.

Definition vex_parse_body (argc : Z) (argv : list (option string)) : M unit :=
  clear_tokens ;;;
  parse_loop (Z.to_nat (argc - 1)) (drop 1 argv) init_locals ;;;
  ret tt.

Definition vex_parse (argc : Z) (argv : list (option string)) (m : machine) : result :=
  run (vex_parse_body argc argv) m.

(** [vex_parse] on a whole argument vector, [argc] being its length. *)
Definition parse_argv (argv : list string) (m : machine) : result :=
  vex_parse (Z.of_nat (length argv)) (map Some argv) m.

(** ** Accessors *)

Definition vex_token_count (c : vex_ctx) : Z := Ctx.num_arg_token c.

(** The returned pointer is the index of the cell in [arg_token]; [None]
    is the null pointer. *)
Definition vex_get_token (c : vex_ctx) (num : Z) : option Z :=
  if (num <? 0) || (num >=? Ctx.num_arg_token c) then None else Some num.

(** The token behind a pointer returned by [vex_get_token]. *)
Definition token_at (c : vex_ctx) (p : option Z) : option vex_arg_token :=
  p ≫= read (Ctx.arg_token c).

(** The loop of [vex_arg_found]; [None] is undefined behaviour. *)
Fixpoint arg_found_loop (c : vex_ctx) (name : string) (n : nat) (i : Z) : option bool :=
  match n with
  | O => Some false
  | S n' =>
      let token := vex_get_token c i in
      by_short ← (if strlen name =? 1
                  then tk ← token_at c token;
                       Some (Ascii.eqb (head_char name) (Tok.short_name tk))
                  else Some false);
      if by_short : bool then Some true
      else
        by_long ← (if strlen name >? 1
                   then tk ← token_at c token;
                        long_name ← Tok.long_name tk;
                        Some (strcmp name long_name =? 0)
                   else Some false);
        if by_long : bool then Some true
        else arg_found_loop c name n' (i + 1)
  end.

Definition vex_arg_found (c : vex_ctx) (name : option string) : option bool :=
  match name with
  | None => Some false
  | Some name => arg_found_loop c name (Z.to_nat (vex_token_count c)) 0
  end.

(** ** [vex_get_version] and [vex_get_help] *)

Definition vex_get_version (c : vex_ctx) : option string := Ctx.version c.

(** The string holding a line feed. *)
Definition nl : string := String "010" "".

(** [strcat (buffer, src)] on a block of [size] bytes, [strcat_s] being the
    pre-C11 alias of the header: the text and its terminator have to fit,
    a write past the block is undefined. *)
Definition strcat (size : Z) (buffer src : string) : option string :=
  if strlen buffer + strlen src + 1 <=? size then Some (buffer +:+ src) else None.

(** [strncat (buffer, src, n)]: at most [n] characters of [src]. *)
Definition strncat (size : Z) (buffer src : string) (n : nat) : option string :=
  strcat size buffer (c_str (String.substring 0 n src)).

(** [buffer[k] = ' '; buffer[k + 1] = 0;].  At or before the terminator the
    text is cut at [k] and gets the space; past the terminator the text is
    as before. *)
Definition put_space (size k : Z) (buffer : string) : option string :=
  if (0 <=? k) && (k + 1 <? size) then
    if k <=? strlen buffer
    then Some (String.substring 0 (Z.to_nat k) buffer +:+ " ")
    else Some buffer
  else None.

(** The first loop of [vex_get_help], with [n] rounds left: the lengths of
    the descriptions are added to [buffer_len], and [max_arg_len] is the
    largest [16 + strlen (long_name)]. *)
Fixpoint help_sizes (c : vex_ctx) (n : nat) (i buffer_len max_arg_len : Z)
  : option (Z * Z) :=
  match n with
  | O => Some (buffer_len, max_arg_len)
  | S n' =>
      desc ← read (Ctx.arg_desc c) i;
      let arg_len :=
        match Desc.long_name desc with
        | Some long_name => 16 + strlen long_name
        | None => 16
        end in
      let max_arg_len := if arg_len >? max_arg_len then arg_len else max_arg_len in
      let buffer_len :=
        match Desc.description desc with
        | Some description => buffer_len + strlen description
        | None => buffer_len
        end in
      help_sizes c n' (i + 1) buffer_len max_arg_len
  end.

(** One round of the loop that adds the options to the usage line. *)
Definition usage_entry (size : Z) (desc : vex_arg_desc) (buffer : string)
  : option string :=
  buffer ← strcat size buffer " [";
  buffer ← (if negb (Ascii.eqb (Desc.short_name desc) NUL) then
              buffer ← strcat size buffer "-";
              buffer ← strncat size buffer (String (Desc.short_name desc) "") 1;
              if is_null (Desc.long_name desc) then Some buffer
              else strcat size buffer "/"
            else Some buffer);
  buffer ← (match Desc.long_name desc with
            | Some long_name =>
                buffer ← strcat size buffer "--";
                strcat size buffer long_name
            | None => Some buffer
            end);
  buffer ← strcat size buffer "] ";
  if negb (Desc.arg_type desc =? VEX_ARG_TYPE_FLAG)
     && negb (Desc.max_count desc =? 0)
  then strcat size buffer "... "
  else Some buffer.

Fixpoint usage_loop (c : vex_ctx) (size : Z) (n : nat) (i : Z) (buffer : string)
  : option string :=
  match n with
  | O => Some buffer
  | S n' =>
      desc ← read (Ctx.arg_desc c) i;
      buffer ← usage_entry size desc buffer;
      usage_loop c size n' (i + 1) buffer
  end.

(** The padding loop [while (arg_len < max_arg_len + 1)], with [n] rounds
    left. *)
Fixpoint pad (size buffer_len_curr : Z) (n : nat) (arg_len : Z) (buffer : string)
  : option string :=
  match n with
  | O => Some buffer
  | S n' =>
      buffer ← put_space size (buffer_len_curr + arg_len) buffer;
      pad size buffer_len_curr n' (arg_len + 1) buffer
  end.

(** One round of the loop that writes the lines under [Arguments:]. *)
Definition argument_line (size max_arg_len : Z) (desc : vex_arg_desc)
    (buffer : string) : option string :=
  let buffer_len_curr := strlen buffer in
  let arg_len := 1 in
  buffer ← strcat size buffer " ";
  r ← (if negb (Ascii.eqb (Desc.short_name desc) NUL) then
         buffer ← strcat size buffer "-";
         buffer ← strncat size buffer (String (Desc.short_name desc) "") 1;
         let arg_len := arg_len + 2 in
         if is_null (Desc.long_name desc) then Some (buffer, arg_len)
         else buffer ← strcat size buffer ", "; Some (buffer, arg_len + 2)
       else Some (buffer, arg_len));
  r ← (match Desc.long_name desc with
       | Some long_name =>
           buffer ← strcat size (fst r) "--";
           buffer ← strcat size buffer long_name;
           Some (buffer, snd r + (2 + strlen long_name))
       | None => Some r
       end);
  buffer ← pad size buffer_len_curr (Z.to_nat (max_arg_len + 1 - snd r)) (snd r) (fst r);
  buffer ← (match Desc.description desc with
            | Some description => strcat size buffer description
            | None => Some buffer
            end);
  strcat size buffer nl.

Fixpoint arguments_loop (c : vex_ctx) (size max_arg_len : Z) (n : nat) (i : Z)
    (buffer : string) : option string :=
  match n with
  | O => Some buffer
  | S n' =>
      desc ← read (Ctx.arg_desc c) i;
      buffer ← argument_line size max_arg_len desc buffer;
      arguments_loop c size max_arg_len n' (i + 1) buffer
  end.

(** [vex_get_help]: the returned pointer and the machine it leaves; [None]
    is undefined behaviour. *)
Definition vex_get_help (m : machine) : option (option string * machine) :=
  let c := ctx m in
  match Ctx.help_msg c with
  | Some help_msg => Some (Some help_msg, m)
  | None =>
      name ← Ctx.name c;
      let buffer_len := strlen name + 32 in
      let buffer_len :=
        match Ctx.description c with
        | Some description => buffer_len + strlen description
        | None => buffer_len
        end in
      sizes ← help_sizes c (Z.to_nat (Ctx.num_arg_desc c)) 0 buffer_len 0;
      let max_arg_len := snd sizes in
      let buffer_len := fst sizes + 2 * Ctx.num_arg_desc c * max_arg_len + 1 in
      match alloc m with
      | Next ok m' =>
          if ok : bool then
            let buffer := vsnprintf (Z.to_nat buffer_len) ("Usage: " +:+ name) in
            buffer ← usage_loop c buffer_len (Z.to_nat (Ctx.num_arg_desc c)) 0 buffer;
            buffer ← strcat buffer_len buffer (nl +:+ nl);
            buffer ← (match Ctx.description c with
                      | Some description =>
                          buffer ← strcat buffer_len buffer ("Description:" +:+ nl);
                          buffer ← strcat buffer_len buffer description;
                          strcat buffer_len buffer (nl +:+ nl)
                      | None => Some buffer
                      end);
            buffer ← strcat buffer_len buffer ("Arguments:" +:+ nl);
            buffer ← arguments_loop c buffer_len max_arg_len
                       (Z.to_nat (Ctx.num_arg_desc c)) 0 buffer;
            Some (Some buffer,
                  Machine (Ctx.set_help_msg (Some buffer) (ctx m')) (allocs m'))
          else Some (None, m')
      | _ => None
      end
  end.


(** ** [vex_free] *)

(** Every string of a context is a block of its own, obtained from
    [_vex_strdup] or [malloc], so that releasing one is defined and leaves
    the others alone; what can go wrong is a read in a block of structs or
    the release of such a block. *)

(** [for (i = 0; i < ctx->num_arg_desc; ++i)], with [n] rounds left: the
    descriptor is copied out of the block and its long name released. *)
Fixpoint free_descs (b : buffer vex_arg_desc) (n : nat) (i : Z) : option unit :=
  match n with
  | O => Some tt
  | S n' => desc ← read b i; free_descs b n' (i + 1)
  end.

(** [VEX_FREE (token.arg[j].str_arg)]: the member read is the one written
    last, or the null pointer of the initialiser [{ 0 }]; after a write to
    another member the pointer read is not one to release. *)
Definition free_str_arg (value : vex_value) : option unit :=
  match value with
  | str_arg _ => Some tt
  | zero_value => Some tt
  | int_arg _ => None
  | dub_arg _ => None
  end.

Fixpoint free_str_args (values : list vex_value) : option unit :=
  match values with
  | [] => Some tt
  | value :: rest => free_str_arg value ;; free_str_args rest
  end.

(** The loop over the tokens, with [n] rounds left. *)
Fixpoint free_tokens (b : buffer vex_arg_token) (n : nat) (i : Z) : option unit :=
  match n with
  | O => Some tt
  | S n' =>
      token ← read b i;
      (if Tok.arg_type token =? VEX_ARG_TYPE_STR
       then free_str_args (Tok.arg token) else Some tt) ;;
      free_tokens b n' (i + 1)
  end.

(** [vex_free]: [None] is undefined behaviour.  The two blocks of structs
    are released and their pointers left in place; the two messages are
    released and their pointers cleared.  The name, the description and the
    version are released as well: their pointers stay, and here keep the
    text they pointed to. *)
Definition vex_free (c : vex_ctx) : option vex_ctx :=
  arg_desc ← match Ctx.arg_desc c with
             | NullPtr => Some NullPtr
             | Block cells =>
                 free_descs (Block cells) (Z.to_nat (Ctx.num_arg_desc c)) 0 ;;
                 Some Freed
             | Freed => None
             end;
  arg_token ← match Ctx.arg_token c with
              | NullPtr => Some NullPtr
              | Block cells =>
                  free_tokens (Block cells) (Z.to_nat (Ctx.num_arg_token c)) 0 ;;
                  Some Freed
              | Freed => None
              end;
  Some (Ctx.mk (Ctx.name c) None None (Ctx.description c) (Ctx.version c)
               arg_desc (Ctx.num_arg_desc c) (Ctx.capacity_arg_desc c)
               arg_token (Ctx.num_arg_token c) (Ctx.capacity_arg_token c)
               (Ctx.status c)).

(** * Vocabulary of the statements *)

(** ** Outcomes of a computation *)

(** [wp c Q E m]: started in [m], the computation [c] either falls through
    with a value and machine in [Q], or returns false in a machine in [E],
    or its behaviour is undefined. *)
Definition wp {A} (c : M A) (Q : A -> machine -> Prop) (E : machine -> Prop)
    (m : machine) : Prop :=
  match c m with
  | Next a m' => Q a m'
  | Stop m' => E m'
  | Undef => True
  end.

(** ** The registry *)

(** The stored descriptors of [c] are [descs], in order. *)
Definition registry (c : vex_ctx) (descs : list vex_arg_desc) : Prop :=
  Ctx.num_arg_desc c = Z.of_nat (length descs) /\
  forall (i : nat) e, descs !! i = Some e ->
    read (Ctx.arg_desc c) (Z.of_nat i) = Some e.

Definition has_long_name (e : vex_arg_desc) : Prop := is_Some (Desc.long_name e).

(** [e] and [desc] clash: same short name, or textually equal long names. *)
Definition clash (e desc : vex_arg_desc) : Prop :=
  Desc.short_name e = Desc.short_name desc \/
  Desc.long_name e = Desc.long_name desc.

(** ** The token buffer *)

(** The tokens that the accessors can reach: the first [num_arg_token]
    cells of the block. *)
Definition tokens_of (c : vex_ctx) : list vex_arg_token :=
  take (Z.to_nat (Ctx.num_arg_token c)) (cells_of (Ctx.arg_token c)).

(** The counters describe the block. *)
Definition token_buffer_ok (c : vex_ctx) : Prop :=
  0 <= Ctx.num_arg_token c <= Ctx.capacity_arg_token c /\
  Ctx.capacity_arg_token c = Z.of_nat (length (cells_of (Ctx.arg_token c))).

(** [c'] differs from [c] in its token buffer only. *)
Definition same_but_tokens (c c' : vex_ctx) : Prop :=
  exists b num cap, c' = Ctx.set_tokens b num cap c.

(** One successful round of the resize loop. *)
Definition grown (c : vex_ctx) : vex_ctx :=
  let cap := Ctx.capacity_arg_token c in
  Ctx.set_tokens
    (Block (take (Z.to_nat cap) (cells_of (Ctx.arg_token c))
            ++ replicate (Z.to_nat (next_capacity cap - cap)) Tok.zero))
    (Ctx.num_arg_token c) (next_capacity cap) c.

(** [_vex_add_token] when its allocation succeeds. *)
Definition pushed (token : vex_arg_token) (c : vex_ctx) : vex_ctx :=
  let c1 := if Ctx.num_arg_token c >=? Ctx.capacity_arg_token c then grown c else c in
  Ctx.set_tokens
    (Block (<[Z.to_nat (Ctx.num_arg_token c1) := token]> (cells_of (Ctx.arg_token c1))))
    (Ctx.num_arg_token c1 + 1) (Ctx.capacity_arg_token c1) c1.

(** The cell [i] of the token block overwritten with [token]. *)
Definition stored (i : Z) (token : vex_arg_token) (c : vex_ctx) : vex_ctx :=
  Ctx.set_tokens
    (Block (<[Z.to_nat i := token]> (cells_of (Ctx.arg_token c))))
    (Ctx.num_arg_token c) (Ctx.capacity_arg_token c) c.

(** ** The state between two arguments *)

(** The arguments whose inferred type is in [good]. *)
Definition good_arg (good : Z -> Prop) (arg : option string) : Prop :=
  forall s, arg = Some s -> good (infer_type VEX_ARG_TYPE_UNKNOWN s).

(** The tokens [last_token] and the descriptor [last_desc] exist whenever
    [last_token] is set. *)
Definition locals_ok (c : vex_ctx) (l : locals) : Prop :=
  0 <= last_token l ->
  last_token l < Ctx.num_arg_token c /\
  is_Some (read (Ctx.arg_desc c) (last_desc l)).

Definition typed (good : Z -> Prop) (tokens : list vex_arg_token) : Prop :=
  Forall (fun token => good (Tok.arg_type token)) tokens.

(** What holds between two arguments of a parse started in [c0] (the
    context once its tokens are cleared): only the token buffer has
    changed, its counters describe its block, and every stored token has an
    argument type in [good]. *)
Definition parse_inv (c0 : vex_ctx) (good : Z -> Prop) (l : locals) (m : machine) : Prop :=
  same_but_tokens c0 (ctx m) /\
  token_buffer_ok (ctx m) /\
  locals_ok (ctx m) l /\
  typed good (tokens_of (ctx m)) /\
  (Ctx.arg_token c0 <> Freed -> Ctx.arg_token (ctx m) <> Freed).

(** ** Argument types and values *)

(** The argument types other than [VEX_ARG_TYPE_UNKNOWN]. *)
Definition resolved (type : Z) : Prop :=
  type = VEX_ARG_TYPE_FLAG \/ type = VEX_ARG_TYPE_INT \/
  type = VEX_ARG_TYPE_DUB \/ type = VEX_ARG_TYPE_STR.

(** The types the scan of a free-standing value can end in. *)
Definition value_type (type : Z) : Prop :=
  type = VEX_ARG_TYPE_INT \/ type = VEX_ARG_TYPE_DUB \/ type = VEX_ARG_TYPE_STR.

(** The value [convert] produces when [_vex_strdup] succeeds; [None] when
    [atoi] is undefined on the text. *)
Definition convert_value (type : Z) (text : string) : option vex_value :=
  if type =? VEX_ARG_TYPE_INT then int_arg <$> atoi text
  else if type =? VEX_ARG_TYPE_DUB then Some (dub_arg text)
  else if type =? VEX_ARG_TYPE_STR then Some (str_arg (Some text))
  else Some zero_value.

(** ** Descriptor scans *)

(** The first descriptor of [descs] (stored from index [d] on) with the
    short name [ch]. *)
Fixpoint find_short (ch : ascii) (descs : list vex_arg_desc) (d : Z)
  : option (vex_arg_desc * Z) :=
  match descs with
  | [] => None
  | e :: rest =>
      if Ascii.eqb ch (Desc.short_name e) then Some (e, d)
      else find_short ch rest (d + 1)
  end.


Definition scan_result (found : option (vex_arg_desc * Z))
    (token : vex_arg_token) (ld : Z) : vex_arg_token * Z :=
  match found with
  | Some (e, d) => (token_of_desc e (Desc.long_name e), d)
  | None => (token, ld)
  end.

(** ** Arguments *)

(** [s] holds no NUL character, as the text of a C string. *)
Definition c_string (s : string) : Prop := char_in NUL s = false.

(** The state of [vex_parse] after the arguments [args] that follow the
    program name. *)
Definition parse_prefix (args : list string) : M locals :=
  clear_tokens ;;; parse_loop (length args) (map Some args) init_locals.

(** [ch] is the short name of a descriptor of [descs], and every
    descriptor with that short name has the Flag type. *)
Definition registered_flag (descs : list vex_arg_desc) (ch : ascii) : Prop :=
  Exists (fun e => Desc.short_name e = ch) descs /\
  Forall (fun e => Desc.short_name e = ch ->
                   Desc.arg_type e = VEX_ARG_TYPE_FLAG) descs.

(** No descriptor of [descs] has the short name [ch]. *)
Definition unregistered_short (descs : list vex_arg_desc) (ch : ascii) : Prop :=
  Forall (fun e => Desc.short_name e <> ch) descs.

(** The context [c] once [vex_parse] has cleared its tokens, when it held
    none. *)
Definition cleared (c : vex_ctx) : vex_ctx := Ctx.set_tokens NullPtr 0 0 c.





(** The token of a free-standing value: no names, the inferred type, and
    the converted text as its one value. *)
Definition free_token (arg : string) : option vex_arg_token :=
  let type := infer_type VEX_ARG_TYPE_UNKNOWN arg in
  (fun v => Tok.mk None NUL [v] type) <$> convert_value type arg.

(** The tokens of the arguments that follow a [--], further [--] left
    out; [None] when a conversion is undefined. *)
Fixpoint values_after_marker (args : list string) : option (list vex_arg_token) :=
  match args with
  | [] => Some []
  | arg :: rest =>
      if String.eqb arg "--" then values_after_marker rest
      else token ← free_token arg;
           tokens ← values_after_marker rest;
           Some (token :: tokens)
  end.

(** ** Worked contexts *)

Definition demo_info : vex_init_info :=
  {| info_name := Some "prog"; info_version := Some "1.0";
     info_description := Some "demo" |}.

Definition help_desc : vex_arg_desc :=
  Desc.mk (Some "Print this help message") (Some "help") "h" VEX_ARG_TYPE_FLAG 0.

Definition version_desc : vex_arg_desc :=
  Desc.mk (Some "Print the version string") (Some "version") "v" VEX_ARG_TYPE_FLAG 0.

(** The machine of a context that any call returns; a zeroed one when the
    behaviour is undefined. *)
Definition returned (r : result) : machine :=
  match r with
  | Returns _ m => m
  | Undefined => Machine ctx_zero []
  end.

(** The context [vex_init] returns, with an allocator that never fails. *)
Definition fresh : machine :=
  Machine (Ctx.mk (Some "prog") None None (Some "demo") (Some "1.0")
                  (Block [help_desc; version_desc]) 2 2 NullPtr 0 0 VEX_STATUS_OK) [].

Definition count_desc : vex_arg_desc :=
  Desc.mk (Some "Number of rounds") (Some "count") "c" VEX_ARG_TYPE_INT 1.

(** [fresh] with [-c/--count] registered as an Int option. *)
Definition with_count : machine :=
  Eval vm_compute in returned (vex_add_arg count_desc fresh).

Definition he_desc : vex_arg_desc :=
  Desc.mk (Some "Height") (Some "he") "e" VEX_ARG_TYPE_INT 1.

(** [fresh] with [-e/--he] registered as an Int option. *)
Definition with_he : machine :=
  Eval vm_compute in returned (vex_add_arg he_desc fresh).

Definition a_desc : vex_arg_desc :=
  Desc.mk (Some "All") (Some "all") "a" VEX_ARG_TYPE_FLAG 0.

Definition b_desc : vex_arg_desc :=
  Desc.mk (Some "Brief") (Some "brief") "b" VEX_ARG_TYPE_FLAG 0.

(** [fresh] with the Flags [-a] and [-b] registered. *)
Definition with_ab : machine :=
  Eval vm_compute in
    returned (vex_add_arg b_desc (returned (vex_add_arg a_desc fresh))).

(** A descriptor that reuses the short name of [help_desc]. *)
Definition dup_desc : vex_arg_desc :=
  Desc.mk (Some "Greeting") (Some "hello") "h" VEX_ARG_TYPE_FLAG 0.

(** [fresh] after the failed registration of [dup_desc]. *)
Definition after_dup : machine :=
  Eval vm_compute in returned (vex_add_arg dup_desc fresh).

(** [fresh] after parsing the single option [-h]. *)
Definition after_h : machine :=
  Eval vm_compute in returned (parse_argv ["prog"; "-h"] fresh).

(** [fresh] after parsing [-h] and the value [12]. *)
Definition after_h_12 : machine :=
  Eval vm_compute in returned (parse_argv ["prog"; "-h"; "12"] fresh).

(** ** The help text *)

(** The entry of [desc] on the usage line. *)
Definition usage_text (desc : vex_arg_desc) : string :=
  " [" +:+
  (if negb (Ascii.eqb (Desc.short_name desc) NUL)
   then "-" +:+ String (Desc.short_name desc)
                  (if is_null (Desc.long_name desc) then "" else "/")
   else "") +:+
  (match Desc.long_name desc with
   | Some long_name => "--" +:+ long_name
   | None => ""
   end) +:+
  "] " +:+
  (if negb (Desc.arg_type desc =? VEX_ARG_TYPE_FLAG)
      && negb (Desc.max_count desc =? 0)
   then "... " else "").

(** The names of [desc] as they start its line under [Arguments:]. *)
Definition names_text (desc : vex_arg_desc) : string :=
  (if negb (Ascii.eqb (Desc.short_name desc) NUL)
   then "-" +:+ String (Desc.short_name desc)
                  (if is_null (Desc.long_name desc) then "" else ", ")
   else "") +:+
  (match Desc.long_name desc with
   | Some long_name => "--" +:+ long_name
   | None => ""
   end).

Fixpoint spaces (n : nat) : string :=
  match n with
  | O => ""
  | S n' => String " " (spaces n')
  end.

(** The width reserved for the names: 16 more than the longest long name. *)
Definition name_column (descs : list vex_arg_desc) : Z :=
  foldr (fun e acc => Z.max (16 + strlen (default "" (Desc.long_name e))) acc) 0 descs.

(** The line of [desc] under [Arguments:]: a space, the names padded with
    spaces to [column] characters, the description, a line feed. *)
Definition argument_text (column : Z) (desc : vex_arg_desc) : string :=
  " " +:+ names_text desc +:+
  spaces (Z.to_nat (column - strlen (names_text desc))) +:+
  default "" (Desc.description desc) +:+ nl.

(** The texts of [f] on [descs], one after the other. *)
Definition texts (f : vex_arg_desc -> string) (descs : list vex_arg_desc) : string :=
  foldr (fun e acc => f e +:+ acc) "" descs.

(** The help text of a context whose descriptors are [descs]. *)
Definition help_text (c : vex_ctx) (descs : list vex_arg_desc) : string :=
  "Usage: " +:+ default "" (Ctx.name c) +:+ texts usage_text descs +:+ nl +:+ nl +:+
  (match Ctx.description c with
   | Some description => "Description:" +:+ nl +:+ description +:+ nl +:+ nl
   | None => ""
   end) +:+
  "Arguments:" +:+ nl +:+ texts (argument_text (name_column descs)) descs.

(** The total length of the descriptions of [descs]. *)
Definition descriptions_length (descs : list vex_arg_desc) : Z :=
  foldr (fun e acc => strlen (default "" (Desc.description e)) + acc) 0 descs.

(** The number of bytes [vex_get_help] allocates for the help text. *)
Definition help_room (c : vex_ctx) (descs : list vex_arg_desc) : Z :=
  strlen (default "" (Ctx.name c)) + 32
  + strlen (default "" (Ctx.description c))
  + descriptions_length descs
  + 2 * Z.of_nat (length descs) * name_column descs + 1.

(** The length of the dots that follow [desc] on the usage line. *)
Definition dots_length (desc : vex_arg_desc) : Z :=
  if negb (Desc.arg_type desc =? VEX_ARG_TYPE_FLAG) && negb (Desc.max_count desc =? 0)
  then 4 else 0.

Definition dots_total (descs : list vex_arg_desc) : Z :=
  foldr (fun e acc => dots_length e + acc) 0 descs.

(** The total length of the long names of [descs]. *)
Definition long_names_length (descs : list vex_arg_desc) : Z :=
  foldr (fun e acc => strlen (default "" (Desc.long_name e)) + acc) 0 descs.

(** ** The token pointer after a second parse *)

(** The token block has been released and its pointer left in place. *)
Definition dangling (c : vex_ctx) : Prop :=
  Ctx.arg_token c = Freed /\ Ctx.num_arg_token c = 0 /\ Ctx.capacity_arg_token c = 0.

(** ** What [vex_arg_found] looks at *)

Definition has_short_name (ch : ascii) (token : vex_arg_token) : bool :=
  Ascii.eqb ch (Tok.short_name token).

Definition has_long_name_of (name : string) (token : vex_arg_token) : bool :=
  match Tok.long_name token with
  | Some long_name => strcmp name long_name =? 0
  | None => false
  end.

(** ** Relations kept by the entry points *)

(** [c] relates the context before it to the context after it by [R],
    whether it falls through or returns false. *)
Definition preserves {A} (R : vex_ctx -> vex_ctx -> Prop) (c : M A) : Prop :=
  forall m, wp c (fun _ m' => R (ctx m) (ctx m')) (fun m' => R (ctx m) (ctx m')) m.

(** The calls of [_vex_set_status] that the header makes: an allocation
    failure without a format, or a bad value or unknown argument with one. *)
Definition status_call (st : Z) (fmt : option string) : Prop :=
  (st = VEX_STATUS_BAD_ALLOC /\ fmt = None) \/
  ((st = VEX_STATUS_BAD_VALUE \/ st = VEX_STATUS_UNKNOWN_ARG) /\ is_Some fmt).

(** The message a call of [_vex_set_status] leaves. *)
Definition status_text (st : Z) (fmt : option string) : option string :=
  match fmt with
  | Some text =>
      if negb (st =? VEX_STATUS_OK) && negb (st =? VEX_STATUS_BAD_ALLOC)
      then Some (vsnprintf 256 text) else None
  | None => None
  end.

(** ** Registration *)

(** The descriptor [vex_add_arg] stores for [desc]: the scalar fields of
    [desc], and copies of its strings, null where [_vex_strdup] failed. *)
Definition stored_as (desc e : vex_arg_desc) : Prop :=
  Desc.short_name e = Desc.short_name desc /\
  Desc.arg_type e = Desc.arg_type desc /\
  Desc.max_count e = Desc.max_count desc /\
  (Desc.long_name e = Desc.long_name desc \/ Desc.long_name e = None) /\
  (Desc.description e = Desc.description desc \/ Desc.description e = None).

(** What a successful [vex_add_arg] of [desc] makes of a context. *)
Definition registered (desc : vex_arg_desc) (c c' : vex_ctx) : Prop :=
  exists b cap e,
    c' = Ctx.set_help_msg None (Ctx.set_descs b (Ctx.num_arg_desc c + 1) cap c) /\
    Ctx.num_arg_desc c < cap /\
    stored_as desc e /\
    read b (Ctx.num_arg_desc c) = Some e /\
    (forall i, 0 <= i < Ctx.num_arg_desc c -> read b i = read (Ctx.arg_desc c) i).

(** What a failed [vex_add_arg] makes of a context: a status with its
    message, and nothing else. *)
Definition rejected (c c' : vex_ctx) : Prop :=
  (c' = Ctx.set_status VEX_STATUS_BAD_ALLOC None c) \/
  (exists text,
     c' = Ctx.set_status VEX_STATUS_BAD_VALUE (Some (vsnprintf 256 text)) c).

(** ** Contexts that the entry points produce *)

(** The status and its message go together: no message with
    [VEX_STATUS_OK] and [VEX_STATUS_BAD_ALLOC], a message of at most 255
    characters with the two other statuses. *)
Definition status_agrees (c : vex_ctx) : Prop :=
  match Ctx.status_msg c with
  | None => Ctx.status c = VEX_STATUS_OK \/ Ctx.status c = VEX_STATUS_BAD_ALLOC
  | Some msg =>
      (Ctx.status c = VEX_STATUS_BAD_VALUE \/ Ctx.status c = VEX_STATUS_UNKNOWN_ARG) /\
      strlen msg <= 255
  end.

(** The stored descriptors fit their block, and their short names are
    letters, no two of them the same. *)
Definition registry_ok (c : vex_ctx) : Prop :=
  Ctx.num_arg_desc c <= Ctx.capacity_arg_desc c /\
  exists descs,
    registry c descs /\
    NoDup (map Desc.short_name descs) /\
    Forall (fun e => isalpha (Desc.short_name e) = true) descs.

(** The machines a caller gets from [vex_init] by calls of [vex_add_arg],
    [vex_parse] and [vex_get_help] that return. *)
Inductive reachable : machine -> Prop :=
| reach_init info oracle m :
    vex_init info oracle = Some m -> reachable m
| reach_add_arg desc m b m' :
    reachable m -> vex_add_arg desc m = Returns b m' -> reachable m'
| reach_parse argc argv m b m' :
    reachable m -> vex_parse argc argv m = Returns b m' -> reachable m'
| reach_get_help m r m' :
    reachable m -> vex_get_help m = Some (r, m') -> reachable m'.

(** The same without any parse: a context that has only been set up. *)
Inductive configured : machine -> Prop :=
| conf_init info oracle m :
    vex_init info oracle = Some m -> configured m
| conf_add_arg desc m b m' :
    configured m -> vex_add_arg desc m = Returns b m' -> configured m'
| conf_get_help m r m' :
    configured m -> vex_get_help m = Some (r, m') -> configured m'.

(** The machines a caller gets from [m0] by calls of [vex_add_arg],
    [vex_parse] and [vex_get_help] that return. *)
Inductive follows (m0 : machine) : machine -> Prop :=
| follows_here : follows m0 m0
| follows_add_arg desc m b m' :
    follows m0 m -> vex_add_arg desc m = Returns b m' -> follows m0 m'
| follows_parse argc argv m b m' :
    follows m0 m -> vex_parse argc argv m = Returns b m' -> follows m0 m'
| follows_get_help m r m' :
    follows m0 m -> vex_get_help m = Some (r, m') -> follows m0 m'.

(** The registry of [c] starts with two descriptors that get no dots on
    the usage line, as the two default flags do, and [c] has the name
    [name]. *)
Definition default_flags (name : string) (c : vex_ctx) : Prop :=
  Ctx.name c = Some name /\
  Ctx.num_arg_desc c <= Ctx.capacity_arg_desc c /\
  exists eh ev rest,
    registry c (eh :: ev :: rest) /\ dots_length eh = 0 /\ dots_length ev = 0.

(** [c'] has the identity and the registry of [c]. *)
Definition same_registry (c c' : vex_ctx) : Prop :=
  Ctx.name c' = Ctx.name c /\ Ctx.description c' = Ctx.description c /\
  Ctx.version c' = Ctx.version c /\ Ctx.help_msg c' = Ctx.help_msg c /\
  Ctx.arg_desc c' = Ctx.arg_desc c /\
  Ctx.num_arg_desc c' = Ctx.num_arg_desc c /\
  Ctx.capacity_arg_desc c' = Ctx.capacity_arg_desc c.

(** [c'] has the identity and the tokens of [c]. *)
Definition same_tokens (c c' : vex_ctx) : Prop :=
  Ctx.name c' = Ctx.name c /\ Ctx.description c' = Ctx.description c /\
  Ctx.version c' = Ctx.version c /\
  Ctx.arg_token c' = Ctx.arg_token c /\
  Ctx.num_arg_token c' = Ctx.num_arg_token c /\
  Ctx.capacity_arg_token c' = Ctx.capacity_arg_token c.

(** [dst] is the pointer [_vex_strdup] returns for [src]. *)
Definition copy_of (src dst : option string) : Prop := dst = src \/ dst = None.

(** What [vex_init] returns for [info]. *)
Definition initial (info : vex_init_info) (c : vex_ctx) : Prop :=
  copy_of (info_name info) (Ctx.name c) /\
  copy_of (info_description info) (Ctx.description c) /\
  copy_of (info_version info) (Ctx.version c) /\
  Ctx.help_msg c = None /\
  Ctx.arg_token c = NullPtr /\ Ctx.num_arg_token c = 0 /\
  Ctx.capacity_arg_token c = 0 /\
  status_agrees c /\ registry_ok c /\
  (Ctx.name c = None \/ Ctx.description c = None \/ Ctx.version c = None ->
   Ctx.status c = VEX_STATUS_BAD_ALLOC /\ Ctx.num_arg_desc c = 0) /\
  (Ctx.status c = VEX_STATUS_OK ->
   Ctx.name c = info_name info /\ Ctx.description c = info_description info /\
   Ctx.version c = info_version info /\
   exists eh ev,
     registry c [eh; ev] /\ stored_as help_desc eh /\ stored_as version_desc ev).

(** ** Short option clusters *)

(** The token of the first descriptor of [descs] with the short name [ch]. *)
Definition short_token (descs : list vex_arg_desc) (ch : ascii)
  : option vex_arg_token :=
  match find_short ch descs 0 with
  | Some (e, _) => Some (token_of_desc e (Desc.long_name e))
  | None => None
  end.

(** The tokens of a cluster whose characters all name a descriptor. *)
Fixpoint cluster_tokens (descs : list vex_arg_desc) (cluster : string)
  : option (list vex_arg_token) :=
  match cluster with
  | EmptyString => Some []
  | String ch rest =>
      token ← short_token descs ch;
      tokens ← cluster_tokens descs rest;
      Some (token :: tokens)
  end.

(** The last token has no room for another value: there is none, or its
    descriptor has a [max_count] that its values have reached. *)
Definition last_token_full (c : vex_ctx) (l : locals) : Prop :=
  0 <= last_token l ->
  exists desc token,
    read (Ctx.arg_desc c) (last_desc l) = Some desc /\
    read (Ctx.arg_token c) (last_token l) = Some token /\
    0 <= Desc.max_count desc <= Tok.arg_count token.

(** ** More worked contexts *)

(** The information of [demo_info] without a version. *)
Definition no_version_info : vex_init_info :=
  {| info_name := Some "prog"; info_version := None;
     info_description := Some "demo" |}.

(** The context [vex_init] returns for it. *)
Definition no_version : machine :=
  Machine (Ctx.mk (Some "prog") None None (Some "demo") None
                  NullPtr 0 0 NullPtr 0 0 VEX_STATUS_BAD_ALLOC) [].

(** [with_count] after parsing the single option [-c]. *)
Definition after_c : machine :=
  Eval vm_compute in returned (parse_argv ["prog"; "-c"] with_count).

(** [after_h] after a second parse, of the program name alone. *)
Definition parsed_twice : machine :=
  Eval vm_compute in returned (parse_argv ["prog"] after_h).

(** A descriptor whose short name is a digit. *)
Definition digit_desc : vex_arg_desc :=
  Desc.mk (Some "First") (Some "one") "1" VEX_ARG_TYPE_FLAG 0.

(** A descriptor without long name. *)
Definition short_only_desc : vex_arg_desc :=
  Desc.mk (Some "Extra") None "x" VEX_ARG_TYPE_FLAG 0.

(** A descriptor without long name that reuses the short name of
    [version_desc]. *)
Definition v_only_desc : vex_arg_desc :=
  Desc.mk (Some "Verbose") None "v" VEX_ARG_TYPE_FLAG 0.

(** ** Type inference, read off the characters *)

(** Every character of [s] is a decimal digit or a dot. *)
Fixpoint digits_or_dots (s : string) : bool :=
  match s with
  | EmptyString => true
  | String c s' => (isdigit c || Ascii.eqb c ".") && digits_or_dots s'
  end.

(** The type of a free-standing value, read off its characters. *)
Definition classify (s : string) : Z :=
  if negb (digits_or_dots s) then VEX_ARG_TYPE_STR
  else if char_in "." s then VEX_ARG_TYPE_DUB
  else if String.eqb s "" then VEX_ARG_TYPE_UNKNOWN
  else VEX_ARG_TYPE_INT.

(** ** Invariants of the argument loop *)

(** The counters that describe the token block keep doing so. *)
Definition keeps_token_buffer (c c' : vex_ctx) : Prop :=
  token_buffer_ok c -> token_buffer_ok c'.

(** A released token block stays released. *)
Definition keeps_dangling (c c' : vex_ctx) : Prop := dangling c -> dangling c'.

(** * Reasoning about computations *)

Section wp_rules.
Context {A B : Type}.
Implicit Types (Q : A -> machine -> Prop) (E : machine -> Prop) (m : machine).

Lemma wp_ret (a : A) Q E m : Q a m -> wp (ret a) Q E m.
Proof. intros H. exact H. Qed.

Lemma wp_bind (c : M A) (k : A -> M B) (R : B -> machine -> Prop) E m :
  wp c (fun a m' => wp (k a) R E m') E m -> wp (bind c k) R E m.
Proof. unfold wp, bind. by destruct (c m). Qed.

Lemma wp_mono (c : M A) Q Q' E E' m :
  wp c Q E m ->
  (forall a m', Q a m' -> Q' a m') -> (forall m', E m' -> E' m') ->
  wp c Q' E' m.
Proof. unfold wp. destruct (c m); auto. Qed.

Lemma wp_return_false Q E m : E m -> wp (@return_false A) Q E m.
Proof. intros H. exact H. Qed.

Lemma wp_undef Q E m : wp (@undef A) Q E m.
Proof. exact I. Qed.

Lemma wp_deref (o : option A) Q E m :
  (forall a, o = Some a -> Q a m) -> wp (deref o) Q E m.
Proof.
  destruct o as [a|]; intros H; [|apply wp_undef].
  apply wp_ret, H. reflexivity.
Qed.
End wp_rules.

Lemma bind_assoc {A B C} (c : M A) (k : A -> M B) (h : B -> M C) m :
  bind (bind c k) h m = bind c (fun a => bind (k a) h) m.
Proof. unfold bind. by destruct (c m). Qed.

Lemma bind_ext {A B} (c : M A) (k k' : A -> M B) m :
  (forall a m', k a m' = k' a m') -> bind c k m = bind c k' m.
Proof. intros H. unfold bind. by destruct (c m). Qed.

Lemma bind_ext_wp {A B} (c : M A) (k k' : A -> M B) m :
  wp c (fun a m' => k a m' = k' a m') (fun _ => True) m ->
  bind c k m = bind c k' m.
Proof. unfold wp, bind. by destruct (c m). Qed.

Lemma wp_get_ctx (Q : vex_ctx -> machine -> Prop) E m :
  Q (ctx m) m -> wp get_ctx Q E m.
Proof. intros H. exact H. Qed.

Lemma wp_modify_ctx f (Q : unit -> machine -> Prop) E m :
  Q tt (Machine (f (ctx m)) (allocs m)) -> wp (modify_ctx f) Q E m.
Proof. intros H. exact H. Qed.

Lemma wp_alloc (Q : bool -> machine -> Prop) E m :
  (forall ok o, Q ok (Machine (ctx m) o)) -> wp alloc Q E m.
Proof.
  intros H. unfold wp, alloc. destruct m as [c [|b o]]; simpl; apply H.
Qed.

Lemma wp_check (c : M bool) (Q : unit -> machine -> Prop) E m :
  wp c (fun b m' => if b then Q tt m' else E m') E m -> wp (check c) Q E m.
Proof. intros H. apply wp_bind. eapply wp_mono; eauto. by intros []. Qed.

Lemma wp_run (c : M unit) m b m' (Q : unit -> machine -> Prop) E :
  wp c Q E m -> run c m = Returns b m' ->
  if b then Q tt m' else E m'.
Proof.
  unfold wp, run. destruct (c m) as [[] m1|m1|]; intros H [= <- <-]; done.
Qed.

(** ** The helpers under an arbitrary allocator *)

Lemma wp_strdup str (Q : option string -> machine -> Prop) E m :
  (forall r o, (r = str \/ r = None) -> Q r (Machine (ctx m) o)) ->
  wp (_vex_strdup str) Q E m.
Proof.
  intros H. destruct str as [s|]; simpl.
  - apply wp_bind, wp_alloc. intros [] o; apply wp_ret, H; auto.
  - apply wp_ret. destruct m. apply H. auto.
Qed.

Lemma wp_set_status st fmt (Q : unit -> machine -> Prop) E m :
  (forall msg o, Q tt (Machine (Ctx.set_status st msg (ctx m)) o)) ->
  wp (_vex_set_status st fmt) Q E m.
Proof.
  intros H. unfold _vex_set_status.
  destruct fmt as [text|]; [destruct (negb _ && negb _)|].
  - apply wp_bind, wp_alloc. intros [] o; [|apply wp_undef].
    apply wp_modify_ctx, H.
  - apply wp_modify_ctx, H.
  - apply wp_modify_ctx, H.
Qed.

(** * [vex_arg_found] *)

Lemma arg_found_loop_empty c n i : arg_found_loop c "" n i = Some false.
Proof. revert i. induction n as [|n IH]; intros i; simpl; [done|apply IH]. Qed.

(** C10: [vex_arg_found] answers false for a null name and for the empty
    name, whatever the context and its tokens are. *)
Theorem vex_arg_found_null_or_empty (c : vex_ctx) :
  vex_arg_found c None = Some false /\ vex_arg_found c (Some "") = Some false.
Proof. split; [done|apply arg_found_loop_empty]. Qed.

(** * [vex_add_arg] *)

Lemma strcmp_refl s : strcmp s s = 0.
Proof. induction s as [|x s IH]; simpl; [done|]. by rewrite Ascii.eqb_refl. Qed.

Lemma char_code_inj x y : char_code x = char_code y -> x = y.
Proof.
  unfold char_code. intros H. apply N2Z.inj in H.
  rewrite <- (ascii_N_embedding x), <- (ascii_N_embedding y). by rewrite H.
Qed.

Lemma isalpha_not_NUL ch : isalpha ch = true -> Ascii.eqb ch NUL = false.
Proof. intros H. apply Ascii.eqb_neq. by intros ->. Qed.

Lemma set_status_message st text m :
  hd true (allocs m) = true ->
  st = VEX_STATUS_BAD_VALUE \/ st = VEX_STATUS_UNKNOWN_ARG ->
  _vex_set_status st (Some text) m
  = Next tt (Machine (Ctx.set_status st (Some (vsnprintf 256 text)) (ctx m))
                     (tl (allocs m))).
Proof.
  intros Hok Hst. unfold _vex_set_status.
  replace (negb (st =? VEX_STATUS_OK) && negb (st =? VEX_STATUS_BAD_ALLOC))
    with true by (by destruct Hst as [-> | ->]).
  destruct m as [c [|b o]]; simpl in *; [done|]. by subst b.
Qed.

Lemma find_duplicate_keeps desc n i m :
  wp (find_duplicate desc n i) (fun _ m' => m' = m)
     (fun m' => exists msg, ctx m' = Ctx.set_status VEX_STATUS_BAD_VALUE msg (ctx m)) m.
Proof.
  revert i. induction n as [|n IH]; intros i; simpl.
  { by apply wp_ret. }
  apply wp_bind, wp_get_ctx, wp_bind, wp_deref. intros entry _.
  apply wp_bind.
  assert (forall dup, wp
    (if dup : bool then
       (if Ascii.eqb (Desc.short_name desc) NUL
        then ln <- deref (Desc.long_name desc) ;;
             _vex_set_status VEX_STATUS_BAD_VALUE
               (Some (fmt_s "Duplicate arguments: --" ln))
        else _vex_set_status VEX_STATUS_BAD_VALUE
               (Some (fmt_c "Duplicate arguments: -" (Desc.short_name desc)))) ;;;
       return_false
     else find_duplicate desc n (i + 1))
    (fun _ m' => m' = m)
    (fun m' => exists msg, ctx m' = Ctx.set_status VEX_STATUS_BAD_VALUE msg (ctx m)) m)
    as Hbody.
  { intros [|]; [|apply IH]. apply wp_bind.
    destruct (Ascii.eqb _ NUL).
    - apply wp_bind, wp_deref. intros ln _.
      apply wp_set_status. intros msg o. apply wp_return_false. by exists msg.
    - apply wp_set_status. intros msg o. apply wp_return_false. by exists msg. }
  destruct (Ascii.eqb (Desc.short_name entry) (Desc.short_name desc)).
  - apply wp_ret. exact (Hbody true).
  - apply wp_bind, wp_deref. intros a _. apply wp_bind, wp_deref. intros b _.
    apply wp_ret. exact (Hbody (strcmp a b =? 0)).
Qed.

Lemma resize_descs_done fuel m :
  Ctx.num_arg_desc (ctx m) < Ctx.capacity_arg_desc (ctx m) ->
  resize_descs fuel m = Next tt m.
Proof.
  intros H. destruct fuel; unfold resize_descs, bind, get_ctx;
    (replace (_ >=? _) with false by lia); done.
Qed.

Lemma next_capacity_gt cap : 0 <= cap -> cap < next_capacity cap.
Proof. unfold next_capacity. intros H. destruct (Z.eqb_spec (cap * 2) 0); lia. Qed.

Lemma wp_grow {A} (zero : A) b cap new_cap (Q : option (buffer A) -> machine -> Prop) E m :
  (forall o, Q None (Machine (ctx m) o)) ->
  (forall o, 0 <= cap <= Z.of_nat (length (cells_of b)) ->
     Q (Some (Block (take (Z.to_nat cap) (cells_of b)
                     ++ replicate (Z.to_nat (new_cap - cap)) zero)))
       (Machine (ctx m) o)) ->
  wp (grow zero b cap new_cap) Q E m.
Proof.
  intros Hnone Hsome. unfold grow.
  assert (wp
    (ok <- alloc ;;
     if ok : bool then
       if (0 <=? cap) && (cap <=? Z.of_nat (length (cells_of b)))
       then ret (Some (Block (take (Z.to_nat cap) (cells_of b)
                              ++ replicate (Z.to_nat (new_cap - cap)) zero)))
       else undef
     else ret None) Q E m) as H.
  { apply wp_bind, wp_alloc. intros [] o; [|apply wp_ret, Hnone].
    destruct ((0 <=? cap) && (cap <=? Z.of_nat (length (cells_of b)))) eqn:H;
      [|apply wp_undef].
    apply andb_true_iff in H. apply wp_ret, Hsome. lia. }
  destruct b; [exact H|exact H|apply wp_undef].
Qed.

(** The resize loop keeps everything but the descriptor block and its
    capacity, and ends with room for one more descriptor; when it gives up
    in a context with room for every stored descriptor, only the status has
    changed. *)
Lemma wp_resize_descs fuel m :
  wp (resize_descs fuel)
     (fun _ m' => exists b cap,
        ctx m' = Ctx.set_descs b (Ctx.num_arg_desc (ctx m)) cap (ctx m) /\
        Ctx.num_arg_desc (ctx m) < cap)
     (fun m' =>
        Ctx.num_arg_desc (ctx m) <= Ctx.capacity_arg_desc (ctx m) ->
        exists st msg, ctx m' = Ctx.set_status st msg (ctx m)) m.
Proof.
  revert m. induction fuel as [|fuel IH]; intros m;
    unfold resize_descs; fold resize_descs;
    apply wp_bind, wp_get_ctx; destruct (Z.geb_spec (Ctx.num_arg_desc (ctx m))
      (Ctx.capacity_arg_desc (ctx m))) as [Hge|Hlt].
  - apply wp_undef.
  - apply wp_ret. destruct m as [[] o]. by eexists _, _.
  - apply wp_bind, wp_grow.
    + intros o. apply wp_bind, wp_set_status. intros msg o'.
      apply wp_return_false. intros _. by eexists _, _.
    + intros o Hcap. apply wp_bind, wp_modify_ctx. simpl.
      set (m1 := Machine _ o).
      destruct (Z.ltb_spec (Ctx.num_arg_desc (ctx m))
                  (next_capacity (Ctx.capacity_arg_desc (ctx m)))) as [Hlt|Hge'].
      * unfold wp. rewrite resize_descs_done by done. by eexists _, _.
      * eapply wp_mono; [apply (IH m1)| |]; simpl.
        -- intros _ m' (b & cap & -> & Hroom). by eexists _, _.
        -- intros m' _ Hwf. pose proof (next_capacity_gt _ (proj1 Hcap)). lia.
  - apply wp_ret. destruct m as [[] o]. by eexists _, _.
Qed.

(** What [vex_add_arg] leaves behind: on success the status is the one
    before the call and the descriptors fit their block; on failure, in a
    context with room for its stored descriptors, only the status and its
    message have changed. *)
Lemma wp_vex_add_arg_body desc m :
  wp (vex_add_arg_body desc)
     (fun _ m' =>
        Ctx.status (ctx m') = Ctx.status (ctx m) /\
        Ctx.status_msg (ctx m') = Ctx.status_msg (ctx m) /\
        Ctx.num_arg_desc (ctx m') <= Ctx.capacity_arg_desc (ctx m'))
     (fun m' =>
        Ctx.num_arg_desc (ctx m) <= Ctx.capacity_arg_desc (ctx m) ->
        exists st msg, ctx m' = Ctx.set_status st msg (ctx m)) m.
Proof.
  unfold vex_add_arg_body. apply wp_bind.
  destruct (negb (isalpha _)).
  { apply wp_bind, wp_set_status. intros msg o. apply wp_return_false.
    intros _. by eexists _, _. }
  apply wp_ret, wp_bind. destruct (_ && _).
  { apply wp_bind, wp_set_status. intros msg o. apply wp_return_false.
    intros _. by eexists _, _. }
  apply wp_ret, wp_bind, wp_get_ctx, wp_bind.
  eapply wp_mono; [apply find_duplicate_keeps| |]; cbv beta.
  2:{ intros m' [msg ->] _. by eexists _, _. }
  intros _ ? ->. apply wp_bind.
  eapply wp_mono; [apply wp_resize_descs| |]; cbv beta; [|done].
  intros _ m1 (b & cap & Hm1 & Hroom).
  apply wp_bind, wp_get_ctx, wp_bind, wp_strdup. intros ln o1 _.
  apply wp_bind, wp_strdup. intros ds o2 _. simpl.
  apply wp_bind, wp_deref. intros b' _.
  apply wp_bind, wp_modify_ctx, wp_modify_ctx. simpl.
  rewrite Hm1. simpl. split_and!; [done|done|lia].
Qed.

(** C9: when [vex_add_arg] returns false, the registry is unchanged:
    [num_arg_desc] and every stored descriptor are as before the call.
    The context is one whose descriptor count does not exceed the capacity
    of its block. *)
Theorem vex_add_arg_false_keeps_registry (desc : vex_arg_desc) (m m' : machine) :
  Ctx.num_arg_desc (ctx m) <= Ctx.capacity_arg_desc (ctx m) ->
  vex_add_arg desc m = Returns false m' ->
  Ctx.num_arg_desc (ctx m') = Ctx.num_arg_desc (ctx m) /\
  forall i, 0 <= i < Ctx.num_arg_desc (ctx m) ->
    read (Ctx.arg_desc (ctx m')) i = read (Ctx.arg_desc (ctx m)) i.
Proof.
  intros Hwf Hrun.
  destruct (wp_run _ _ _ _ _ _ (wp_vex_add_arg_body desc m) Hrun Hwf)
    as (st & msg & ->).
  by split.
Qed.

(** The room for the stored descriptors is an invariant of [vex_add_arg]. *)
Lemma vex_add_arg_keeps_room desc m b m' :
  Ctx.num_arg_desc (ctx m) <= Ctx.capacity_arg_desc (ctx m) ->
  vex_add_arg desc m = Returns b m' ->
  Ctx.num_arg_desc (ctx m') <= Ctx.capacity_arg_desc (ctx m').
Proof.
  intros Hwf Hrun.
  pose proof (wp_run _ _ _ _ _ _ (wp_vex_add_arg_body desc m) Hrun) as H.
  destruct b.
  - by destruct H as (_ & _ & ?).
  - by destruct (H Hwf) as (st & msg & ->).
Qed.

Lemma wp_ignore_result (c : M unit) (Q : unit -> machine -> Prop) E m :
  wp c (fun _ m' => Q tt m') (fun m' => Q tt m') m -> wp (ignore_result c) Q E m.
Proof. unfold wp, ignore_result. by destruct (c m). Qed.

(** [vex_init] returns a context with room for its stored descriptors. *)
Lemma vex_init_room init_info oracle m :
  vex_init init_info oracle = Some m ->
  Ctx.num_arg_desc (ctx m) <= Ctx.capacity_arg_desc (ctx m).
Proof.
  set (room := fun m' : machine =>
    Ctx.num_arg_desc (ctx m') <= Ctx.capacity_arg_desc (ctx m')).
  assert (forall desc m0, room m0 ->
    wp (ignore_result (vex_add_arg_body desc)) (fun _ => room) room m0) as Hadd.
  { intros desc m0 Hroom. apply wp_ignore_result.
    eapply wp_mono; [apply wp_vex_add_arg_body| |]; cbv beta.
    - by intros _ m' (_ & _ & ?).
    - intros m' H. destruct (H Hroom) as (st & msg & Hm'). unfold room.
      by rewrite Hm'. }
  assert (wp (vex_init_body init_info) (fun _ => room) room (Machine ctx_zero oracle))
    as Hwp.
  { unfold vex_init_body.
    apply wp_bind, wp_strdup. intros name o1 _.
    apply wp_bind, wp_strdup. intros description o2 _.
    apply wp_bind, wp_strdup. intros version o3 _.
    apply wp_bind, wp_modify_ctx. cbn [ctx allocs].
    destruct (_ || _).
    { apply wp_set_status. intros msg o. by unfold room. }
    apply wp_bind, wp_strdup. intros help_long o4 _.
    apply wp_bind, wp_strdup. intros help_text o5 _.
    apply wp_bind. eapply wp_mono; [apply Hadd; by unfold room| |done].
    intros [] m1 Hm1. cbv beta in Hm1.
    apply wp_bind, wp_strdup. intros ver_long o6 _.
    apply wp_bind, wp_strdup. intros ver_text o7 _.
    by apply Hadd. }
  unfold vex_init. unfold wp in Hwp.
  destruct (vex_init_body _ _) as [[] m'|m'|]; [|by intros [= <-]|done].
  by intros [= <-].
Qed.

(** The fuel of the resize loops is enough: more fuel changes nothing. *)
Lemma resize_descs_fuel fuel m :
  (Z.to_nat (Ctx.num_arg_desc (ctx m) - Ctx.capacity_arg_desc (ctx m)) < fuel)%nat ->
  resize_descs fuel m = resize_descs (S fuel) m.
Proof.
  revert m. induction fuel as [|fuel IH]; intros m Hfuel; [lia|].
  unfold resize_descs; fold resize_descs.
  apply bind_ext_wp, wp_get_ctx.
  destruct (Z.geb_spec (Ctx.num_arg_desc (ctx m)) (Ctx.capacity_arg_desc (ctx m)))
    as [Hge|Hlt]; [|done].
  apply bind_ext_wp, wp_grow; [done|]. intros o Hcap.
  apply bind_ext_wp, wp_modify_ctx. cbv beta.
  pose proof (next_capacity_gt _ (proj1 Hcap)) as Hnext.
  set (m2 := Machine _ _).
  change (resize_descs fuel m2 = resize_descs (S fuel) m2).
  destruct (Z.ltb_spec (Ctx.num_arg_desc (ctx m))
              (next_capacity (Ctx.capacity_arg_desc (ctx m)))) as [Hlt|Hge'].
  - by rewrite !resize_descs_done.
  - apply IH. subst m2.
    cbn [ctx Ctx.set_descs Ctx.num_arg_desc Ctx.capacity_arg_desc]. lia.
Qed.

Lemma find_duplicate_hit desc m (rest : list vex_arg_desc) (i : Z) :
  (forall (k : nat) e, rest !! k = Some e ->
     read (Ctx.arg_desc (ctx m)) (i + Z.of_nat k) = Some e) ->
  Forall has_long_name rest -> has_long_name desc ->
  (exists (j : nat) e, rest !! j = Some e /\ clash e desc) ->
  Ascii.eqb (Desc.short_name desc) NUL = false ->
  hd true (allocs m) = true ->
  find_duplicate desc (length rest) i m
  = Stop (Machine
            (Ctx.set_status VEX_STATUS_BAD_VALUE
               (Some (vsnprintf 256
                        (fmt_c "Duplicate arguments: -" (Desc.short_name desc))))
               (ctx m))
            (tl (allocs m))).
Proof.
  intros Hread Hlong [b Hb] Hhit Hnul Hok. revert i Hread Hhit.
  induction Hlong as [|e rest [a Ha] Hrest IH]; intros i Hread (j & e' & Hj & Hclash).
  { done. }
  pose proof (Hread 0%nat e eq_refl) as H0. rewrite Z.add_0_r in H0.
  cbn [length find_duplicate]. unfold bind at 1, get_ctx. unfold bind at 1.
  rewrite H0. cbn [deref ret]. unfold bind at 1.
  destruct (Ascii.eqb (Desc.short_name e) (Desc.short_name desc)) eqn:Hshort.
  - cbn [ret]. rewrite Hnul. unfold bind.
    rewrite set_status_message by auto. done.
  - rewrite Ha, Hb. cbn [deref ret bind]. unfold bind at 1. cbn [ret].
    destruct (strcmp a b =? 0) eqn:Hcmp.
    + rewrite Hnul. unfold bind. rewrite set_status_message by auto. done.
    + apply IH.
      * intros k e0 Hk. rewrite <- (Hread (S k) e0 Hk). f_equal. lia.
      * destruct j as [|j]; [|by exists j, e'].
        injection Hj as <-. destruct Hclash as [Hc|Hc].
        -- apply Ascii.eqb_neq in Hshort. done.
        -- rewrite Ha, Hb in Hc. injection Hc as ->.
           rewrite strcmp_refl in Hcmp. done.
Qed.

(** Among descriptors that all have a long name, registering one that
    clashes with a stored one (same short name, or textually equal long
    name) returns false with status [VEX_STATUS_BAD_VALUE], wherever the
    stored one sits in the registry; nothing but the status changes.  The
    buffer of the message is allocated. *)
Theorem vex_add_arg_duplicate (desc : vex_arg_desc) (m : machine)
    (descs : list vex_arg_desc) (j : nat) (entry : vex_arg_desc) :
  registry (ctx m) descs ->
  Forall has_long_name descs -> has_long_name desc ->
  descs !! j = Some entry -> clash entry desc ->
  hd true (allocs m) = true ->
  exists msg,
    vex_add_arg desc m
    = Returns false
        (Machine (Ctx.set_status VEX_STATUS_BAD_VALUE (Some msg) (ctx m))
                 (tl (allocs m))).
Proof.
  intros [Hnum Hread] Hlong Hdesc Hj Hclash Hok.
  unfold vex_add_arg, run, vex_add_arg_body.
  destruct (isalpha (Desc.short_name desc)) eqn:Halpha.
  - pose proof (isalpha_not_NUL _ Halpha) as Hnul.
    cbn [negb]. unfold bind at 1. cbn [ret]. unfold bind at 1.
    rewrite Hnul. cbn [andb ret]. unfold bind at 1, get_ctx. unfold bind at 1.
    rewrite Hnum, Nat2Z.id.
    rewrite (find_duplicate_hit desc m descs 0); eauto.
  - cbn [negb]. unfold bind. rewrite set_status_message by auto. eauto.
Qed.

(** * The token buffer *)

Lemma same_but_tokens_refl c : same_but_tokens c c.
Proof. exists (Ctx.arg_token c), (Ctx.num_arg_token c), (Ctx.capacity_arg_token c). by destruct c. Qed.

Lemma same_but_tokens_set c c' b num cap :
  same_but_tokens c c' -> same_but_tokens c (Ctx.set_tokens b num cap c').
Proof. intros (b' & n' & cap' & ->). by exists b, num, cap. Qed.

Lemma same_but_tokens_pushed c c' token :
  same_but_tokens c c' -> same_but_tokens c (pushed token c').
Proof.
  intros H. unfold pushed. destruct (_ >=? _); apply same_but_tokens_set; [|done].
  by apply same_but_tokens_set.
Qed.

Lemma same_but_tokens_stored c c' i token :
  same_but_tokens c c' -> same_but_tokens c (stored i token c').
Proof. apply same_but_tokens_set. Qed.

Lemma same_but_tokens_status c c' :
  same_but_tokens c c' ->
  Ctx.status c' = Ctx.status c /\ Ctx.status_msg c' = Ctx.status_msg c.
Proof. by intros (b & n & cap & ->). Qed.

Lemma same_but_tokens_descs c c' :
  same_but_tokens c c' ->
  Ctx.arg_desc c' = Ctx.arg_desc c /\ Ctx.num_arg_desc c' = Ctx.num_arg_desc c.
Proof. by intros (b & n & cap & ->). Qed.

Lemma grown_ok c :
  token_buffer_ok c -> Ctx.num_arg_token c >= Ctx.capacity_arg_token c ->
  token_buffer_ok (grown c) /\ tokens_of (grown c) = tokens_of c /\
  Ctx.num_arg_token (grown c) < Ctx.capacity_arg_token (grown c).
Proof.
  intros [Hnum Hcap] Hge. pose proof (next_capacity_gt (Ctx.capacity_arg_token c)).
  unfold token_buffer_ok, tokens_of, grown. simpl.
  rewrite length_app, length_take, length_replicate.
  split_and!; [lia|lia|lia| |lia].
  rewrite take_app_le by (rewrite length_take; lia).
  rewrite take_take. f_equal. lia.
Qed.

Lemma pushed_ok token c :
  token_buffer_ok c ->
  token_buffer_ok (pushed token c) /\
  tokens_of (pushed token c) = tokens_of c ++ [token] /\
  Ctx.num_arg_token (pushed token c) = Ctx.num_arg_token c + 1.
Proof.
  intros Hc. unfold pushed.
  set (c1 := if _ >=? _ then grown c else c).
  assert (token_buffer_ok c1 /\ tokens_of c1 = tokens_of c /\
          Ctx.num_arg_token c1 < Ctx.capacity_arg_token c1 /\
          Ctx.num_arg_token c1 = Ctx.num_arg_token c) as ([Hnum Hcap] & Htok & Hlt & Heq).
  { subst c1. destruct (Z.geb_spec (Ctx.num_arg_token c) (Ctx.capacity_arg_token c)).
    - destruct (grown_ok c) as (? & ? & ?); [done|lia|done].
    - split_and!; [done|done|lia|done]. }
  rewrite <- Htok, <- Heq. clearbody c1. clear Htok Heq Hc c.
  unfold token_buffer_ok, tokens_of. simpl. rewrite length_insert.
  split_and!; [lia|lia|done| |done].
  replace (Z.to_nat (Ctx.num_arg_token c1 + 1)) with (S (Z.to_nat (Ctx.num_arg_token c1))) by lia.
  rewrite (take_S_r _ _ token) by (apply list_lookup_insert_eq; lia).
  by rewrite take_insert_ge.
Qed.

Lemma stored_ok i token c :
  token_buffer_ok c ->
  token_buffer_ok (stored i token c) /\
  tokens_of (stored i token c) = <[Z.to_nat i := token]> (tokens_of c) /\
  Ctx.num_arg_token (stored i token c) = Ctx.num_arg_token c.
Proof.
  intros [Hnum Hcap]. unfold token_buffer_ok, tokens_of, stored. simpl.
  rewrite length_insert. split_and!; [lia|lia|done| |done].
  destruct (decide (Z.to_nat i < Z.to_nat (Ctx.num_arg_token c))%nat).
  - by rewrite take_insert_lt.
  - rewrite take_insert_ge by lia. rewrite list_insert_ge; [done|].
    rewrite length_take. lia.
Qed.

(** ** The buffer helpers under an arbitrary allocator *)

Lemma wp_add_value token value (Q : bool * vex_arg_token -> machine -> Prop) E m :
  (forall o, Q (true, token_add token value) (Machine (ctx m) o)) ->
  (forall msg o,
     Q (false, token)
       (Machine (Ctx.set_status VEX_STATUS_BAD_ALLOC msg (ctx m)) o)) ->
  wp (_vec_token_add_value token value) Q E m.
Proof.
  intros Htrue Hfalse. unfold _vec_token_add_value.
  apply wp_bind, wp_alloc. intros [] o; [apply wp_ret, Htrue|].
  apply wp_bind, wp_set_status. intros msg o'. apply wp_ret, Hfalse.
Qed.

Lemma resize_tokens_done fuel m :
  Ctx.num_arg_token (ctx m) < Ctx.capacity_arg_token (ctx m) ->
  resize_tokens fuel m = Next true m.
Proof.
  intros H. destruct fuel; unfold resize_tokens, bind, get_ctx;
    (replace (_ >=? _) with false by lia); done.
Qed.

Lemma wp_resize_tokens fuel (Q : bool -> machine -> Prop) E m :
  token_buffer_ok (ctx m) ->
  (forall o,
     Q true (Machine (if Ctx.num_arg_token (ctx m) >=? Ctx.capacity_arg_token (ctx m)
                      then grown (ctx m) else ctx m) o)) ->
  (forall m', Q false m') ->
  wp (resize_tokens fuel) Q E m.
Proof.
  intros Hok Htrue Hfalse.
  destruct (Z.geb_spec (Ctx.num_arg_token (ctx m)) (Ctx.capacity_arg_token (ctx m)))
    as [Hge|Hlt].
  2:{ unfold wp. rewrite resize_tokens_done by done. destruct m. apply Htrue. }
  destruct fuel as [|fuel]; unfold resize_tokens; fold resize_tokens;
    apply wp_bind, wp_get_ctx; (replace (_ >=? _) with true by lia);
    [apply wp_undef|].
  apply wp_bind, wp_grow.
  - intros o. apply wp_bind, wp_set_status. intros msg o'. apply wp_ret, Hfalse.
  - intros o Hcap. apply wp_bind, wp_modify_ctx.
    destruct (grown_ok (ctx m)) as (_ & _ & Hlt); [done|lia|].
    unfold wp. rewrite resize_tokens_done by exact Hlt. apply Htrue.
Qed.

Lemma resize_tokens_fuel fuel m :
  (Z.to_nat (Ctx.num_arg_token (ctx m) - Ctx.capacity_arg_token (ctx m)) < fuel)%nat ->
  resize_tokens fuel m = resize_tokens (S fuel) m.
Proof.
  revert m. induction fuel as [|fuel IH]; intros m Hfuel; [lia|].
  unfold resize_tokens; fold resize_tokens.
  apply bind_ext_wp, wp_get_ctx.
  destruct (Z.geb_spec (Ctx.num_arg_token (ctx m)) (Ctx.capacity_arg_token (ctx m)))
    as [Hge|Hlt]; [|done].
  apply bind_ext_wp, wp_grow; [done|]. intros o Hcap.
  apply bind_ext_wp, wp_modify_ctx. cbv beta.
  pose proof (next_capacity_gt _ (proj1 Hcap)) as Hnext.
  set (m2 := Machine _ _).
  change (resize_tokens fuel m2 = resize_tokens (S fuel) m2).
  destruct (Z.ltb_spec (Ctx.num_arg_token (ctx m))
              (next_capacity (Ctx.capacity_arg_token (ctx m)))) as [Hlt|Hge'].
  - by rewrite !resize_tokens_done.
  - apply IH. subst m2.
    cbn [ctx Ctx.set_tokens Ctx.num_arg_token Ctx.capacity_arg_token]. lia.
Qed.

Lemma wp_add_token token (Q : bool -> machine -> Prop) E m :
  token_buffer_ok (ctx m) ->
  (forall o, Q true (Machine (pushed token (ctx m)) o)) ->
  (forall m', Q false m') ->
  wp (_vex_add_token token) Q E m.
Proof.
  intros Hok Htrue Hfalse. unfold _vex_add_token.
  apply wp_bind, wp_get_ctx, wp_bind, wp_resize_tokens; [done| |].
  2:{ intros m'. apply wp_ret, Hfalse. }
  intros o. apply wp_bind, wp_get_ctx, wp_bind, wp_deref. intros b Hb.
  apply wp_bind, wp_modify_ctx, wp_ret. cbn [ctx allocs] in *.
  specialize (Htrue o). unfold pushed in Htrue.
  set (c1 := if _ >=? _ then grown (ctx m) else ctx m) in *.
  unfold write in Hb. destruct (Ctx.arg_token c1) eqn:Hbuf; [done| |done].
  destruct (_ && _); [|done]. injection Hb as <-. apply Htrue.
Qed.

Lemma wp_add_value_at i value (Q : unit -> machine -> Prop) E m :
  (forall token o, read (Ctx.arg_token (ctx m)) i = Some token ->
     Q tt (Machine (stored i (token_add token value) (ctx m)) o)) ->
  (forall m', E m') ->
  wp (add_value_at i value) Q E m.
Proof.
  intros Htrue Hfalse. unfold add_value_at.
  apply wp_bind, wp_get_ctx, wp_bind, wp_deref. intros token Htoken.
  apply wp_bind, wp_add_value.
  - intros o. apply wp_bind, wp_get_ctx, wp_bind, wp_deref. intros b Hb.
    apply wp_bind, wp_modify_ctx, wp_ret. cbn [ctx allocs fst snd] in *.
    unfold write in Hb. unfold read in Htoken.
    destruct (Ctx.arg_token (ctx m)) eqn:Hbuf; [done| |done].
    destruct (_ && _); [|done]. injection Hb as <-.
    specialize (Htrue token o). unfold stored in Htrue. rewrite Hbuf in Htrue.
    apply Htrue. exact Htoken.
  - intros msg o. apply wp_bind, wp_get_ctx, wp_bind, wp_deref. intros b Hb.
    apply wp_bind, wp_modify_ctx, wp_return_false, Hfalse.
Qed.

Lemma wp_convert type text (Q : vex_value -> machine -> Prop) E m :
  (forall v o, Q v (Machine (ctx m) o)) -> wp (convert type text) Q E m.
Proof.
  intros H. unfold convert.
  destruct (type =? VEX_ARG_TYPE_INT).
  { apply wp_bind, wp_deref. intros n _. destruct m. apply wp_ret, H. }
  destruct (type =? VEX_ARG_TYPE_DUB).
  { destruct m. apply wp_ret, H. }
  destruct (type =? VEX_ARG_TYPE_STR).
  { apply wp_bind, wp_strdup. intros r o _. apply wp_ret, H. }
  destruct m. apply wp_ret, H.
Qed.

(** * An invariant of the argument loop *)

Lemma read_tokens_of c i token :
  read (Ctx.arg_token c) i = Some token -> 0 <= i < Ctx.num_arg_token c ->
  tokens_of c !! Z.to_nat i = Some token.
Proof.
  unfold read, tokens_of. destruct (Ctx.arg_token c); [done| |done].
  intros H Hi. replace (0 <=? i) with true in H by lia.
  rewrite lookup_take_lt by lia. done.
Qed.

Lemma wp_add_value_local token value (Q : vex_arg_token -> machine -> Prop) E m :
  (forall o, Q (token_add token value) (Machine (ctx m) o)) ->
  (forall m', E m') ->
  wp (add_value_local token value) Q E m.
Proof.
  intros Htrue Hfalse. unfold add_value_local. apply wp_bind, wp_add_value.
  - intros o. apply wp_ret, Htrue.
  - intros msg o. apply wp_return_false, Hfalse.
Qed.

Lemma wp_match_long name n d token ld (Q : vex_arg_token * Z -> machine -> Prop) E m :
  (forall o, Q (token, ld) (Machine (ctx m) o)) ->
  (forall e ln d' o, d <= d' < d + Z.of_nat n ->
     read (Ctx.arg_desc (ctx m)) d' = Some e ->
     Q (token_of_desc e ln, d') (Machine (ctx m) o)) ->
  wp (match_long name n d token ld) Q E m.
Proof.
  intros Hmiss Hhit. revert d Hhit. induction n as [|n IH]; intros d Hhit; simpl.
  { destruct m. apply wp_ret, Hmiss. }
  apply wp_bind, wp_get_ctx, wp_bind, wp_deref. intros e He.
  apply wp_bind, wp_deref. intros long_name _.
  destruct (_ =? 0).
  - apply wp_bind, wp_strdup. intros ln o _. apply wp_ret, Hhit, He. lia.
  - apply IH. intros e' ln d' o Hd'. apply Hhit. lia.
Qed.

Lemma wp_match_short ch n d token ld (Q : vex_arg_token * Z -> machine -> Prop) E m :
  (forall o, Q (token, ld) (Machine (ctx m) o)) ->
  (forall e ln d' o, d <= d' < d + Z.of_nat n ->
     read (Ctx.arg_desc (ctx m)) d' = Some e ->
     Q (token_of_desc e ln, d') (Machine (ctx m) o)) ->
  wp (match_short ch n d token ld) Q E m.
Proof.
  intros Hmiss Hhit. revert d Hhit. induction n as [|n IH]; intros d Hhit; simpl.
  { destruct m. apply wp_ret, Hmiss. }
  apply wp_bind, wp_get_ctx, wp_bind, wp_deref. intros e He.
  destruct (Ascii.eqb _ _).
  - apply wp_bind, wp_strdup. intros ln o _. apply wp_ret, Hhit, He. lia.
  - apply IH. intros e' ln d' o Hd'. apply Hhit. lia.
Qed.

Section parse_invariant.
Variable c0 : vex_ctx.
Variable good : Z -> Prop.
Hypothesis good_registry :
  forall d e, 0 <= d < Ctx.num_arg_desc c0 ->
    read (Ctx.arg_desc c0) d = Some e -> good (Desc.arg_type e).

Local Abbreviation inv := (parse_inv c0 good).
Local Abbreviation top := (fun _ : machine => True).

Lemma inv_oracle l m o : inv l m -> inv l (Machine (ctx m) o).
Proof. done. Qed.

Lemma inv_pushed l m token d o po tc :
  inv l m -> good (Tok.arg_type token) ->
  (0 <= Ctx.num_arg_token (ctx m) -> is_Some (read (Ctx.arg_desc c0) d)) ->
  inv (Locals d (Ctx.num_arg_token (pushed token (ctx m)) - 1) tc po)
      (Machine (pushed token (ctx m)) o).
Proof.
  intros (Hsame & Hbuf & Hloc & Hty & Hfreed) Hgood Hd.
  destruct (pushed_ok token _ Hbuf) as (Hbuf' & Htok & Hnum).
  pose proof (same_but_tokens_pushed _ _ token Hsame) as Hsame'.
  split_and!; cbn [ctx]; [done|done| | |done].
  - intros _. cbn [last_token last_desc]. split; [lia|].
    destruct (same_but_tokens_descs _ _ Hsame') as [-> _]. apply Hd.
    destruct Hbuf. lia.
  - rewrite Htok. apply Forall_app. split; [done|]. by apply Forall_singleton.
Qed.

Lemma inv_pushed_free l m token o po tc :
  inv l m -> good (Tok.arg_type token) ->
  inv (Locals (-1) (-1) tc po) (Machine (pushed token (ctx m)) o).
Proof.
  intros (Hsame & Hbuf & Hloc & Hty & Hfreed) Hgood.
  destruct (pushed_ok token _ Hbuf) as (Hbuf' & Htok & Hnum).
  split_and!; cbn [ctx]; [by apply same_but_tokens_pushed|done| | |done].
  - intros H. cbn [last_token] in H. lia.
  - rewrite Htok. apply Forall_app. split; [done|]. by apply Forall_singleton.
Qed.

Lemma inv_stored l m token value o :
  inv l m -> 0 <= last_token l ->
  read (Ctx.arg_token (ctx m)) (last_token l) = Some token ->
  inv l (Machine (stored (last_token l) (token_add token value) (ctx m)) o).
Proof.
  intros (Hsame & Hbuf & Hloc & Hty & Hfreed) Hlast Hread.
  destruct (stored_ok (last_token l) (token_add token value) _ Hbuf)
    as (Hbuf' & Htok & Hnum).
  destruct (Hloc Hlast) as [Hlt Hdesc].
  split_and!; cbn [ctx]; [by apply same_but_tokens_stored|done| | |done].
  - intros _. by rewrite Hnum.
  - rewrite Htok. apply Forall_insert; [done|]. cbn [token_add Tok.arg_type].
    eapply (Forall_lookup_1 _ _ _ _ Hty), read_tokens_of; [done|lia].
Qed.

Lemma inv_relocate l m d :
  inv l m -> is_Some (read (Ctx.arg_desc (ctx m)) d) ->
  inv (Locals d (last_token l) (token_count l) (parse_options l)) m.
Proof.
  intros (Hsame & Hbuf & Hloc & Hty & Hfreed) Hd.
  split_and!; [done|done| |done|done].
  intros H. split; [apply Hloc, H|done].
Qed.

Lemma inv_good_desc l m d e :
  inv l m ->
  0 <= d < 0 + Z.of_nat (Z.to_nat (Ctx.num_arg_desc (ctx m))) ->
  read (Ctx.arg_desc (ctx m)) d = Some e -> good (Desc.arg_type e).
Proof.
  intros (Hsame & _) Hlt Hd.
  destruct (same_but_tokens_descs _ _ Hsame) as [Heq Hnum].
  rewrite Heq in Hd. rewrite Hnum in Hlt. apply (good_registry d); [lia|done].
Qed.

Lemma wp_parse_long arg l m :
  inv l m -> wp (parse_long arg l) inv top m.
Proof.
  intros Hinv. unfold parse_long.
  apply wp_bind, wp_get_ctx, wp_bind, wp_match_long.
  { intros o. cbn [fst snd Tok.zero Tok.long_name]. apply wp_bind.
    apply wp_bind, wp_set_status. intros msg o'. by apply wp_return_false. }
  intros e ln d' o Hlt Hd. cbn [fst snd]. cbn [ctx] in Hd.
  pose proof (inv_good_desc _ _ _ _ Hinv Hlt Hd) as Hgood.
  apply (inv_oracle _ _ o) in Hinv. destruct m as [c om]. cbn [ctx] in *.
  apply wp_bind. destruct (is_null _).
  { apply wp_bind, wp_set_status. intros msg o'. by apply wp_return_false. }
  apply wp_ret, wp_bind.
  assert (forall token o1, Tok.arg_type token = Desc.arg_type e ->
    wp (check (_vex_add_token token) ;;; c1 <- get_ctx ;;
        ret (Locals d' (Ctx.num_arg_token c1 - 1) (token_count l + 1)
                    (parse_options l)))
      inv top (Machine c o1)) as Hrest.
  { intros token o1 Hty. apply wp_bind, wp_check, wp_add_token.
    - by destruct Hinv as (_ & ? & _).
    - intros o2. apply wp_bind, wp_get_ctx, wp_ret. cbn [ctx].
      apply (inv_pushed l (Machine c o)); [done|by rewrite Hty|].
      intros _. destruct Hinv as (Hsame & _).
      destruct (same_but_tokens_descs _ _ Hsame) as [<- _].
      exact (mk_is_Some _ _ Hd).
    - done. }
  destruct (negb _); [|by apply wp_ret, Hrest].
  destruct (strchr arg "="); [|by apply wp_ret, Hrest].
  apply wp_bind, wp_convert. intros v o1.
  apply wp_add_value_local; [|done]. intros o2. by apply Hrest.
Qed.

Lemma wp_parse_short cluster l m :
  inv l m -> wp (parse_short cluster l) inv top m.
Proof.
  revert l m. induction cluster as [|ch rest IH]; intros l m Hinv.
  { by apply wp_ret. }
  cbn [parse_short]. destruct l as [ld lt tc po].
  apply wp_bind, wp_get_ctx, wp_bind, wp_match_short.
  - intros o. cbn [fst snd Tok.zero Tok.short_name last_token last_desc
                   token_count parse_options].
    rewrite Ascii.eqb_refl.
    assert (wp (unknown_short ch) inv top (Machine (ctx m) o)) as Hunknown.
    { apply wp_bind, wp_set_status. intros msg o'. by apply wp_return_false. }
    destruct (Z.leb_spec 0 lt) as [Hlast|]; [|done].
    apply wp_bind, wp_deref. intros last Hread.
    destruct (_ && _); [|done].
    apply wp_bind, wp_convert. intros v o1.
    apply wp_bind, wp_add_value_at; [|done]. intros token o2 Htoken.
    apply wp_ret. cbn [ctx] in *.
    by apply (inv_stored (Locals ld lt tc po) (Machine (ctx m) o2)).
  - intros e ln d' o Hlt Hd. cbn [fst snd last_token last_desc token_count
                                   parse_options].
    pose proof (inv_good_desc _ _ _ _ Hinv Hlt Hd) as Hgood.
    pose proof (inv_relocate _ _ d' Hinv (mk_is_Some _ _ Hd)) as Hinv'.
    apply (inv_oracle _ _ o) in Hinv'.
    cbn [ctx last_token token_count parse_options] in *.
    destruct (Ascii.eqb _ NUL).
    + assert (wp (unknown_short ch) inv top (Machine (ctx m) o)) as Hunknown.
      { apply wp_bind, wp_set_status. intros msg o'. by apply wp_return_false. }
      destruct (Z.leb_spec 0 lt) as [Hlast|]; [|done].
      apply wp_bind, wp_deref. intros last Hread.
      destruct (_ && _); [|done].
      apply wp_bind, wp_convert. intros v o1.
      apply wp_bind, wp_add_value_at; [|done]. intros token o2 Htoken.
      apply wp_ret. cbn [ctx] in *.
      by apply (inv_stored (Locals d' lt tc po) (Machine (ctx m) o2)).
    + apply wp_bind, wp_check, wp_add_token.
      * by destruct Hinv as (_ & ? & _).
      * intros o2. apply wp_bind, wp_get_ctx. cbn [ctx]. apply IH.
        apply (inv_pushed (Locals d' lt tc po) (Machine (ctx m) o)); [done|done|].
        intros _. destruct Hinv as (Hsame & _).
        destruct (same_but_tokens_descs _ _ Hsame) as [<- _].
      exact (mk_is_Some _ _ Hd).
      * done.
Qed.

Lemma wp_parse_value arg l m :
  inv l m -> good (infer_type VEX_ARG_TYPE_UNKNOWN arg) ->
  wp (parse_value arg l) inv top m.
Proof.
  intros Hinv Hgood. unfold parse_value.
  set (type := infer_type VEX_ARG_TYPE_UNKNOWN arg) in *.
  destruct l as [ld lt tc po].
  cbn [last_token last_desc token_count parse_options].
  assert (forall o, wp
    (value <- convert type arg ;;
     token <- add_value_local (Tok.mk None NUL [] type) value ;;
     check (_vex_add_token token) ;;;
     ret (Locals (-1) (-1) tc po)) inv top (Machine (ctx m) o)) as Hnew.
  { intros o. apply wp_bind, wp_convert. intros v o1.
    apply wp_bind, wp_add_value_local; [|done]. intros o2.
    apply wp_bind, wp_check, wp_add_token.
    - by destruct Hinv as (_ & ? & _).
    - intros o3. apply wp_ret. cbn [ctx].
      by apply (inv_pushed_free (Locals ld lt tc po) (Machine (ctx m) o)).
    - done. }
  apply wp_bind, wp_get_ctx, wp_bind.
  destruct (Z.leb_spec 0 lt) as [Hlast|].
  2:{ apply wp_ret. rewrite andb_false_r. destruct m. apply Hnew. }
  apply wp_bind, wp_deref. intros desc _.
  apply wp_bind, wp_deref. intros token _. apply wp_ret.
  destruct (po && _); [|destruct m; apply Hnew].
  apply wp_bind, wp_deref. intros token' Htoken. apply wp_bind.
  destruct (negb _).
  { apply wp_bind, wp_set_status. intros msg o. by apply wp_return_false. }
  apply wp_ret, wp_bind, wp_convert. intros v o1.
  apply wp_bind, wp_add_value_at; [|done]. intros token'' o2 Htoken''.
  apply wp_ret. cbn [ctx] in *.
  by apply (inv_stored (Locals ld lt tc po) (Machine (ctx m) o2)).
Qed.

Lemma wp_parse_arg arg l m :
  inv l m -> good_arg good arg -> wp (parse_arg arg l) inv top m.
Proof.
  intros Hinv Hgood. destruct arg as [arg|]; [|by apply wp_ret].
  specialize (Hgood arg eq_refl). unfold parse_arg.
  destruct (strcmp arg "--" =? 0).
  { apply wp_ret. destruct Hinv as (? & ? & ? & ? & ?). by split_and!. }
  destruct (_ && _); [|by apply wp_parse_value].
  assert (inv (Locals (-1) (-1) 0 (parse_options l)) m) as Hinv'.
  { destruct Hinv as (? & ? & ? & ? & ?). by split_and!. }
  destruct (Ascii.eqb _ _); [by apply wp_parse_long|by apply wp_parse_short].
Qed.

Lemma wp_parse_loop n rest l m :
  inv l m -> Forall (good_arg good) rest -> wp (parse_loop n rest l) inv top m.
Proof.
  revert rest l m. induction n as [|n IH]; intros rest l m Hinv Hrest.
  { by apply wp_ret. }
  destruct rest as [|arg rest]; [apply wp_undef|].
  apply Forall_cons in Hrest as [Harg Hrest]. cbn [parse_loop].
  apply wp_bind. eapply wp_mono; [by apply wp_parse_arg| |done].
  intros l' m' Hinv'. by apply IH.
Qed.
End parse_invariant.

(** [clear_tokens] followed by the argument loop: the invariant holds
    at the end, relative to the context with its tokens cleared. *)
Lemma wp_clear_then_loop (good : Z -> Prop) n rest m :
  (forall d e, 0 <= d < Ctx.num_arg_desc (ctx m) ->
     read (Ctx.arg_desc (ctx m)) d = Some e -> good (Desc.arg_type e)) ->
  Forall (good_arg good) rest ->
  wp (clear_tokens ;;; parse_loop n rest init_locals)
     (fun l m' =>
        exists b, (Ctx.arg_token (ctx m) = NullPtr -> b = NullPtr) /\
                  parse_inv (Ctx.set_tokens b 0 0 (ctx m)) good l m')
     (fun _ => True) m.
Proof.
  intros Hreg Hargs. unfold clear_tokens.
  assert (forall b, b = NullPtr \/ b = Freed ->
    (Ctx.arg_token (ctx m) = NullPtr -> b = NullPtr) ->
    wp (parse_loop n rest init_locals)
      (fun l m' =>
         exists b, (Ctx.arg_token (ctx m) = NullPtr -> b = NullPtr) /\
                   parse_inv (Ctx.set_tokens b 0 0 (ctx m)) good l m')
      (fun _ => True) (Machine (Ctx.set_tokens b 0 0 (ctx m)) (allocs m))) as Hloop.
  { intros b Hb Hnull.
    eapply wp_mono; [apply (wp_parse_loop (Ctx.set_tokens b 0 0 (ctx m)) good)| |done].
    - exact Hreg.
    - split_and!; cbn [ctx].
      + apply same_but_tokens_refl.
      + by destruct Hb as [-> | ->].
      + intros H. cbn [init_locals last_token] in H. lia.
      + unfold typed, tokens_of. cbn. by rewrite take_0.
      + done.
    - done.
    - intros l' m' Hinv. by exists b. }
  apply wp_bind, wp_bind, wp_get_ctx.
  destruct (Ctx.arg_token (ctx m)); [|apply wp_modify_ctx|apply wp_undef].
  - apply wp_modify_ctx, Hloop; auto.
  - apply Hloop; [auto|done].
Qed.

(** A successful [vex_parse] changes nothing but the token buffer, and the
    tokens it leaves have argument types in [good] when the registered
    descriptors and the inferred types of the arguments have. *)
Lemma wp_vex_parse_body (good : Z -> Prop) argc argv m :
  (forall d e, 0 <= d < Ctx.num_arg_desc (ctx m) ->
     read (Ctx.arg_desc (ctx m)) d = Some e -> good (Desc.arg_type e)) ->
  Forall (good_arg good) (drop 1 argv) ->
  wp (vex_parse_body argc argv)
     (fun _ m' =>
        same_but_tokens (ctx m) (ctx m') /\ token_buffer_ok (ctx m') /\
        typed good (tokens_of (ctx m')))
     (fun _ => True) m.
Proof.
  intros Hreg Hargs. unfold vex_parse_body, wp.
  rewrite <- bind_assoc. fold (wp ((clear_tokens ;;;
    parse_loop (Z.to_nat (argc - 1)) (drop 1 argv) init_locals) ;;; ret tt)
    (fun _ m' => same_but_tokens (ctx m) (ctx m') /\ token_buffer_ok (ctx m') /\
                 typed good (tokens_of (ctx m'))) (fun _ => True) m).
  apply wp_bind.
  eapply wp_mono; [by apply (wp_clear_then_loop good)| |done].
  intros l' m' (b & _ & (b' & n' & cap' & Hsame) & Hbuf & _ & Hty & _).
  apply wp_ret. split_and!; [|done|done]. exists b', n', cap'. by rewrite Hsame.
Qed.

(** * The status after a successful call *)

(** C8 (amended): neither [vex_add_arg] nor [vex_parse] resets the status;
    a call that returns true leaves the status and its message exactly as
    they were before the call. *)
Theorem status_kept_on_success (m m' : machine) :
  (exists desc, vex_add_arg desc m = Returns true m') \/
  (exists argc argv, vex_parse argc argv m = Returns true m') ->
  Ctx.status (ctx m') = Ctx.status (ctx m) /\
  Ctx.status_msg (ctx m') = Ctx.status_msg (ctx m).
Proof.
  intros [[desc Hrun]|(argc & argv & Hrun)].
  - by destruct (wp_run _ _ _ _ _ _ (wp_vex_add_arg_body desc m) Hrun) as (? & ? & _).
  - assert (Forall (good_arg (fun _ => True)) (drop 1 argv)) as Hargs.
    { apply Forall_forall. by intros arg _ s _. }
    destruct (wp_run _ _ _ _ _ _
                (wp_vex_parse_body (fun _ => True) argc argv m (fun _ _ _ _ => I) Hargs)
                Hrun) as (Hsame & _).
    by apply same_but_tokens_status.
Qed.

(** * The argument types of the stored tokens *)

Lemma infer_type_from_value_type s type :
  value_type type -> value_type (infer_type type s).
Proof.
  revert type. induction s as [|c s IH]; intros type Hty; simpl; [done|].
  destruct (isdigit c); simpl.
  - destruct (type =? VEX_ARG_TYPE_DUB); simpl; apply IH; [done|by left].
  - destruct (Ascii.eqb c "."); [apply IH|]; unfold value_type; auto.
Qed.

Lemma infer_type_nonempty s :
  s <> "" -> value_type (infer_type VEX_ARG_TYPE_UNKNOWN s).
Proof.
  destruct s as [|c s]; [done|]. intros _. simpl.
  destruct (isdigit c); simpl.
  - apply infer_type_from_value_type. by left.
  - destruct (Ascii.eqb c ".").
    + apply infer_type_from_value_type. by right; left.
    + by right; right.
Qed.

Lemma token_at_tokens_of c i token :
  token_at c (vex_get_token c i) = Some token ->
  tokens_of c !! Z.to_nat i = Some token.
Proof.
  unfold token_at, vex_get_token.
  destruct (Z.ltb_spec i 0); [done|].
  destruct (Z.geb_spec i (Ctx.num_arg_token c)); [done|]. simpl.
  intros Hread. apply read_tokens_of; [done|lia].
Qed.

(** C4 (amended): when every registered descriptor has one of the four
    argument types Flag, Int, Double, String and no argument is the empty
    string, every token that [vex_get_token] reaches after a successful
    parse has one of these four types. *)
Theorem parsed_tokens_resolved (argc : Z) (argv : list (option string))
    (m m' : machine) :
  (forall d e, 0 <= d < Ctx.num_arg_desc (ctx m) ->
     read (Ctx.arg_desc (ctx m)) d = Some e -> resolved (Desc.arg_type e)) ->
  Forall (fun arg => arg <> Some "") (drop 1 argv) ->
  vex_parse argc argv m = Returns true m' ->
  forall i token,
    token_at (ctx m') (vex_get_token (ctx m') i) = Some token ->
    resolved (Tok.arg_type token).
Proof.
  intros Hreg Hargs Hrun i token Htoken.
  assert (Forall (good_arg resolved) (drop 1 argv)) as Hgood.
  { eapply Forall_impl; [exact Hargs|]. intros arg Harg s ->.
    right. apply infer_type_nonempty. by intros ->. }
  destruct (wp_run _ _ _ _ _ _ (wp_vex_parse_body resolved argc argv m Hreg Hgood) Hrun)
    as (_ & _ & Hty).
  apply token_at_tokens_of in Htoken.
  exact (Forall_lookup_1 _ _ _ _ Hty Htoken).
Qed.

(** * Parsing when no allocation fails *)

Lemma strdup_nofail c s : _vex_strdup s (Machine c []) = Next s (Machine c []).
Proof. by destruct s. Qed.

Lemma add_value_nofail c token value :
  _vec_token_add_value token value (Machine c [])
  = Next (true, token_add token value) (Machine c []).
Proof. done. Qed.

Lemma add_value_local_nofail c token value :
  add_value_local token value (Machine c [])
  = Next (token_add token value) (Machine c []).
Proof. done. Qed.

Lemma convert_nofail c type text :
  convert type text (Machine c [])
  = match convert_value type text with
    | Some v => Next v (Machine c [])
    | None => Undef
    end.
Proof.
  unfold convert, convert_value.
  destruct (type =? VEX_ARG_TYPE_INT).
  { unfold bind. by destruct (atoi text). }
  destruct (type =? VEX_ARG_TYPE_DUB); [done|].
  by destruct (type =? VEX_ARG_TYPE_STR).
Qed.

Lemma token_block c :
  token_buffer_ok c -> 0 < Ctx.capacity_arg_token c ->
  Ctx.arg_token c = Block (cells_of (Ctx.arg_token c)).
Proof.
  intros [_ Hcap] Hpos. destruct (Ctx.arg_token c); simpl in *; [lia|done|lia].
Qed.

Lemma write_next_token c token :
  token_buffer_ok c -> Ctx.num_arg_token c < Ctx.capacity_arg_token c ->
  write (Ctx.arg_token c) (Ctx.num_arg_token c) token
  = Some (Block (<[Z.to_nat (Ctx.num_arg_token c) := token]> (cells_of (Ctx.arg_token c)))).
Proof.
  intros Hok Hlt. rewrite (token_block c Hok) at 1 by (destruct Hok; lia).
  destruct Hok as [Hnum Hcap]. unfold write.
  replace (_ && _) with true; [done|]. symmetry. apply andb_true_iff. lia.
Qed.

Lemma add_token_nofail c token :
  token_buffer_ok c -> Ctx.arg_token c <> Freed ->
  _vex_add_token token (Machine c []) = Next true (Machine (pushed token c) []).
Proof.
  intros Hok Hfreed. unfold _vex_add_token, pushed.
  unfold bind at 1, get_ctx. cbn [ctx]. unfold bind at 1.
  destruct (Z.geb_spec (Ctx.num_arg_token c) (Ctx.capacity_arg_token c)) as [Hge|Hlt].
  - destruct (grown_ok c Hok) as (Hok' & _ & Hlt); [lia|].
    assert (resize_tokens (resize_fuel (Ctx.num_arg_token c) (Ctx.capacity_arg_token c))
              (Machine c []) = Next true (Machine (grown c) [])) as ->.
    { unfold resize_fuel, resize_tokens; fold resize_tokens.
      unfold bind at 1, get_ctx. cbn [ctx].
      replace (_ >=? _) with true by lia. unfold bind at 1.
      assert (grow Tok.zero (Ctx.arg_token c) (Ctx.capacity_arg_token c)
                (next_capacity (Ctx.capacity_arg_token c)) (Machine c [])
              = Next (Some (Ctx.arg_token (grown c))) (Machine c [])) as ->.
      { unfold grow. destruct Hok as [Hnum Hcap].
        assert ((0 <=? Ctx.capacity_arg_token c)
                && (Ctx.capacity_arg_token c
                    <=? Z.of_nat (length (cells_of (Ctx.arg_token c)))) = true) as Hin.
        { apply andb_true_iff. lia. }
        destruct (Ctx.arg_token c) eqn:Hb; [| |done];
          unfold bind, alloc; cbn [allocs ctx]; rewrite Hin;
          unfold grown; cbn [Ctx.arg_token Ctx.set_tokens]; by rewrite Hb. }
      unfold bind at 1, modify_ctx. cbn [ctx allocs].
      by rewrite resize_tokens_done. }
    unfold bind at 1, get_ctx. cbn [ctx]. unfold bind at 1.
    by rewrite write_next_token.
  - rewrite resize_tokens_done by done.
    unfold bind at 1, get_ctx. cbn [ctx]. unfold bind at 1.
    by rewrite write_next_token.
Qed.

Lemma write_read {A} (b : buffer A) i x y :
  read b i = Some y ->
  write b i x = Some (Block (<[Z.to_nat i := x]> (cells_of b))).
Proof.
  destruct b as [|cells|]; [done| |done]. unfold read, write.
  destruct (Z.leb_spec 0 i); [|done]. intros Hread%lookup_lt_Some.
  destruct (Z.ltb_spec i (Z.of_nat (length cells))); [done|lia].
Qed.

Lemma add_value_at_nofail c i token value :
  read (Ctx.arg_token c) i = Some token ->
  add_value_at i value (Machine c [])
  = Next tt (Machine (stored i (token_add token value) c) []).
Proof.
  intros Hread. unfold add_value_at, stored.
  unfold bind at 1, get_ctx. cbn [ctx]. unfold bind at 1. rewrite Hread.
  cbn [deref ret]. unfold bind at 1. rewrite add_value_nofail.
  unfold bind at 1, get_ctx. cbn [ctx fst snd]. unfold bind at 1.
  by rewrite (write_read _ _ _ _ Hread).
Qed.

Lemma read_of_tokens c (i : nat) token :
  tokens_of c !! i = Some token ->
  read (Ctx.arg_token c) (Z.of_nat i) = Some token.
Proof.
  unfold tokens_of, read. intros H.
  destruct (Ctx.arg_token c); simpl in H; [by rewrite take_nil in H| |by rewrite take_nil in H].
  apply lookup_take_Some in H as [H _].
  destruct (Z.leb_spec 0 (Z.of_nat i)); [|lia]. by rewrite Nat2Z.id.
Qed.

(** ** The descriptor scans *)

Lemma match_short_nofail c ch (rest : list vex_arg_desc) d token ld :
  (forall (k : nat) e, rest !! k = Some e ->
     read (Ctx.arg_desc c) (d + Z.of_nat k) = Some e) ->
  match_short ch (length rest) d token ld (Machine c [])
  = Next (scan_result (find_short ch rest d) token ld) (Machine c []).
Proof.
  revert d. induction rest as [|e rest IH]; intros d Hread; [done|].
  pose proof (Hread 0%nat e eq_refl) as H0. rewrite Z.add_0_r in H0.
  cbn [length match_short find_short].
  unfold bind at 1, get_ctx. cbn [ctx]. unfold bind at 1. rewrite H0. cbn [deref ret].
  destruct (Ascii.eqb ch (Desc.short_name e)).
  - unfold bind. by rewrite strdup_nofail.
  - apply IH. intros k e' Hk. rewrite <- (Hread (S k) e' Hk). f_equal. lia.
Qed.


(** ** Strings *)

Lemma char_code_sub_0 x y : char_code x - char_code y = 0 -> x = y.
Proof. intros H. apply char_code_inj. lia. Qed.

Lemma char_code_NUL x : char_code x = 0 -> x = NUL.
Proof. intros H. by apply char_code_inj. Qed.







Lemma strcmp_dashdash arg :
  head_char arg <> "-"%char -> (strcmp arg "--" =? 0) = false.
Proof.
  intros Hhead. apply Z.eqb_neq. destruct arg as [|x arg]; [by vm_compute|].
  cbn [head_char strcmp] in *.
  rewrite (proj2 (Ascii.eqb_neq _ _) Hhead). by intros H%char_code_sub_0.
Qed.

(** ** The steps of the loop *)

Lemma parse_loop_app (a b : list (option string)) l m :
  parse_loop (length (a ++ b)) (a ++ b) l m
  = (l' <- parse_loop (length a) a l ;; parse_loop (length b) b l') m.
Proof.
  revert l m. induction a as [|arg a IH]; intros l m; [done|].
  cbn [app length parse_loop]. rewrite bind_assoc.
  apply bind_ext. intros l' m'. apply IH.
Qed.

Lemma parse_argv_prefix prog args m :
  parse_argv (prog :: args) m = run (parse_prefix args ;;; ret tt) m.
Proof.
  unfold parse_argv, vex_parse, vex_parse_body, parse_prefix, run.
  rewrite bind_assoc. cbn [length map drop].
  replace (Z.to_nat (Z.of_nat (S (length args)) - 1)) with (length args) by lia.
  reflexivity.
Qed.

Lemma parse_prefix_app pre rest m :
  parse_prefix (pre ++ rest) m
  = (l <- parse_prefix pre ;; parse_loop (length rest) (map Some rest) l) m.
Proof.
  unfold parse_prefix. rewrite bind_assoc, map_app.
  rewrite <- (length_map Some (pre ++ rest)), map_app.
  apply bind_ext. intros _ m'.
  rewrite parse_loop_app. by rewrite !length_map.
Qed.

(** * A value of the wrong type after an option *)

(** The step of [parse_value] when the value would join the last token but
    has another type. *)
Lemma parse_value_mismatch arg l m desc token :
  parse_options l = true -> 0 <= last_token l ->
  read (Ctx.arg_desc (ctx m)) (last_desc l) = Some desc ->
  read (Ctx.arg_token (ctx m)) (last_token l) = Some token ->
  Desc.max_count desc < 0 \/ Tok.arg_count token < Desc.max_count desc ->
  Tok.arg_type token <> infer_type VEX_ARG_TYPE_UNKNOWN arg ->
  hd true (allocs m) = true ->
  parse_value arg l m
  = Stop (Machine (Ctx.set_status VEX_STATUS_BAD_VALUE (Some "Unexpected value") (ctx m))
                  (tl (allocs m))).
Proof.
  intros Hopt Hlast Hdesc Htoken Hroom Htype Hok.
  unfold parse_value, bind, get_ctx.
  replace (0 <=? last_token l) with true by lia.
  rewrite Hdesc. cbn [deref ret]. rewrite Htoken. cbn [deref ret]. rewrite Hopt.
  replace ((Desc.max_count desc <? 0) || (Tok.arg_count token <? Desc.max_count desc))
    with true by (symmetry; apply orb_true_iff; lia).
  cbn [andb].
  replace (Tok.arg_type token =? infer_type VEX_ARG_TYPE_UNKNOWN arg)
    with false by lia.
  cbn [negb]. rewrite set_status_message by auto. done.
Qed.

(** C5: in a parse where option parsing is active and the last token has
    room for another value (its descriptor has a negative [max_count], or
    more than the values it holds), a free-standing value whose inferred
    type is not the type of that token makes [vex_parse] return false at
    once with status [VEX_STATUS_BAD_VALUE]; the tokens are those parsed
    before the value, and no token is created for it.  [l] and [m1] are
    the state of the parse after the arguments [pre] before the value; the
    buffer of the message is allocated. *)
Theorem parse_value_type_mismatch (prog : string) (pre : list string)
    (arg : string) (post : list string) (m m1 : machine) (l : locals)
    (desc : vex_arg_desc) (token : vex_arg_token) :
  parse_prefix pre m = Next l m1 ->
  parse_options l = true -> 0 <= last_token l ->
  read (Ctx.arg_desc (ctx m1)) (last_desc l) = Some desc ->
  read (Ctx.arg_token (ctx m1)) (last_token l) = Some token ->
  Desc.max_count desc < 0 \/ Tok.arg_count token < Desc.max_count desc ->
  head_char arg <> "-"%char ->
  Tok.arg_type token <> infer_type VEX_ARG_TYPE_UNKNOWN arg ->
  hd true (allocs m1) = true ->
  parse_argv (prog :: pre ++ arg :: post) m
  = Returns false
      (Machine (Ctx.set_status VEX_STATUS_BAD_VALUE (Some "Unexpected value") (ctx m1))
               (tl (allocs m1))).
Proof.
  intros Hpre Hopt Hlast Hdesc Htoken Hroom Hhead Htype Hok.
  rewrite parse_argv_prefix. unfold run, bind at 1.
  rewrite parse_prefix_app. unfold bind at 1. rewrite Hpre.
  cbn [length map parse_loop]. unfold bind at 1. unfold parse_arg.
  rewrite strcmp_dashdash by done.
  rewrite (proj2 (Ascii.eqb_neq _ _) Hhead), andb_false_r.
  by rewrite (parse_value_mismatch arg l m1 desc token).
Qed.

(** * Short option clusters *)

Lemma registry_same c c' descs :
  same_but_tokens c c' -> registry c descs -> registry c' descs.
Proof.
  intros Hsame [Hnum Hread]. destruct (same_but_tokens_descs _ _ Hsame) as [Hd Hn].
  split; [by rewrite Hn|]. intros i e Hi. rewrite Hd. by apply Hread.
Qed.

Lemma registry_read c descs :
  registry c descs ->
  Z.to_nat (Ctx.num_arg_desc c) = length descs /\
  forall (k : nat) e, descs !! k = Some e ->
    read (Ctx.arg_desc c) (0 + Z.of_nat k) = Some e.
Proof. intros [Hnum Hread]. split; [lia|]. intros k e Hk. by apply Hread. Qed.

Lemma pushed_not_freed token c : Ctx.arg_token (pushed token c) <> Freed.
Proof. done. Qed.

Lemma tokens_of_length c :
  token_buffer_ok c -> length (tokens_of c) = Z.to_nat (Ctx.num_arg_token c).
Proof. intros [Hnum Hcap]. unfold tokens_of. rewrite length_take. lia. Qed.

Lemma read_pushed token c :
  token_buffer_ok c ->
  read (Ctx.arg_token (pushed token c)) (Ctx.num_arg_token c) = Some token.
Proof.
  intros Hok. destruct (pushed_ok token c Hok) as (_ & Htok & _).
  rewrite <- (Z2Nat.id (Ctx.num_arg_token c)) by (destruct Hok; lia).
  apply read_of_tokens. rewrite Htok, <- tokens_of_length by done.
  by rewrite lookup_app_r, Nat.sub_diag.
Qed.

Lemma find_short_hit ch (descs : list vex_arg_desc) d0 :
  (exists (i : nat) e, descs !! i = Some e /\ Desc.short_name e = ch) ->
  exists e d, find_short ch descs d0 = Some (e, d) /\
              Desc.short_name e = ch /\ exists i : nat, descs !! i = Some e.
Proof.
  revert d0. induction descs as [|e0 descs IH]; intros d0 (i & e & Hi & He); [done|].
  cbn [find_short]. destruct (Ascii.eqb_spec ch (Desc.short_name e0)) as [Heq|Hne].
  - exists e0, d0. split_and!; [done|done|by exists 0%nat].
  - destruct i as [|i]; [by injection Hi as ->|].
    destruct (IH (d0 + 1)) as (e' & d & Hfind & Hshort & j & Hj); [by exists i, e|].
    exists e', d. split_and!; [done|done|by exists (S j)].
Qed.

Lemma find_short_miss ch (descs : list vex_arg_desc) d0 :
  (forall (i : nat) e, descs !! i = Some e -> Desc.short_name e <> ch) ->
  find_short ch descs d0 = None.
Proof.
  revert d0. induction descs as [|e0 descs IH]; intros d0 Hmiss; [done|].
  cbn [find_short]. destruct (Ascii.eqb_spec ch (Desc.short_name e0)) as [Heq|Hne].
  - by destruct (Hmiss 0%nat e0 eq_refl).
  - apply IH. intros i e Hi. by apply (Hmiss (S i)).
Qed.

(** A cluster character that names a descriptor: its token is appended. *)
Lemma parse_short_known c descs ch rest l e d :
  registry c descs -> token_buffer_ok c -> Ctx.arg_token c <> Freed ->
  find_short ch descs 0 = Some (e, d) -> Desc.short_name e <> NUL ->
  parse_short (String ch rest) l (Machine c [])
  = parse_short rest
      (Locals d (Ctx.num_arg_token c) (token_count l + 1) (parse_options l))
      (Machine (pushed (token_of_desc e (Desc.long_name e)) c) []).
Proof.
  intros Hreg Hok Hfreed Hfind Hnul.
  destruct (registry_read _ _ Hreg) as [Hnum Hread].
  cbn [parse_short]. unfold bind at 1, get_ctx. cbn [ctx]. unfold bind at 1.
  rewrite Hnum, match_short_nofail by done. rewrite Hfind.
  cbn [scan_result fst snd token_of_desc Tok.short_name last_token last_desc
       token_count parse_options].
  rewrite (proj2 (Ascii.eqb_neq _ _) Hnul).
  unfold bind at 1, check. unfold bind at 1.
  rewrite add_token_nofail by done. cbn [ret]. unfold bind at 1, get_ctx. cbn [ctx].
  destruct (pushed_ok (token_of_desc e (Desc.long_name e)) c Hok) as (_ & _ & ->).
  by replace (Ctx.num_arg_token c + 1 - 1) with (Ctx.num_arg_token c) by lia.
Qed.

(** A cluster character that names no descriptor, after a token of Flag
    type. *)
Lemma parse_short_unknown c descs ch rest l last :
  registry c descs -> find_short ch descs 0 = None ->
  0 <= last_token l ->
  read (Ctx.arg_token c) (last_token l) = Some last ->
  Tok.arg_type last = VEX_ARG_TYPE_FLAG ->
  parse_short (String ch rest) l (Machine c [])
  = Stop (Machine
            (Ctx.set_status VEX_STATUS_UNKNOWN_ARG
               (Some (vsnprintf 256 (fmt_c "Unknown option: -" ch))) c) []).
Proof.
  intros Hreg Hfind Hlast Hread Hflag.
  destruct (registry_read _ _ Hreg) as [Hnum Hreads].
  cbn [parse_short]. unfold bind at 1, get_ctx. cbn [ctx]. unfold bind at 1.
  rewrite Hnum, match_short_nofail by done. rewrite Hfind.
  cbn [scan_result fst snd Tok.zero Tok.short_name last_token last_desc
       token_count parse_options].
  rewrite Ascii.eqb_refl. replace (0 <=? last_token l) with true by lia.
  unfold bind at 1. rewrite Hread. cbn [deref ret]. rewrite Hflag, andb_false_r.
  unfold unknown_short, bind. by rewrite set_status_message by auto.
Qed.

Lemma clear_tokens_null m :
  Ctx.arg_token (ctx m) = NullPtr ->
  clear_tokens m = Next tt (Machine (cleared (ctx m)) (allocs m)).
Proof. intros H. unfold clear_tokens, bind, get_ctx. by rewrite H. Qed.

Lemma cleared_ok c :
  token_buffer_ok (cleared c) /\ Ctx.arg_token (cleared c) <> Freed /\
  same_but_tokens c (cleared c) /\ tokens_of (cleared c) = [].
Proof. split_and!; try done. by exists NullPtr, 0, 0. Qed.

(** C6: with [-a] and [-b] registered as Flags and no descriptor named
    [-c], parsing the single cluster [-abc] returns false with status
    [VEX_STATUS_UNKNOWN_ARG]: the last token, that of [-b], is a Flag and
    takes no attached value.  The context has not been parsed before and no
    allocation fails. *)
Theorem cluster_unknown_after_flags (prog : string) (m : machine)
    (descs : list vex_arg_desc) :
  registry (ctx m) descs -> Ctx.arg_token (ctx m) = NullPtr -> allocs m = [] ->
  registered_flag descs "a" -> registered_flag descs "b" ->
  unregistered_short descs "c" ->
  exists m', parse_argv [prog; "-abc"] m = Returns false m' /\
             Ctx.status (ctx m') = VEX_STATUS_UNKNOWN_ARG.
Proof.
  intros Hreg Hnull Hallocs [Ha Ha_flag] [Hb Hb_flag] Hc.
  destruct (find_short_hit "a" descs 0) as (ea & da & Hfa & Hsa & ia & Hia).
  { apply Exists_exists in Ha as (e & [i Hi]%list_elem_of_lookup & He). by exists i, e. }
  destruct (find_short_hit "b" descs 0) as (eb & db & Hfb & Hsb & ib & Hib).
  { apply Exists_exists in Hb as (e & [i Hi]%list_elem_of_lookup & He). by exists i, e. }
  assert (find_short "c" descs 0 = None) as Hfc.
  { apply find_short_miss. intros i e Hi. exact (Forall_lookup_1 _ _ _ _ Hc Hi). }
  destruct (cleared_ok (ctx m)) as (Hok0 & Hfreed0 & Hsame0 & _).
  pose proof (registry_same _ _ _ Hsame0 Hreg) as Hreg0.
  set (ta := token_of_desc ea (Desc.long_name ea)).
  set (tb := token_of_desc eb (Desc.long_name eb)).
  set (c1 := pushed ta (cleared (ctx m))).
  destruct (pushed_ok ta _ Hok0) as (Hok1 & _ & Hnum1).
  pose proof (registry_same _ _ _ (same_but_tokens_pushed _ _ ta Hsame0) Hreg) as Hreg1.
  fold c1 in Hok1, Hnum1, Hreg1.
  destruct (pushed_ok tb _ Hok1) as (Hok2 & _ & Hnum2).
  assert (same_but_tokens (ctx m) (pushed tb c1)) as Hsame2.
  { by apply same_but_tokens_pushed, same_but_tokens_pushed. }
  pose proof (registry_same _ _ _ Hsame2 Hreg) as Hreg2.
  eexists. split.
  - rewrite parse_argv_prefix. unfold run, parse_prefix, bind at 1.
    unfold bind at 1. rewrite clear_tokens_null by done. rewrite Hallocs.
    cbn [length map parse_loop]. unfold bind at 1.
    change (parse_arg (Some "-abc") init_locals)
      with (parse_short "abc" (Locals (-1) (-1) 0 true)).
    rewrite (parse_short_known _ descs "a" _ _ ea da) by (done || by rewrite Hsa).
    fold ta c1.
    rewrite (parse_short_known _ descs "b" _ _ eb db)
      by (done || by rewrite Hsb || apply pushed_not_freed).
    fold tb.
    rewrite (parse_short_unknown _ descs "c" _ _ tb); [reflexivity|done|done| | |].
    + cbn [last_token]. destruct Hok1. lia.
    + cbn [last_token]. by apply read_pushed.
    + cbn [tb token_of_desc Tok.arg_type].
      exact (Forall_lookup_1 _ _ _ _ Hb_flag Hib Hsb).
  - done.
Qed.

(** * Long options *)







(** ** The long option found by the text supplied *)





(** ** Integer values *)






(** * After the marker [--] *)

Lemma strcmp_eq_0 a b : c_string a -> c_string b -> strcmp a b = 0 -> a = b.
Proof.
  unfold c_string. revert b. induction a as [|x a IH]; intros [|y b]; cbn [char_in strcmp].
  - done.
  - intros _ [Hy _]%orb_false_elim H. assert (y = NUL) as -> by (apply char_code_NUL; lia).
    done.
  - intros [Hx _]%orb_false_elim _ H%char_code_NUL. by subst x.
  - intros [_ Ha]%orb_false_elim [_ Hb]%orb_false_elim.
    destruct (Ascii.eqb_spec x y) as [->|Hne].
    + intros H. f_equal. by apply IH.
    + by intros H%char_code_sub_0.
Qed.

Lemma strcmp_marker arg :
  c_string arg -> (strcmp arg "--" =? 0) = String.eqb arg "--".
Proof.
  intros Hc. destruct (String.eqb_spec arg "--") as [->|Hne]; [done|].
  apply Z.eqb_neq. intros H. by apply Hne, strcmp_eq_0.
Qed.

Lemma read_in_range c i :
  token_buffer_ok c -> 0 <= i < Ctx.num_arg_token c ->
  is_Some (read (Ctx.arg_token c) i).
Proof.
  intros Hok Hi.
  destruct (lookup_lt_is_Some_2 (tokens_of c) (Z.to_nat i)) as [token Htoken].
  { rewrite tokens_of_length by done. lia. }
  exists token. rewrite <- (Z2Nat.id i) by lia. by apply read_of_tokens.
Qed.

(** A value that starts a token of its own. *)
Lemma parse_value_free c l arg token :
  parse_options l = false ->
  token_buffer_ok c -> Ctx.arg_token c <> Freed -> locals_ok c l ->
  free_token arg = Some token ->
  parse_value arg l (Machine c [])
  = Next (Locals (-1) (-1) (token_count l) false) (Machine (pushed token c) []).
Proof.
  intros Hopt Hok Hfreed Hloc Hfree. unfold free_token in Hfree.
  assert (exists g,
    (if 0 <=? last_token l
     then desc <- deref (read (Ctx.arg_desc c) (last_desc l)) ;;
          tk <- deref (read (Ctx.arg_token c) (last_token l)) ;;
          ret ((Desc.max_count desc <? 0) || (Tok.arg_count tk <? Desc.max_count desc))
     else ret false) (Machine c []) = Next g (Machine c [])) as [g Hg].
  { destruct (Z.leb_spec 0 (last_token l)) as [Hlast|]; [|by eexists].
    destruct (Hloc Hlast) as [Hlt [desc Hdesc]].
    destruct (read_in_range c (last_token l) Hok) as [tk Htk]; [lia|].
    unfold bind. rewrite Hdesc, Htk. by eexists. }
  unfold parse_value. unfold bind at 1, get_ctx. cbn [ctx]. unfold bind at 1.
  rewrite Hg, Hopt. cbn [andb]. unfold bind at 1. rewrite convert_nofail.
  destruct (convert_value _ _) as [v|]; [|done]. injection Hfree as <-.
  unfold bind at 1. rewrite add_value_local_nofail.
  unfold bind, check, bind. by rewrite add_token_nofail.
Qed.

Lemma parse_loop_after_marker post : forall l c tokens,
  parse_options l = false ->
  token_buffer_ok c -> Ctx.arg_token c <> Freed -> locals_ok c l ->
  Forall c_string post -> values_after_marker post = Some tokens ->
  exists l' c',
    parse_loop (length post) (map Some post) l (Machine c []) = Next l' (Machine c' []) /\
    tokens_of c' = tokens_of c ++ tokens /\ same_but_tokens c c'.
Proof.
  induction post as [|arg post IH]; intros l c tokens Hopt Hok Hfreed Hloc Hcs Hvals.
  { injection Hvals as <-. exists l, c. rewrite app_nil_r.
    split_and!; [done|done|apply same_but_tokens_refl]. }
  apply Forall_cons in Hcs as [Harg Hcs].
  cbn [length map parse_loop values_after_marker] in *. unfold bind at 1, parse_arg.
  rewrite strcmp_marker by done. destruct (String.eqb arg "--").
  - cbn [ret]. apply IH; done.
  - rewrite Hopt. cbn [andb].
    destruct (free_token arg) as [token|] eqn:Hfree; [|done].
    destruct (values_after_marker post) as [rest|] eqn:Hrest; [|done].
    injection Hvals as <-.
    rewrite (parse_value_free c l arg token) by done.
    destruct (pushed_ok token c Hok) as (Hok' & Htok' & _).
    destruct (IH (Locals (-1) (-1) (token_count l) false) (pushed token c) rest)
      as (l' & c' & Hrun & Htok & Hsame); try done.
    exists l', c'. split_and!; [done| |].
    + by rewrite Htok, Htok', <- app_assoc.
    + destruct Hsame as (b & n & cap & ->).
      apply same_but_tokens_set, same_but_tokens_pushed, same_but_tokens_refl.
Qed.

(** C3 (amended): once a [--] argument is met, no later argument is read
    as an option and none makes the parse fail with an unknown option:
    each later argument other than a further [--] is stored as a
    free-standing value token typed by its content; a further [--] is
    skipped and leaves no token.  [m1] is the machine after a successful
    parse of the arguments [pre] before the [--]; the context has not been
    parsed before, and from [m1] on no allocation fails. *)
Theorem values_after_double_dash (prog : string) (pre post : list string)
    (m m1 : machine) (tokens : list vex_arg_token) :
  Ctx.arg_token (ctx m) = NullPtr ->
  parse_argv (prog :: pre) m = Returns true m1 -> allocs m1 = [] ->
  Forall c_string post -> values_after_marker post = Some tokens ->
  exists m2,
    parse_argv (prog :: pre ++ "--" :: post) m = Returns true m2 /\
    tokens_of (ctx m2) = tokens_of (ctx m1) ++ tokens /\
    Ctx.status (ctx m2) = Ctx.status (ctx m1).
Proof.
  intros Hnull Hrun Hallocs Hcs Hvals.
  rewrite parse_argv_prefix in Hrun. unfold run, bind in Hrun.
  destruct (parse_prefix pre m) as [l1 m1'| |] eqn:Hpre; [|done|done].
  injection Hrun as <-.
  assert (Forall (good_arg (fun _ => True)) (map Some pre)) as Hargs.
  { apply Forall_forall. by intros arg _ s _. }
  pose proof (wp_clear_then_loop (fun _ => True) (length pre) (map Some pre) m
                (fun _ _ _ _ => I) Hargs) as Hwp.
  unfold wp in Hwp. fold (parse_prefix pre) in Hwp. rewrite Hpre in Hwp.
  destruct Hwp as (b & Hb & _ & Hok & Hloc & _ & Hfreed). rewrite (Hb Hnull) in Hfreed.
  destruct m1' as [c1 o1]. cbn [ctx allocs] in *. subst o1.
  destruct (parse_loop_after_marker post
              (Locals (last_desc l1) (last_token l1) (token_count l1) false) c1 tokens)
    as (l2 & c2 & Hloop & Htok & Hsame); try done.
  { by apply Hfreed. }
  exists (Machine c2 []). split_and!; [|done|by apply same_but_tokens_status].
  rewrite parse_argv_prefix. unfold run, bind at 1.
  rewrite parse_prefix_app. unfold bind at 1. rewrite Hpre.
  cbn [length map parse_loop]. unfold bind at 1.
  change (parse_arg (Some "--") l1 (Machine c1 []))
    with (Next (Locals (last_desc l1) (last_token l1) (token_count l1) false)
               (Machine c1 [])).
  cbv beta iota. unfold bind. by rewrite Hloop.
Qed.

(** * How the worked contexts are built *)

Lemma vex_init_fresh : vex_init demo_info [] = Some fresh.
Proof. reflexivity. Qed.

Lemma with_count_built : vex_add_arg count_desc fresh = Returns true with_count.
Proof. reflexivity. Qed.

Lemma with_he_built : vex_add_arg he_desc fresh = Returns true with_he.
Proof. reflexivity. Qed.

Lemma with_ab_built :
  exists m, vex_add_arg a_desc fresh = Returns true m /\
            vex_add_arg b_desc m = Returns true with_ab.
Proof. eexists. split; reflexivity. Qed.

Lemma registry_of_block c cells descs :
  Ctx.arg_desc c = Block cells ->
  Ctx.num_arg_desc c = Z.of_nat (length descs) ->
  take (length descs) cells = descs ->
  registry c descs.
Proof.
  intros Hblock Hnum Htake. split; [done|]. intros i e Hi.
  rewrite Hblock. unfold read. destruct (Z.leb_spec 0 (Z.of_nat i)); [|lia].
  rewrite Nat2Z.id. rewrite <- Htake in Hi. by apply lookup_take_Some in Hi as [? _].
Qed.

(** * Instances of the theorems *)



Lemma values_after_double_dash_witness :
  exists m2,
    parse_argv ["prog"; "-h"; "--"; "-x"; "--"; "7"] fresh = Returns true m2 /\
    tokens_of (ctx m2)
    = tokens_of (ctx after_h)
      ++ [Tok.mk None NUL [str_arg (Some "-x")] VEX_ARG_TYPE_STR;
          Tok.mk None NUL [int_arg 7] VEX_ARG_TYPE_INT] /\
    Ctx.status (ctx m2) = Ctx.status (ctx after_h).
Proof.
  apply (values_after_double_dash "prog" ["-h"] ["-x"; "--"; "7"] fresh after_h).
  - reflexivity.
  - reflexivity.
  - reflexivity.
  - repeat constructor.
  - reflexivity.
Defined.

Lemma parsed_tokens_resolved_witness :
  token_at (ctx after_h_12) (vex_get_token (ctx after_h_12) 1)
  = Some (Tok.mk None NUL [int_arg 12] VEX_ARG_TYPE_INT) /\
  resolved (Tok.arg_type (Tok.mk None NUL [int_arg 12] VEX_ARG_TYPE_INT)).
Proof.
  split; [reflexivity|].
  apply (parsed_tokens_resolved 3 [Some "prog"; Some "-h"; Some "12"] fresh after_h_12)
    with (i := 1).
  - intros d e Hd. assert (d = 0 \/ d = 1) as [-> | ->] by (cbn in Hd; lia);
      intros [= <-]; by left.
  - repeat constructor; discriminate.
  - reflexivity.
  - reflexivity.
Defined.

Lemma parse_value_type_mismatch_witness :
  exists m1,
    parse_prefix ["-c"] with_count = Next (Locals 2 0 1 true) m1 /\
    parse_argv ["prog"; "-c"; "x"] with_count
    = Returns false
        (Machine (Ctx.set_status VEX_STATUS_BAD_VALUE (Some "Unexpected value") (ctx m1))
                 (tl (allocs m1))).
Proof.
  eexists. split; [reflexivity|].
  eapply (parse_value_type_mismatch "prog" ["-c"] "x" [] with_count).
  - reflexivity.
  - reflexivity.
  - by vm_compute.
  - reflexivity.
  - reflexivity.
  - right. reflexivity.
  - discriminate.
  - discriminate.
  - reflexivity.
Defined.

Lemma cluster_unknown_after_flags_witness :
  exists m', parse_argv ["prog"; "-abc"] with_ab = Returns false m' /\
             Ctx.status (ctx m') = VEX_STATUS_UNKNOWN_ARG.
Proof.
  apply (cluster_unknown_after_flags "prog" with_ab
           [help_desc; version_desc; a_desc; b_desc]).
  - by apply (registry_of_block _ [help_desc; version_desc; a_desc; b_desc]).
  - reflexivity.
  - reflexivity.
  - split; [do 2 apply Exists_cons_tl; by apply Exists_cons_hd|].
    repeat constructor.
  - split; [do 3 apply Exists_cons_tl; by apply Exists_cons_hd|].
    repeat constructor.
  - repeat constructor; discriminate.
Defined.

Lemma vex_add_arg_duplicate_witness :
  exists msg,
    vex_add_arg dup_desc fresh
    = Returns false
        (Machine (Ctx.set_status VEX_STATUS_BAD_VALUE (Some msg) (ctx fresh))
                 (tl (allocs fresh))).
Proof.
  apply (vex_add_arg_duplicate dup_desc fresh [help_desc; version_desc] 0 help_desc).
  - by apply (registry_of_block _ [help_desc; version_desc]).
  - repeat constructor; by eexists.
  - by eexists.
  - reflexivity.
  - by left.
  - reflexivity.
Defined.

Lemma status_kept_on_success_witness :
  Ctx.status (ctx after_h) = Ctx.status (ctx fresh) /\
  Ctx.status_msg (ctx after_h) = Ctx.status_msg (ctx fresh).
Proof.
  apply (status_kept_on_success fresh after_h).
  right. exists 2, [Some "prog"; Some "-h"]. reflexivity.
Defined.

Lemma vex_add_arg_false_keeps_registry_witness :
  Ctx.num_arg_desc (ctx after_dup) = Ctx.num_arg_desc (ctx fresh) /\
  read (Ctx.arg_desc (ctx after_dup)) 0 = read (Ctx.arg_desc (ctx fresh)) 0 /\
  read (Ctx.arg_desc (ctx after_dup)) 1 = read (Ctx.arg_desc (ctx fresh)) 1.
Proof.
  destruct (vex_add_arg_false_keeps_registry dup_desc fresh after_dup) as [Hnum Hread].
  - by vm_compute.
  - reflexivity.
  - split_and!; [exact Hnum|apply Hread|apply Hread]; by vm_compute.
Defined.

(** * Where the specification and the header part *)



(** C3: a [--] that follows a [--] leaves no token. *)
Lemma second_marker_skipped :
  exists m',
    parse_argv ["prog"; "--"; "--"] fresh = Returns true m' /\
    vex_token_count (ctx m') = 0.
Proof. eexists. split; reflexivity. Qed.

(** C4: the empty argument is stored as a token of type
    [VEX_ARG_TYPE_UNKNOWN]. *)
Lemma empty_argument_unknown :
  exists m',
    parse_argv ["prog"; ""] fresh = Returns true m' /\
    token_at (ctx m') (vex_get_token (ctx m') 0)
    = Some (Tok.mk None NUL [zero_value] VEX_ARG_TYPE_UNKNOWN) /\
    ~ resolved VEX_ARG_TYPE_UNKNOWN.
Proof.
  eexists. split_and!; [reflexivity|reflexivity|].
  by intros [H|[H|[H|H]]].
Qed.

(** C7: a descriptor without long name that reuses the short name of the
    second stored descriptor is not rejected as a duplicate.  The scan
    reaches the first stored descriptor, whose short name differs, and
    hands the null long name to [strcmp] together with [help]: the
    behaviour of the call is undefined, where the header itself expects
    descriptors without long name. *)
Theorem duplicate_short_name_null_long_name :
  vex_init demo_info [] = Some fresh /\
  read (Ctx.arg_desc (ctx fresh)) 0 = Some help_desc /\
  read (Ctx.arg_desc (ctx fresh)) 1 = Some version_desc /\
  Desc.short_name v_only_desc = Desc.short_name version_desc /\
  Desc.short_name v_only_desc <> Desc.short_name help_desc /\
  Desc.long_name v_only_desc = None /\
  vex_add_arg v_only_desc fresh = Undefined.
Proof. split_and!; try reflexivity. discriminate. Qed.

(** C8: after a failed registration, a successful parse leaves the status
    at [VEX_STATUS_BAD_VALUE]. *)
Lemma status_stale_after_success :
  vex_add_arg dup_desc fresh = Returns false after_dup /\
  Ctx.status (ctx after_dup) = VEX_STATUS_BAD_VALUE /\
  exists m',
    parse_argv ["prog"] after_dup = Returns true m' /\
    Ctx.status (ctx m') = VEX_STATUS_BAD_VALUE /\
    Ctx.status (ctx m') <> VEX_STATUS_OK.
Proof. split_and!; try reflexivity. eexists. split_and!; [reflexivity|reflexivity|done]. Qed.

(** * The type of a free-standing value *)

Lemma infer_type_DUB s :
  infer_type VEX_ARG_TYPE_DUB s
  = if digits_or_dots s then VEX_ARG_TYPE_DUB else VEX_ARG_TYPE_STR.
Proof.
  induction s as [|c s IH]; [done|]. cbn [infer_type digits_or_dots].
  destruct (isdigit c) eqn:Hd; cbn [negb orb andb].
  - change (VEX_ARG_TYPE_DUB =? VEX_ARG_TYPE_DUB) with true. cbn [negb]. exact IH.
  - destruct (Ascii.eqb c "."); cbn [andb]; [exact IH|done].
Qed.

Lemma infer_type_INT s :
  infer_type VEX_ARG_TYPE_INT s
  = if negb (digits_or_dots s) then VEX_ARG_TYPE_STR
    else if char_in "." s then VEX_ARG_TYPE_DUB else VEX_ARG_TYPE_INT.
Proof.
  induction s as [|c s IH]; [done|]. cbn [infer_type digits_or_dots char_in].
  destruct (isdigit c) eqn:Hd; cbn [negb orb andb].
  - change (VEX_ARG_TYPE_INT =? VEX_ARG_TYPE_DUB) with false. cbn [negb].
    rewrite IH. destruct (Ascii.eqb_spec "." c) as [<-|_]; [done|done].
  - rewrite (Ascii.eqb_sym "." c). destruct (Ascii.eqb c "."); cbn [andb orb negb]; [|done].
    rewrite infer_type_DUB. by destruct (digits_or_dots s).
Qed.

(** X1: the type [vex_parse] infers for a free-standing value is read
    off its characters: String when some character is neither a digit nor a
    dot, otherwise Double when there is a dot, otherwise Int, and Unknown
    for the empty text.  So [1.2.3] and a single dot count as Doubles. *)
Theorem infer_type_classify (s : string) :
  infer_type VEX_ARG_TYPE_UNKNOWN s = classify s.
Proof.
  destruct s as [|c s]; [done|]. unfold classify.
  cbn [infer_type digits_or_dots char_in String.eqb].
  destruct (isdigit c) eqn:Hd; cbn [negb orb andb].
  - change (VEX_ARG_TYPE_UNKNOWN =? VEX_ARG_TYPE_DUB) with false. cbn [negb].
    rewrite infer_type_INT. destruct (Ascii.eqb_spec "." c) as [<-|_]; [done|done].
  - rewrite (Ascii.eqb_sym "." c). destruct (Ascii.eqb c "."); cbn [andb orb negb]; [|done].
    rewrite infer_type_DUB. by destruct (digits_or_dots s).
Qed.

(** * What the entry points leave alone *)

Lemma wp_set_status_text st fmt (Q : unit -> machine -> Prop) E m :
  (forall o, Q tt (Machine (Ctx.set_status st (status_text st fmt) (ctx m)) o)) ->
  wp (_vex_set_status st fmt) Q E m.
Proof.
  intros H. unfold _vex_set_status, status_text in *.
  destruct fmt as [text|]; [destruct (negb _ && negb _)|].
  - apply wp_bind, wp_alloc. intros [] o; [|apply wp_undef].
    apply wp_modify_ctx, H.
  - apply wp_modify_ctx, H.
  - apply wp_modify_ctx, H.
Qed.

Section preserved.
Variable R : vex_ctx -> vex_ctx -> Prop.
Hypothesis R_refl : forall c, R c c.
Hypothesis R_trans : forall c1 c2 c3, R c1 c2 -> R c2 c3 -> R c1 c3.
Hypothesis R_status : forall c st fmt,
  status_call st fmt -> R c (Ctx.set_status st (status_text st fmt) c).

Lemma preserves_ret {A} (a : A) : preserves R (ret a).
Proof. intros m. apply wp_ret, R_refl. Qed.

Lemma preserves_bind {A B} (c : M A) (k : A -> M B) :
  preserves R c -> (forall a, preserves R (k a)) -> preserves R (bind c k).
Proof.
  intros Hc Hk m. apply wp_bind. eapply wp_mono; [apply Hc| |done].
  intros a m' HR. eapply wp_mono; [apply Hk| |]; cbv beta.
  - intros _ m2 H2. exact (R_trans _ _ _ HR H2).
  - intros m2 H2. exact (R_trans _ _ _ HR H2).
Qed.

Lemma preserves_return_false {A} : preserves R (@return_false A).
Proof. intros m. apply wp_return_false, R_refl. Qed.

Lemma preserves_undef {A} : preserves R (@undef A).
Proof. intros m. apply wp_undef. Qed.

Lemma preserves_get_ctx : preserves R get_ctx.
Proof. intros m. apply wp_get_ctx, R_refl. Qed.

Lemma preserves_deref {A} (o : option A) : preserves R (deref o).
Proof. destruct o; [apply preserves_ret|apply preserves_undef]. Qed.

Lemma preserves_alloc : preserves R alloc.
Proof. intros m. apply wp_alloc. intros ok o. apply R_refl. Qed.

Lemma preserves_modify f : (forall c, R c (f c)) -> preserves R (modify_ctx f).
Proof. intros H m. apply wp_modify_ctx, H. Qed.

Lemma preserves_check (c : M bool) : preserves R c -> preserves R (check c).
Proof.
  intros H. apply preserves_bind; [done|].
  intros []; [apply preserves_ret|apply preserves_return_false].
Qed.

Lemma preserves_ignore_result (c : M unit) :
  preserves R c -> preserves R (ignore_result c).
Proof. intros H m. apply wp_ignore_result. apply H. Qed.

Lemma preserves_strdup str : preserves R (_vex_strdup str).
Proof.
  destruct str; [|apply preserves_ret].
  apply preserves_bind; [apply preserves_alloc|]. intros ok. apply preserves_ret.
Qed.

Lemma preserves_set_status st fmt :
  status_call st fmt -> preserves R (_vex_set_status st fmt).
Proof.
  intros Hcall. pose proof (fun c => R_status c st fmt Hcall) as H.
  unfold _vex_set_status, status_text in *.
  destruct fmt as [text|]; [destruct (negb _ && negb _)|].
  - apply preserves_bind; [apply preserves_alloc|].
    intros []; [by apply preserves_modify|apply preserves_undef].
  - by apply preserves_modify.
  - by apply preserves_modify.
Qed.

Lemma preserves_bad_alloc : preserves R (_vex_set_status VEX_STATUS_BAD_ALLOC None).
Proof. apply preserves_set_status. by left. Qed.

Lemma preserves_bad_value text :
  preserves R (_vex_set_status VEX_STATUS_BAD_VALUE (Some text)).
Proof. apply preserves_set_status. right. split; [by left|by eexists]. Qed.

Lemma preserves_unknown_arg text :
  preserves R (_vex_set_status VEX_STATUS_UNKNOWN_ARG (Some text)).
Proof. apply preserves_set_status. right. split; [by right|by eexists]. Qed.

Lemma preserves_grow {A} (zero : A) b cap new_cap :
  preserves R (grow zero b cap new_cap).
Proof.
  intros m. apply wp_grow; intros; apply R_refl.
Qed.

Lemma preserves_add_value token value : preserves R (_vec_token_add_value token value).
Proof.
  apply preserves_bind; [apply preserves_alloc|].
  intros []; [apply preserves_ret|].
  apply preserves_bind; [apply preserves_bad_alloc|]. intros _. apply preserves_ret.
Qed.

Lemma preserves_convert type text : preserves R (convert type text).
Proof.
  unfold convert. repeat case_match.
  - apply preserves_bind; [apply preserves_deref|]. intros n. apply preserves_ret.
  - apply preserves_ret.
  - apply preserves_bind; [apply preserves_strdup|]. intros s. apply preserves_ret.
  - apply preserves_ret.
Qed.

Lemma preserves_add_value_local token value :
  preserves R (add_value_local token value).
Proof.
  apply preserves_bind; [apply preserves_add_value|].
  intros [[] tk]; [apply preserves_ret|apply preserves_return_false].
Qed.

Section tokens.
Hypothesis R_add_token : forall token, preserves R (_vex_add_token token).
Hypothesis R_add_value_at : forall i value, preserves R (add_value_at i value).
Hypothesis R_clear_tokens : preserves R clear_tokens.

Lemma preserves_match_long name n d token ld :
  preserves R (match_long name n d token ld).
Proof.
  revert d. induction n as [|n IH]; intros d; cbn [match_long]; [apply preserves_ret|].
  apply preserves_bind; [apply preserves_get_ctx|]. intros c.
  apply preserves_bind; [apply preserves_deref|]. intros entry.
  apply preserves_bind; [apply preserves_deref|]. intros long_name.
  destruct (_ =? 0); [|apply IH].
  apply preserves_bind; [apply preserves_strdup|]. intros dup. apply preserves_ret.
Qed.

Lemma preserves_match_short ch n d token ld :
  preserves R (match_short ch n d token ld).
Proof.
  revert d. induction n as [|n IH]; intros d; cbn [match_short]; [apply preserves_ret|].
  apply preserves_bind; [apply preserves_get_ctx|]. intros c.
  apply preserves_bind; [apply preserves_deref|]. intros entry.
  destruct (Ascii.eqb _ _); [|apply IH].
  apply preserves_bind; [apply preserves_strdup|]. intros dup. apply preserves_ret.
Qed.

Lemma preserves_parse_long arg l : preserves R (parse_long arg l).
Proof.
  unfold parse_long.
  apply preserves_bind; [apply preserves_get_ctx|]. intros c.
  apply preserves_bind; [apply preserves_match_long|]. intros r.
  apply preserves_bind.
  { destruct (is_null _); [|apply preserves_ret].
    apply preserves_bind; [apply preserves_unknown_arg|]. intros _.
    apply preserves_return_false. }
  intros _. apply preserves_bind.
  { destruct (negb _); [|apply preserves_ret].
    destruct (strchr arg "="); [|apply preserves_ret].
    apply preserves_bind; [apply preserves_convert|]. intros value.
    apply preserves_add_value_local. }
  intros token. apply preserves_bind; [apply preserves_check, R_add_token|].
  intros _. apply preserves_bind; [apply preserves_get_ctx|]. intros c'.
  apply preserves_ret.
Qed.

Lemma preserves_unknown_short ch : preserves R (unknown_short ch).
Proof.
  apply preserves_bind; [apply preserves_unknown_arg|]. intros _.
  apply preserves_return_false.
Qed.

Lemma preserves_parse_short cluster l : preserves R (parse_short cluster l).
Proof.
  revert l. induction cluster as [|ch rest IH]; intros l; cbn [parse_short];
    [apply preserves_ret|].
  apply preserves_bind; [apply preserves_get_ctx|]. intros c.
  apply preserves_bind; [apply preserves_match_short|]. intros r.
  cbn [last_token last_desc token_count parse_options].
  destruct (Ascii.eqb _ NUL).
  - destruct (0 <=? _); [|apply preserves_unknown_short].
    apply preserves_bind; [apply preserves_deref|]. intros last.
    destruct (_ && _); [|apply preserves_unknown_short].
    apply preserves_bind; [apply preserves_convert|]. intros value.
    apply preserves_bind; [apply R_add_value_at|]. intros _.
    apply preserves_ret.
  - apply preserves_bind; [apply preserves_check, R_add_token|]. intros _.
    apply preserves_bind; [apply preserves_get_ctx|]. intros c'. apply IH.
Qed.

Lemma preserves_parse_value arg l : preserves R (parse_value arg l).
Proof.
  unfold parse_value.
  apply preserves_bind; [apply preserves_get_ctx|]. intros c.
  apply preserves_bind.
  { destruct (0 <=? _); [|apply preserves_ret].
    apply preserves_bind; [apply preserves_deref|]. intros desc.
    apply preserves_bind; [apply preserves_deref|]. intros token.
    apply preserves_ret. }
  intros group. destruct (_ && _).
  - apply preserves_bind; [apply preserves_deref|]. intros token.
    apply preserves_bind.
    { destruct (negb _); [|apply preserves_ret].
      apply preserves_bind; [apply preserves_bad_value|]. intros _.
      apply preserves_return_false. }
    intros _. apply preserves_bind; [apply preserves_convert|]. intros value.
    apply preserves_bind; [apply R_add_value_at|]. intros _.
    apply preserves_ret.
  - apply preserves_bind; [apply preserves_convert|]. intros value.
    apply preserves_bind; [apply preserves_add_value_local|]. intros token.
    apply preserves_bind; [apply preserves_check, R_add_token|]. intros _.
    apply preserves_ret.
Qed.

Lemma preserves_parse_arg arg l : preserves R (parse_arg arg l).
Proof.
  destruct arg as [arg|]; [|apply preserves_ret]. unfold parse_arg.
  destruct (_ =? 0); [apply preserves_ret|].
  destruct (_ && _); [|apply preserves_parse_value].
  destruct (Ascii.eqb _ _); [apply preserves_parse_long|apply preserves_parse_short].
Qed.

Lemma preserves_parse_loop n rest l : preserves R (parse_loop n rest l).
Proof.
  revert rest l. induction n as [|n IH]; intros rest l; cbn [parse_loop];
    [apply preserves_ret|].
  destruct rest as [|arg rest]; [apply preserves_undef|].
  apply preserves_bind; [apply preserves_parse_arg|]. intros l'. apply IH.
Qed.

Lemma preserves_vex_parse_body argc argv : preserves R (vex_parse_body argc argv).
Proof.
  unfold vex_parse_body.
  apply preserves_bind; [apply R_clear_tokens|]. intros _.
  apply preserves_bind; [apply preserves_parse_loop|]. intros l. apply preserves_ret.
Qed.

Lemma vex_parse_preserves argc argv m b m' :
  vex_parse argc argv m = Returns b m' -> R (ctx m) (ctx m').
Proof.
  intros Hrun.
  pose proof (wp_run _ _ _ _ _ _ (preserves_vex_parse_body argc argv m) Hrun) as H.
  by destruct b.
Qed.
End tokens.

Section token_fields.
Hypothesis R_tokens : forall c b num cap, R c (Ctx.set_tokens b num cap c).

Lemma preserves_resize_tokens fuel : preserves R (resize_tokens fuel).
Proof.
  induction fuel as [|fuel IH]; unfold resize_tokens; fold resize_tokens;
    (apply preserves_bind; [apply preserves_get_ctx|]); intros c;
    (destruct (_ >=? _); [|apply preserves_ret]); [apply preserves_undef|].
  apply preserves_bind; [apply preserves_grow|]. intros [b|].
  - apply preserves_bind; [by apply preserves_modify|]. intros _. exact IH.
  - apply preserves_bind; [apply preserves_bad_alloc|]. intros _. apply preserves_ret.
Qed.

Lemma preserves_add_token token : preserves R (_vex_add_token token).
Proof.
  unfold _vex_add_token.
  apply preserves_bind; [apply preserves_get_ctx|]. intros c.
  apply preserves_bind; [apply preserves_resize_tokens|]. intros []; [|apply preserves_ret].
  apply preserves_bind; [apply preserves_get_ctx|]. intros c'.
  apply preserves_bind; [apply preserves_deref|]. intros b.
  apply preserves_bind; [by apply preserves_modify|]. intros _. apply preserves_ret.
Qed.

Lemma preserves_add_value_at i value : preserves R (add_value_at i value).
Proof.
  unfold add_value_at.
  apply preserves_bind; [apply preserves_get_ctx|]. intros c.
  apply preserves_bind; [apply preserves_deref|]. intros token.
  apply preserves_bind; [apply preserves_add_value|]. intros r.
  apply preserves_bind; [apply preserves_get_ctx|]. intros c'.
  apply preserves_bind; [apply preserves_deref|]. intros b.
  apply preserves_bind; [by apply preserves_modify|]. intros _.
  destruct (fst r); [apply preserves_ret|apply preserves_return_false].
Qed.

Lemma preserves_clear_tokens : preserves R clear_tokens.
Proof.
  unfold clear_tokens. apply preserves_bind; [apply preserves_get_ctx|]. intros c.
  destruct (Ctx.arg_token c); [by apply preserves_modify|by apply preserves_modify|].
  apply preserves_undef.
Qed.

(** A relation that no write to the token fields breaks holds across
    [vex_parse]. *)
Lemma vex_parse_keeps argc argv m b m' :
  vex_parse argc argv m = Returns b m' -> R (ctx m) (ctx m').
Proof.
  apply vex_parse_preserves;
    auto using preserves_add_token, preserves_add_value_at, preserves_clear_tokens.
Qed.
End token_fields.

Section descriptors.
Hypothesis R_descs : forall c b num cap, R c (Ctx.set_descs b num cap c).
Hypothesis R_help : forall c h, R c (Ctx.set_help_msg h c).

Lemma preserves_find_duplicate desc n i : preserves R (find_duplicate desc n i).
Proof.
  revert i. induction n as [|n IH]; intros i; cbn [find_duplicate]; [apply preserves_ret|].
  apply preserves_bind; [apply preserves_get_ctx|]. intros c.
  apply preserves_bind; [apply preserves_deref|]. intros entry.
  apply preserves_bind.
  { destruct (Ascii.eqb _ _); [apply preserves_ret|].
    apply preserves_bind; [apply preserves_deref|]. intros a.
    apply preserves_bind; [apply preserves_deref|]. intros b. apply preserves_ret. }
  intros []; [|apply IH].
  apply preserves_bind; [|intros _; apply preserves_return_false].
  destruct (Ascii.eqb _ NUL); [|apply preserves_bad_value].
  apply preserves_bind; [apply preserves_deref|]. intros ln. apply preserves_bad_value.
Qed.

Lemma preserves_resize_descs fuel : preserves R (resize_descs fuel).
Proof.
  induction fuel as [|fuel IH]; unfold resize_descs; fold resize_descs;
    (apply preserves_bind; [apply preserves_get_ctx|]); intros c;
    (destruct (_ >=? _); [|apply preserves_ret]); [apply preserves_undef|].
  apply preserves_bind; [apply preserves_grow|]. intros [b|].
  - apply preserves_bind; [by apply preserves_modify|]. intros _. exact IH.
  - apply preserves_bind; [apply preserves_bad_alloc|]. intros _.
    apply preserves_return_false.
Qed.

Lemma preserves_vex_add_arg_body desc : preserves R (vex_add_arg_body desc).
Proof.
  unfold vex_add_arg_body.
  apply preserves_bind.
  { destruct (negb _); [|apply preserves_ret].
    apply preserves_bind; [apply preserves_bad_value|]. intros _.
    apply preserves_return_false. }
  intros _. apply preserves_bind.
  { destruct (_ && _); [|apply preserves_ret].
    apply preserves_bind; [apply preserves_bad_value|]. intros _.
    apply preserves_return_false. }
  intros _. apply preserves_bind; [apply preserves_get_ctx|]. intros c.
  apply preserves_bind; [apply preserves_find_duplicate|]. intros _.
  apply preserves_bind; [apply preserves_resize_descs|]. intros _.
  apply preserves_bind; [apply preserves_get_ctx|]. intros c'.
  apply preserves_bind; [apply preserves_strdup|]. intros long_name.
  apply preserves_bind; [apply preserves_strdup|]. intros description.
  apply preserves_bind; [apply preserves_deref|]. intros b.
  apply preserves_bind; [by apply preserves_modify|]. intros _.
  by apply preserves_modify.
Qed.

Lemma vex_add_arg_preserves desc m b m' :
  vex_add_arg desc m = Returns b m' -> R (ctx m) (ctx m').
Proof.
  intros Hrun.
  pose proof (wp_run _ _ _ _ _ _ (preserves_vex_add_arg_body desc m) Hrun) as H.
  by destruct b.
Qed.
End descriptors.
End preserved.

(** * Registration in full *)

Lemma wp_find_duplicate_new desc (rest : list vex_arg_desc) i m :
  (forall (k : nat) e, rest !! k = Some e ->
     read (Ctx.arg_desc (ctx m)) (i + Z.of_nat k) = Some e) ->
  wp (find_duplicate desc (length rest) i)
     (fun _ m' => m' = m /\ Forall (fun e => ~ clash e desc) rest)
     (fun m' => rejected (ctx m) (ctx m')) m.
Proof.
  revert i. induction rest as [|e rest IH]; intros i Hread; cbn [length find_duplicate].
  { by apply wp_ret. }
  pose proof (Hread 0%nat e eq_refl) as H0. rewrite Z.add_0_r in H0.
  assert (wp (find_duplicate desc (length rest) (i + 1))
            (fun _ m' => m' = m /\ Forall (fun e => ~ clash e desc) rest)
            (fun m' => rejected (ctx m) (ctx m')) m) as Hrest.
  { apply IH. intros k e' Hk. rewrite <- (Hread (S k) e' Hk). f_equal. lia. }
  assert (wp
    ((if Ascii.eqb (Desc.short_name desc) NUL
      then ln <- deref (Desc.long_name desc) ;;
           _vex_set_status VEX_STATUS_BAD_VALUE
             (Some (fmt_s "Duplicate arguments: --" ln))
      else _vex_set_status VEX_STATUS_BAD_VALUE
             (Some (fmt_c "Duplicate arguments: -" (Desc.short_name desc)))) ;;;
     @return_false unit)
    (fun _ m' => m' = m /\ Forall (fun e => ~ clash e desc) (e :: rest))
    (fun m' => rejected (ctx m) (ctx m')) m) as Hdup.
  { apply wp_bind. destruct (Ascii.eqb _ NUL).
    - apply wp_bind, wp_deref. intros ln _.
      apply wp_set_status_text. intros o. apply wp_return_false. right. by eexists.
    - apply wp_set_status_text. intros o. apply wp_return_false. right. by eexists. }
  apply wp_bind, wp_get_ctx, wp_bind. rewrite H0. apply wp_ret, wp_bind.
  destruct (Ascii.eqb_spec (Desc.short_name e) (Desc.short_name desc)) as [Heq|Hne].
  - apply wp_ret. exact Hdup.
  - apply wp_bind, wp_deref. intros a Ha. apply wp_bind, wp_deref. intros b Hb.
    apply wp_ret. destruct (Z.eqb_spec (strcmp a b) 0) as [H|H]; [exact Hdup|].
    eapply wp_mono; [exact Hrest| |done]. cbv beta.
    intros _ m' [-> Hall]. split; [done|]. apply Forall_cons. split; [|done].
    intros [Hc|Hc]; [done|]. rewrite Ha, Hb in Hc. injection Hc as ->.
    by rewrite strcmp_refl in H.
Qed.

Lemma wp_resize_descs_room fuel m :
  Ctx.num_arg_desc (ctx m) <= Ctx.capacity_arg_desc (ctx m) ->
  wp (resize_descs fuel)
     (fun _ m' => exists b cap,
        ctx m' = Ctx.set_descs b (Ctx.num_arg_desc (ctx m)) cap (ctx m) /\
        Ctx.num_arg_desc (ctx m) < cap /\
        forall i, 0 <= i < Ctx.num_arg_desc (ctx m) ->
          read b i = read (Ctx.arg_desc (ctx m)) i)
     (fun m' => rejected (ctx m) (ctx m')) m.
Proof.
  intros Hroom.
  destruct fuel as [|fuel]; unfold resize_descs; fold resize_descs;
    apply wp_bind, wp_get_ctx;
    destruct (Z.geb_spec (Ctx.num_arg_desc (ctx m)) (Ctx.capacity_arg_desc (ctx m)))
      as [Hge|Hlt].
  - apply wp_undef.
  - apply wp_ret. destruct m as [[] o]. by eexists _, _.
  - apply wp_bind, wp_grow.
    + intros o. apply wp_bind, wp_set_status_text. intros o'.
      apply wp_return_false. by left.
    + intros o Hcap. apply wp_bind, wp_modify_ctx. cbn [ctx allocs].
      pose proof (next_capacity_gt _ (proj1 Hcap)) as Hnext.
      unfold wp. rewrite resize_descs_done. 2:{ cbn [ctx Ctx.set_descs Ctx.num_arg_desc Ctx.capacity_arg_desc]. lia. }
      eexists _, _. split; [reflexivity|]. split; [lia|].
      intros i Hi. unfold read. destruct (Ctx.arg_desc (ctx m)) as [|cells|];
        cbn [cells_of length] in *; [lia| |lia].
      destruct (Z.leb_spec 0 i); [|lia].
      rewrite lookup_app_l by (rewrite length_take; lia).
      rewrite lookup_take_lt by lia. done.
  - apply wp_ret. destruct m as [[] o]. by eexists _, _.
Qed.

(** [vex_add_arg] on a context with room for its stored descriptors. *)
Lemma wp_vex_add_arg_full desc descs m :
  registry (ctx m) descs ->
  Ctx.num_arg_desc (ctx m) <= Ctx.capacity_arg_desc (ctx m) ->
  wp (vex_add_arg_body desc)
     (fun _ m' =>
        registered desc (ctx m) (ctx m') /\
        isalpha (Desc.short_name desc) = true /\
        Forall (fun e => ~ clash e desc) descs)
     (fun m' => rejected (ctx m) (ctx m')) m.
Proof.
  intros Hreg Hroom. destruct (registry_read _ _ Hreg) as [Hnum Hread].
  unfold vex_add_arg_body. apply wp_bind.
  destruct (isalpha (Desc.short_name desc)) eqn:Halpha; cbn [negb].
  2:{ apply wp_bind, wp_set_status_text. intros o. apply wp_return_false.
      right. by eexists. }
  apply wp_ret, wp_bind. destruct (_ && _).
  { apply wp_bind, wp_set_status_text. intros o. apply wp_return_false.
    right. by eexists. }
  apply wp_ret, wp_bind, wp_get_ctx, wp_bind. rewrite Hnum.
  eapply wp_mono; [by apply (wp_find_duplicate_new desc descs 0 m)| |done]. cbv beta.
  intros _ ? [-> Hnew]. apply wp_bind.
  eapply wp_mono; [by apply wp_resize_descs_room| |done]. cbv beta.
  intros _ m1 (b & cap & Hm1 & Hlt & Hkeep).
  apply wp_bind, wp_get_ctx, wp_bind, wp_strdup. intros ln o1 Hln.
  apply wp_bind, wp_strdup. intros ds o2 Hds. cbn [ctx].
  apply wp_bind, wp_deref. intros b' Hb'.
  apply wp_bind, wp_modify_ctx, wp_modify_ctx. cbn [ctx allocs].
  rewrite Hm1 in *. cbn [Ctx.set_descs Ctx.arg_desc Ctx.num_arg_desc
                         Ctx.capacity_arg_desc] in *.
  split; [|done].
  exists b', cap, (Desc.mk ds ln (Desc.short_name desc) (Desc.arg_type desc)
                           (Desc.max_count desc)).
  split; [by destruct (ctx m)|].
  split; [done|].
  unfold write in Hb'. destruct b as [|cells|]; [done| |done].
  destruct (_ && _) eqn:Hin; [|done]. injection Hb' as <-.
  apply andb_true_iff in Hin as [Hlo Hhi].
  split_and!.
  - split_and!; cbn; auto.
  - unfold read. destruct (Z.leb_spec 0 (Ctx.num_arg_desc (ctx m))); [|lia].
    apply list_lookup_insert_eq. lia.
  - intros i Hi. rewrite <- Hkeep by done. unfold read.
    destruct (Z.leb_spec 0 i); [|lia]. apply list_lookup_insert_ne. lia.
Qed.

Lemma registered_registry desc descs c c' :
  registry c descs -> registered desc c c' ->
  exists e, stored_as desc e /\ registry c' (descs ++ [e]) /\
            Ctx.num_arg_desc c' <= Ctx.capacity_arg_desc c' /\
            Ctx.help_msg c' = None.
Proof.
  intros [Hnum Hread] (b & cap & e & -> & Hlt & Hst & He & Hkeep).
  exists e. split; [done|]. split_and!; cbn; [|lia|done].
  split; cbn.
  - rewrite length_app, Hnum. cbn. lia.
  - intros i e' Hi. apply lookup_app_Some in Hi as [Hi|[Hge Hi]].
    + pose proof (lookup_lt_Some _ _ _ Hi). rewrite Hkeep by lia. by apply Hread.
    + destruct (i - length descs)%nat as [|k] eqn:Hk; [|done].
      injection Hi as <-. rewrite <- He. f_equal. lia.
Qed.

(** * The help text *)

Lemma strlen_nil : strlen "" = 0.
Proof. done. Qed.

Lemma strlen_cons ch s : strlen (String ch s) = 1 + strlen s.
Proof. unfold strlen. cbn [String.length]. lia. Qed.

Lemma append_nil_l b : "" +:+ b = b.
Proof. reflexivity. Qed.

Lemma append_cons ch a b : String ch a +:+ b = String ch (a +:+ b).
Proof. reflexivity. Qed.

Lemma strlen_app a b : strlen (a +:+ b) = strlen a + strlen b.
Proof.
  induction a as [|ch a IH]; [by rewrite append_nil_l, strlen_nil|].
  rewrite append_cons, !strlen_cons, IH. lia.
Qed.

Lemma strlen_nonneg s : 0 <= strlen s.
Proof. unfold strlen. lia. Qed.

Lemma append_assoc a b c : (a +:+ b) +:+ c = a +:+ (b +:+ c).
Proof. induction a as [|ch a IH]; [done|]. by rewrite !append_cons, IH. Qed.

Lemma append_nil_r a : a +:+ "" = a.
Proof. induction a as [|ch a IH]; [done|]. by rewrite append_cons, IH. Qed.

Lemma strlen_spaces n : strlen (spaces n) = Z.of_nat n.
Proof. induction n as [|n IH]; [done|]. cbn [spaces]. rewrite strlen_cons, IH. lia. Qed.

Lemma substring_whole s n : (String.length s <= n)%nat -> String.substring 0 n s = s.
Proof.
  revert n. induction s as [|ch s IH]; intros n Hn.
  - by destruct n.
  - destruct n as [|n]; cbn [String.length] in Hn; [lia|].
    cbn [String.substring]. rewrite IH; [done|lia].
Qed.

Lemma substring_append s t : String.substring 0 (String.length s) (s +:+ t) = s.
Proof.
  induction s as [|ch s IH].
  - by destruct t.
  - rewrite append_cons. cbn [String.length String.substring]. by rewrite IH.
Qed.

Lemma c_str_c_string s : c_string s -> c_str s = s.
Proof.
  unfold c_string. induction s as [|ch s IH]; [done|]. cbn [char_in c_str].
  intros [Hch Hs]%orb_false_elim. rewrite Ascii.eqb_sym, Hch. by rewrite IH.
Qed.

Ltac strlen_norm :=
  rewrite ?strlen_app, ?strlen_cons, ?strlen_nil, ?strlen_spaces in *.

(** ** Appending to the buffer *)

Lemma strcat_strcat {A} size b x y (k : string -> option A) :
  (strcat size b x ≫= fun b1 => strcat size b1 y ≫= k)
  = strcat size b (x +:+ y) ≫= k.
Proof.
  unfold strcat. strlen_norm.
  pose proof (strlen_nonneg y).
  destruct (Z.leb_spec (strlen b + strlen x + 1) size) as [H1|H1]; cbn.
  - strlen_norm.
    destruct (Z.leb_spec (strlen b + strlen x + strlen y + 1) size) as [H2|H2];
      destruct (Z.leb_spec (strlen b + (strlen x + strlen y) + 1) size) as [H3|H3];
      cbn; try lia; [|done].
    by rewrite append_assoc.
  - destruct (Z.leb_spec (strlen b + (strlen x + strlen y) + 1) size) as [H3|H3];
      [lia|done].
Qed.

Lemma strcat_strcat_end size b x y :
  (strcat size b x ≫= fun b1 => strcat size b1 y) = strcat size b (x +:+ y).
Proof.
  transitivity (strcat size b x ≫= fun b1 => strcat size b1 y ≫= Some).
  { destruct (strcat size b x) as [b1|]; cbn; [|done]. by destruct (strcat size b1 y). }
  rewrite strcat_strcat. by destruct (strcat size b (x +:+ y)).
Qed.

Lemma strcat_fits size b x b' : strcat size b x = Some b' -> strlen b' + 1 <= size.
Proof.
  unfold strcat. destruct (Z.leb_spec (strlen b + strlen x + 1) size); [|done].
  intros [= <-]. strlen_norm. lia.
Qed.

Lemma strcat_nil size b : strlen b + 1 <= size -> strcat size b "" = Some b.
Proof.
  intros H. unfold strcat. rewrite strlen_nil, append_nil_r.
  by destruct (Z.leb_spec (strlen b + 0 + 1) size); [|lia].
Qed.

(** A step that appends [x] once the text before it fits. *)
Lemma strcat_then {A} size b x (f g : string -> option A) :
  (forall b', strlen b' + 1 <= size -> f b' = g b') ->
  strcat size b x ≫= f = strcat size b x ≫= g.
Proof.
  intros H. destruct (strcat size b x) as [b'|] eqn:Hb; cbn; [|done].
  apply H. by apply (strcat_fits size b x).
Qed.

Lemma strncat_char size b ch :
  ch <> NUL -> strncat size b (String ch "") 1 = strcat size b (String ch "").
Proof.
  intros Hch. unfold strncat. cbn [String.substring c_str].
  by rewrite (proj2 (Ascii.eqb_neq _ _) Hch).
Qed.

Lemma strcat_Some size b x b' :
  strcat size b x = Some b' -> b' = b +:+ x /\ strlen b + strlen x + 1 <= size.
Proof.
  unfold strcat. destruct (Z.leb_spec (strlen b + strlen x + 1) size); [|done].
  by intros [= <-].
Qed.

Lemma strcat_None size b x :
  strcat size b x = None -> size < strlen b + strlen x + 1.
Proof.
  unfold strcat. by destruct (Z.leb_spec (strlen b + strlen x + 1) size).
Qed.

(** Runs the next [strcat] of the goal, in both of its outcomes. *)
Ltac strcat_next :=
  match goal with
  | |- context [strcat ?size ?b ?x] =>
      let H := fresh "Hcat" in
      destruct (strcat size b x) eqn:H; cbn [mbind option_bind fst snd];
      [apply strcat_Some in H as [-> H]|apply strcat_None in H]
  end.

(** Equality of two texts that differ in the count of a padding only. *)
Ltac text_eq :=
  repeat match goal with
         | |- Some _ = Some _ => apply (f_equal Some)
         | |- String ?c _ = String ?c _ => apply (f_equal (String c))
         | |- spaces _ = spaces _ => apply (f_equal spaces); unfold strlen; lia
         | |- (spaces _ +:+ _) = (spaces _ +:+ _) => apply (f_equal2 String.append)
         | |- (?a +:+ _) = (?a +:+ _) => apply (f_equal (String.append a))
         | |- _ => reflexivity
         end.

(** Closes a goal [r = strcat size b text] once the steps of [r] are run. *)
Ltac strcat_done :=
  unfold strcat; strlen_norm;
  match goal with
  | |- _ = (if ?a <=? ?b then _ else _) => destruct (Z.leb_spec a b)
  end;
  first [done | unfold strlen in *; lia
        | rewrite ?append_assoc, ?append_cons, ?append_nil_l;
          text_eq].

Lemma usage_entry_text size desc b :
  usage_entry size desc b = strcat size b (usage_text desc).
Proof.
  unfold usage_entry, usage_text.
  destruct (Ascii.eqb_spec (Desc.short_name desc) NUL) as [Hnul|Hnul]; cbn [negb];
    destruct (Desc.long_name desc) as [ln|]; cbn [is_null];
    destruct (negb _ && negb _);
    match goal with |- _ = ?r => remember r as finish eqn:Hfinish end;
    repeat (first [rewrite strncat_char by done | strcat_next]);
    subst finish; strcat_done.
Qed.

Lemma usage_loop_text c size (descs : list vex_arg_desc) i b :
  (forall (k : nat) e, descs !! k = Some e ->
     read (Ctx.arg_desc c) (i + Z.of_nat k) = Some e) ->
  strlen b + 1 <= size ->
  usage_loop c size (length descs) i b = strcat size b (texts usage_text descs).
Proof.
  revert i b. induction descs as [|e descs IH]; intros i b Hread Hb.
  { by rewrite strcat_nil. }
  pose proof (Hread 0%nat e eq_refl) as H0. rewrite Z.add_0_r in H0.
  cbn [length usage_loop texts foldr]. rewrite H0. cbn [mbind option_bind].
  rewrite usage_entry_text, <- strcat_strcat_end.
  apply strcat_then. intros b' Hb'. apply IH; [|done].
  intros k e' Hk. rewrite <- (Hread (S k) e' Hk). f_equal. lia.
Qed.

Lemma put_space_end size b :
  put_space size (strlen b) b = strcat size b " ".
Proof.
  unfold put_space, strcat. rewrite Z.leb_refl.
  replace (0 <=? strlen b) with true
    by (symmetry; apply Z.leb_le; unfold strlen; lia).
  cbn [andb].
  replace (String.substring 0 (Z.to_nat (strlen b)) b) with b
    by (unfold strlen; by rewrite Nat2Z.id, substring_whole).
  strlen_norm.
  destruct (Z.ltb_spec (strlen b + 1) size);
    destruct (Z.leb_spec (strlen b + (1 + 0) + 1) size); done || lia.
Qed.

Lemma pad_spaces size buffer_len_curr n arg_len b :
  strlen b = buffer_len_curr + arg_len -> strlen b + 1 <= size ->
  pad size buffer_len_curr n arg_len b = strcat size b (spaces n).
Proof.
  revert arg_len b. induction n as [|n IH]; intros arg_len b Hlen Hb.
  { by rewrite strcat_nil. }
  cbn [pad spaces]. rewrite <- Hlen, put_space_end.
  change (String " " (spaces n)) with (" " +:+ spaces n).
  rewrite <- strcat_strcat_end. 
  destruct (strcat size b " ") as [b'|] eqn:Hcat; cbn [mbind option_bind]; [|done].
  apply strcat_Some in Hcat as [-> Hcat]. apply IH; strlen_norm; lia.
Qed.

Lemma argument_line_text size column desc b :
  argument_line size column desc b = strcat size b (argument_text column desc).
Proof.
  unfold argument_line, argument_text, names_text.
  destruct (Ascii.eqb_spec (Desc.short_name desc) NUL) as [Hnul|Hnul]; cbn [negb];
    destruct (Desc.long_name desc) as [ln|]; cbn [is_null];
    destruct (Desc.description desc) as [ds|]; cbn [default from_option id];
    match goal with |- _ = ?r => remember r as finish eqn:Hfinish end;
    repeat (first [rewrite strncat_char by done
                  | rewrite pad_spaces by (strlen_norm; lia)
                  | strcat_next]);
    subst finish; strcat_done.
Qed.

Lemma arguments_loop_text c size column (descs : list vex_arg_desc) i b :
  (forall (k : nat) e, descs !! k = Some e ->
     read (Ctx.arg_desc c) (i + Z.of_nat k) = Some e) ->
  strlen b + 1 <= size ->
  arguments_loop c size column (length descs) i b
  = strcat size b (texts (argument_text column) descs).
Proof.
  revert i b. induction descs as [|e descs IH]; intros i b Hread Hb.
  { by rewrite strcat_nil. }
  pose proof (Hread 0%nat e eq_refl) as H0. rewrite Z.add_0_r in H0.
  cbn [length arguments_loop texts foldr]. rewrite H0. cbn [mbind option_bind].
  rewrite argument_line_text, <- strcat_strcat_end.
  apply strcat_then. intros b' Hb'. apply IH; [|done].
  intros k e' Hk. rewrite <- (Hread (S k) e' Hk). f_equal. lia.
Qed.

Lemma name_column_nonneg descs : 0 <= name_column descs.
Proof. unfold name_column. induction descs as [|e descs IH]; cbn [foldr]; lia. Qed.

Lemma descriptions_length_nonneg descs : 0 <= descriptions_length descs.
Proof.
  unfold descriptions_length. induction descs as [|e descs IH]; cbn [foldr]; [lia|].
  pose proof (strlen_nonneg (default "" (Desc.description e))). lia.
Qed.

Lemma help_sizes_total c (descs : list vex_arg_desc) i buffer_len max_arg_len :
  (forall (k : nat) e, descs !! k = Some e ->
     read (Ctx.arg_desc c) (i + Z.of_nat k) = Some e) ->
  0 <= max_arg_len ->
  help_sizes c (length descs) i buffer_len max_arg_len
  = Some (buffer_len + descriptions_length descs,
          Z.max max_arg_len (name_column descs)).
Proof.
  revert i buffer_len max_arg_len.
  induction descs as [|e descs IH]; intros i buffer_len max_arg_len Hread Hmax.
  { cbn. f_equal. f_equal; lia. }
  pose proof (Hread 0%nat e eq_refl) as H0. rewrite Z.add_0_r in H0.
  cbn [length help_sizes]. rewrite H0. cbn [mbind option_bind].
  rewrite IH.
  2:{ intros k e' Hk. rewrite <- (Hread (S k) e' Hk). f_equal. lia. }
  2:{ match goal with |- context [?a >? ?b] => destruct (Z.gtb_spec a b) end;
        [|done]. destruct (Desc.long_name e); unfold strlen; lia. }
  cbn [descriptions_length name_column foldr].
  fold (descriptions_length descs). fold (name_column descs).
  f_equal. f_equal.
  - destruct (Desc.description e); cbn [default from_option id]; rewrite ?strlen_nil; lia.
  - destruct (Desc.long_name e) as [ln|]; cbn [default from_option id];
      rewrite ?strlen_nil;
      match goal with |- context [?a >? ?b] => destruct (Z.gtb_spec a b) end; lia.
Qed.

Lemma c_string_app a b : c_string a -> c_string b -> c_string (a +:+ b).
Proof.
  unfold c_string. induction a as [|ch a IH]; [done|].
  rewrite append_cons. cbn [char_in]. intros [Hch Ha]%orb_false_elim Hb.
  rewrite Hch. by apply IH.
Qed.

Lemma vsnprintf_whole size text :
  c_string text -> strlen text + 1 <= size ->
  vsnprintf (Z.to_nat size) text = text.
Proof.
  intros Hc Hlen. unfold vsnprintf.
  rewrite substring_whole by (unfold strlen in Hlen; lia).
  by apply c_str_c_string.
Qed.

(** [vex_get_help] on a context without a cached text: an allocation
    failure gives null; otherwise the text is [help_text], which is cached,
    unless it does not fit the [help_room] bytes allocated for it. *)
Lemma vex_get_help_text c o descs name :
  registry c descs -> Ctx.help_msg c = None ->
  Ctx.name c = Some name -> c_string name ->
  vex_get_help (Machine c o)
  = if hd true o then
      if strlen (help_text c descs) + 1 <=? help_room c descs
      then Some (Some (help_text c descs),
                 Machine (Ctx.set_help_msg (Some (help_text c descs)) c) (tl o))
      else None
    else Some (None, Machine c (tl o)).
Proof.
  intros Hreg Hhelp Hname Hcstr.
  destruct (registry_read _ _ Hreg) as [Hnum Hread].
  pose proof (name_column_nonneg descs) as Hcol.
  pose proof (descriptions_length_nonneg descs) as Hdl.
  unfold vex_get_help. cbn [ctx]. rewrite Hhelp, Hname. cbn [mbind option_bind].
  rewrite Hnum, help_sizes_total by done. cbn [mbind option_bind fst snd].
  rewrite Z.max_r by done.
  assert (Ctx.num_arg_desc c = Z.of_nat (length descs)) as -> by (by destruct Hreg).
  set (size := _ + 1).
  assert (size = help_room c descs) as Hsize.
  { subst size. unfold help_room. rewrite Hname. cbn [default from_option id].
    destruct (Ctx.description c); cbn [default from_option id]; rewrite ?strlen_nil; lia. }
  assert (strlen name + 33 <= size) as Hroom.
  { rewrite Hsize. unfold help_room. rewrite Hname. cbn [default from_option id].
    pose proof (strlen_nonneg (default "" (Ctx.description c))).
    assert (0 <= Z.of_nat (length descs) * name_column descs) by (apply Z.mul_nonneg_nonneg; lia).
    lia. }
  rewrite <- Hsize. unfold help_text. rewrite Hname. cbn [default from_option id].
  unfold alloc. destruct o as [|[] o]; cbn [allocs ctx hd tl]; [| |done].
  all: rewrite vsnprintf_whole
    by (by apply c_string_app || (strlen_norm; lia)).
  all: rewrite usage_loop_text by (done || (strlen_norm; lia)).
  all: destruct (Ctx.description c) as [ds|];
    match goal with |- _ = ?r => remember r as finish eqn:Hfinish end;
    repeat (first [rewrite arguments_loop_text by (done || (strlen_norm; lia))
                  | strcat_next]);
    subst finish; strlen_norm;
    match goal with
    | |- _ = (if ?a <=? ?b then _ else _) => destruct (Z.leb_spec a b)
    end;
    first [done | unfold strlen in *; lia
          | rewrite ?append_assoc, ?append_cons, ?append_nil_l; done].
Qed.

(** ** The room for the help text *)

Lemma strlen_nl : strlen nl = 1.
Proof. reflexivity. Qed.

Lemma usage_text_length e :
  strlen (usage_text e) <= 9 + strlen (default "" (Desc.long_name e)) + dots_length e.
Proof.
  unfold usage_text, dots_length.
  destruct (negb (Ascii.eqb _ NUL)); destruct (Desc.long_name e) as [ln|];
    cbn [is_null default from_option id]; destruct (negb _ && negb _);
    strlen_norm; unfold strlen; lia.
Qed.

Lemma names_text_length e :
  strlen (names_text e) <= 6 + strlen (default "" (Desc.long_name e)).
Proof.
  unfold names_text.
  destruct (negb (Ascii.eqb _ NUL)); destruct (Desc.long_name e) as [ln|];
    cbn [is_null default from_option id]; strlen_norm; unfold strlen; lia.
Qed.

Lemma argument_text_length column e :
  16 + strlen (default "" (Desc.long_name e)) <= column ->
  strlen (argument_text column e)
  = column + 2 + strlen (default "" (Desc.description e)).
Proof.
  intros Hcol. pose proof (names_text_length e).
  unfold argument_text. strlen_norm. rewrite strlen_nl. lia.
Qed.

Lemma name_column_ge descs :
  Forall (fun e => 16 + strlen (default "" (Desc.long_name e)) <= name_column descs) descs.
Proof.
  unfold name_column. induction descs as [|e descs IH]; [done|]. cbn [foldr].
  apply Forall_cons. split; [lia|].
  eapply Forall_impl; [exact IH|]. cbn beta. intros e' He'. lia.
Qed.

Lemma usage_texts_length descs :
  strlen (texts usage_text descs)
  <= 9 * Z.of_nat (length descs) + long_names_length descs + dots_total descs.
Proof.
  unfold texts, long_names_length, dots_total.
  induction descs as [|e descs IH]; cbn [foldr length]; [by rewrite strlen_nil|].
  rewrite strlen_app. pose proof (usage_text_length e). lia.
Qed.

Lemma argument_texts_length column descs :
  Forall (fun e => 16 + strlen (default "" (Desc.long_name e)) <= column) descs ->
  strlen (texts (argument_text column) descs)
  = Z.of_nat (length descs) * (column + 2) + descriptions_length descs.
Proof.
  unfold texts, descriptions_length.
  induction 1 as [|e descs He Hdescs IH]; cbn [foldr length]; [by rewrite strlen_nil|].
  rewrite strlen_app, argument_text_length, IH by done. lia.
Qed.

Lemma long_names_column column descs :
  Forall (fun e => 16 + strlen (default "" (Desc.long_name e)) <= column) descs ->
  16 * Z.of_nat (length descs) + long_names_length descs
  <= Z.of_nat (length descs) * column.
Proof.
  unfold long_names_length.
  induction 1 as [|e descs He Hdescs IH]; cbn [foldr length]; lia.
Qed.

Lemma help_text_length c descs :
  strlen (help_text c descs)
  = 18 + strlen (default "" (Ctx.name c)) + strlen (texts usage_text descs)
    + match Ctx.description c with
      | Some description => 15 + strlen description
      | None => 0
      end
    + 2 + Z.of_nat (length descs) * (name_column descs + 2) + descriptions_length descs.
Proof.
  unfold help_text. strlen_norm. rewrite !strlen_nl.
  rewrite argument_texts_length by apply name_column_ge.
  destruct (Ctx.description c); strlen_norm; rewrite ?strlen_nl; lia.
Qed.

(** The help text fits unless too few descriptors make room for it. *)
Lemma help_text_fits c descs :
  dots_total descs + 3 <= 5 * Z.of_nat (length descs) ->
  strlen (help_text c descs) + 1 <= help_room c descs.
Proof.
  intros Hdots. rewrite help_text_length. unfold help_room.
  pose proof (usage_texts_length descs).
  pose proof (long_names_column _ _ (name_column_ge descs)).
  destruct (Ctx.description c); cbn [default from_option id]; rewrite ?strlen_nil; lia.
Qed.

Lemma dots_total_le descs : dots_total descs <= 4 * Z.of_nat (length descs).
Proof.
  unfold dots_total, dots_length.
  induction descs as [|e descs IH]; cbn [foldr length]; [lia|].
  destruct (negb _ && negb _); lia.
Qed.

(** * The token buffer throughout a parse *)

Lemma wp_assume {A} (P : Prop) (c : M A) Q E m :
  (P -> wp c Q E m) ->
  wp c (fun a m' => P -> Q a m') (fun m' => P -> E m') m.
Proof. unfold wp. destruct (c m); auto. Qed.

(** ** The token buffer under an arbitrary allocator *)

Lemma wp_resize_tokens_full fuel (Q : bool -> machine -> Prop) E m :
  token_buffer_ok (ctx m) ->
  (forall o,
     Q true (Machine (if Ctx.num_arg_token (ctx m) >=? Ctx.capacity_arg_token (ctx m)
                      then grown (ctx m) else ctx m) o)) ->
  (forall msg o,
     Q false (Machine (Ctx.set_status VEX_STATUS_BAD_ALLOC msg (ctx m)) o)) ->
  wp (resize_tokens fuel) Q E m.
Proof.
  intros Hok Htrue Hfalse.
  destruct (Z.geb_spec (Ctx.num_arg_token (ctx m)) (Ctx.capacity_arg_token (ctx m)))
    as [Hge|Hlt].
  2:{ unfold wp. rewrite resize_tokens_done by done. destruct m. apply Htrue. }
  destruct fuel as [|fuel]; unfold resize_tokens; fold resize_tokens;
    apply wp_bind, wp_get_ctx; (replace (_ >=? _) with true by lia);
    [apply wp_undef|].
  apply wp_bind, wp_grow.
  - intros o. apply wp_bind, wp_set_status. intros msg o'. apply wp_ret, Hfalse.
  - intros o Hcap. apply wp_bind, wp_modify_ctx.
    destruct (grown_ok (ctx m)) as (_ & _ & Hlt); [done|lia|].
    unfold wp. rewrite resize_tokens_done by exact Hlt. apply Htrue.
Qed.

Lemma wp_add_token_full token (Q : bool -> machine -> Prop) E m :
  token_buffer_ok (ctx m) ->
  (forall o, Q true (Machine (pushed token (ctx m)) o)) ->
  (forall msg o,
     Q false (Machine (Ctx.set_status VEX_STATUS_BAD_ALLOC msg (ctx m)) o)) ->
  wp (_vex_add_token token) Q E m.
Proof.
  intros Hok Htrue Hfalse. unfold _vex_add_token.
  apply wp_bind, wp_get_ctx, wp_bind, wp_resize_tokens_full; [done| |].
  2:{ intros msg o. apply wp_ret, Hfalse. }
  intros o. apply wp_bind, wp_get_ctx, wp_bind, wp_deref. intros b Hb.
  apply wp_bind, wp_modify_ctx, wp_ret. cbn [ctx allocs] in *.
  specialize (Htrue o). unfold pushed in Htrue.
  set (c1 := if _ >=? _ then grown (ctx m) else ctx m) in *.
  unfold write in Hb. destruct (Ctx.arg_token c1) eqn:Hbuf; [done| |done].
  destruct (_ && _); [|done]. injection Hb as <-. apply Htrue.
Qed.

Lemma wp_add_value_at_full i value (Q : unit -> machine -> Prop) E m :
  (forall token o, read (Ctx.arg_token (ctx m)) i = Some token ->
     Q tt (Machine (stored i (token_add token value) (ctx m)) o)) ->
  (forall token msg o, read (Ctx.arg_token (ctx m)) i = Some token ->
     E (Machine (stored i token (Ctx.set_status VEX_STATUS_BAD_ALLOC msg (ctx m))) o)) ->
  wp (add_value_at i value) Q E m.
Proof.
  intros Htrue Hfalse. unfold add_value_at.
  apply wp_bind, wp_get_ctx, wp_bind, wp_deref. intros token Htoken.
  apply wp_bind, wp_add_value.
  - intros o. apply wp_bind, wp_get_ctx, wp_bind, wp_deref. intros b Hb.
    apply wp_bind, wp_modify_ctx, wp_ret. cbn [ctx allocs fst snd] in *.
    unfold write in Hb. unfold read in Htoken.
    destruct (Ctx.arg_token (ctx m)) eqn:Hbuf; [done| |done].
    destruct (_ && _); [|done]. injection Hb as <-.
    specialize (Htrue token o). unfold stored in Htrue. rewrite Hbuf in Htrue.
    apply Htrue. exact Htoken.
  - intros msg o. apply wp_bind, wp_get_ctx, wp_bind, wp_deref. intros b Hb.
    apply wp_bind, wp_modify_ctx, wp_return_false.
    cbn [ctx allocs fst snd Ctx.set_status Ctx.arg_token] in *.
    unfold write in Hb. unfold read in Htoken.
    destruct (Ctx.arg_token (ctx m)) eqn:Hbuf; [done| |done].
    destruct (_ && _); [|done]. injection Hb as <-.
    specialize (Hfalse token msg o). unfold stored in Hfalse.
    cbn [Ctx.set_status Ctx.arg_token Ctx.num_arg_token Ctx.capacity_arg_token] in Hfalse.
    rewrite Hbuf in Hfalse. apply Hfalse. unfold read. exact Htoken.
Qed.

(** ** The counters describe the token block throughout a parse *)

Lemma token_buffer_ok_status st msg c :
  token_buffer_ok (Ctx.set_status st msg c) <-> token_buffer_ok c.
Proof. done. Qed.

Lemma keeps_token_buffer_parse_loop n rest l :
  preserves keeps_token_buffer (parse_loop n rest l).
Proof.
  apply preserves_parse_loop.
  - intros c H. exact H.
  - intros c1 c2 c3 H12 H23 H1. by apply H23, H12.
  - intros c st fmt _ H. exact H.
  - intros token m. apply wp_assume. intros Hok. apply wp_add_token_full; [done| |].
    + intros o. by destruct (pushed_ok token _ Hok) as (? & _).
    + done.
  - intros i value m. apply wp_assume. intros Hok. apply wp_add_value_at_full.
    + intros token o _. by destruct (stored_ok i (token_add token value) _ Hok) as (? & _).
    + intros token msg o _.
      by destruct (stored_ok i token (Ctx.set_status VEX_STATUS_BAD_ALLOC msg (ctx m)) Hok)
        as (? & _).
Qed.

Lemma vex_parse_token_buffer_ok argc argv m b m' :
  vex_parse argc argv m = Returns b m' -> token_buffer_ok (ctx m').
Proof.
  intros Hrun.
  assert (wp (vex_parse_body argc argv) (fun _ m' => token_buffer_ok (ctx m'))
            (fun m' => token_buffer_ok (ctx m')) m) as Hwp.
  { unfold vex_parse_body, clear_tokens.
    assert (forall b0, b0 = NullPtr \/ b0 = Freed ->
      wp (parse_loop (Z.to_nat (argc - 1)) (drop 1 argv) init_locals ;;; ret tt)
         (fun _ m' => token_buffer_ok (ctx m')) (fun m' => token_buffer_ok (ctx m'))
         (Machine (Ctx.set_tokens b0 0 0 (ctx m)) (allocs m))) as Hloop.
    { intros b0 Hb0. apply wp_bind.
      eapply wp_mono; [apply keeps_token_buffer_parse_loop| |]; cbv beta.
      - intros l m1 H. apply wp_ret, H. by destruct Hb0 as [-> | ->].
      - intros m1 H. apply H. by destruct Hb0 as [-> | ->]. }
    apply wp_bind, wp_bind, wp_get_ctx.
    destruct (Ctx.arg_token (ctx m)); [| |apply wp_undef];
      apply wp_modify_ctx, Hloop; auto. }
  pose proof (wp_run _ _ _ _ _ _ Hwp Hrun) as H. by destruct b.
Qed.

(** ** A parse on a context that holds a token block *)

Lemma add_token_dangling token m :
  dangling (ctx m) -> _vex_add_token token m = Undef.
Proof.
  intros (Hb & Hn & Hc). unfold _vex_add_token, bind, get_ctx.
  rewrite Hn, Hc. cbn. unfold bind, get_ctx. rewrite Hn, Hc, Hb. done.
Qed.

Lemma add_value_at_dangling i value m :
  dangling (ctx m) -> add_value_at i value m = Undef.
Proof.
  intros (Hb & Hn & Hc). unfold add_value_at, bind, get_ctx. by rewrite Hb.
Qed.

Lemma keeps_dangling_parse_loop n rest l :
  preserves keeps_dangling (parse_loop n rest l).
Proof.
  apply preserves_parse_loop.
  - intros c H. exact H.
  - intros c1 c2 c3 H12 H23 H1. by apply H23, H12.
  - intros c st fmt _ H. exact H.
  - intros token m. apply wp_assume. intros Hd. unfold wp.
    by rewrite add_token_dangling.
  - intros i value m. apply wp_assume. intros Hd. unfold wp.
    by rewrite add_value_at_dangling.
Qed.

Lemma vex_parse_again argc argv m b m' cells :
  Ctx.arg_token (ctx m) = Block cells ->
  vex_parse argc argv m = Returns b m' -> dangling (ctx m').
Proof.
  intros Hblock Hrun.
  assert (wp (vex_parse_body argc argv) (fun _ m' => dangling (ctx m'))
            (fun m' => dangling (ctx m')) m) as Hwp.
  { unfold vex_parse_body, clear_tokens.
    apply wp_bind, wp_bind, wp_get_ctx. rewrite Hblock.
    apply wp_modify_ctx, wp_bind.
    eapply wp_mono; [apply keeps_dangling_parse_loop| |]; cbv beta.
    - intros l m1 H. apply wp_ret, H. done.
    - intros m1 H. apply H. done. }
  pose proof (wp_run _ _ _ _ _ _ Hwp Hrun) as H. by destruct b.
Qed.

(** * [vex_arg_found] on the stored tokens *)

Lemma get_token_of c (k : nat) token :
  token_buffer_ok c -> tokens_of c !! k = Some token ->
  token_at c (vex_get_token c (Z.of_nat k)) = Some token.
Proof.
  intros Hok Hk. pose proof (lookup_lt_Some _ _ _ Hk) as Hlt.
  rewrite tokens_of_length in Hlt by done.
  unfold vex_get_token.
  destruct (Z.ltb_spec (Z.of_nat k) 0); [lia|].
  destruct (Z.geb_spec (Z.of_nat k) (Ctx.num_arg_token c)); [lia|].
  cbn. by apply read_of_tokens.
Qed.

Lemma arg_found_loop_short c ch (tokens : list vex_arg_token) i :
  (forall (k : nat) token, tokens !! k = Some token ->
     token_at c (vex_get_token c (i + Z.of_nat k)) = Some token) ->
  arg_found_loop c (String ch "") (length tokens) i
  = Some (existsb (has_short_name ch) tokens).
Proof.
  revert i. induction tokens as [|tk tokens IH]; intros i Hread; [done|].
  pose proof (Hread 0%nat tk eq_refl) as H0. rewrite Z.add_0_r in H0.
  cbn [length arg_found_loop existsb]. change (strlen (String ch "") =? 1) with true.
  change (strlen (String ch "") >? 1) with false. cbv iota. rewrite H0.
  cbn [mbind option_bind head_char]. fold (has_short_name ch tk).
  destruct (has_short_name ch tk); [done|]. cbn [orb]. apply IH.
  intros k token Hk. rewrite <- (Hread (S k) token Hk). do 2 f_equal. lia.
Qed.

Lemma arg_found_loop_long c name (tokens : list vex_arg_token) i :
  1 < strlen name ->
  (forall (k : nat) token, tokens !! k = Some token ->
     token_at c (vex_get_token c (i + Z.of_nat k)) = Some token) ->
  Forall (fun token => is_Some (Tok.long_name token)) tokens ->
  arg_found_loop c name (length tokens) i
  = Some (existsb (has_long_name_of name) tokens).
Proof.
  intros Hlen Hread Hnamed. revert i Hread.
  induction Hnamed as [|tk tokens [ln Hln] _ IH]; intros i Hread; [done|].
  pose proof (Hread 0%nat tk eq_refl) as H0. rewrite Z.add_0_r in H0.
  cbn [length arg_found_loop existsb].
  replace (strlen name =? 1) with false by (symmetry; apply Z.eqb_neq; lia).
  replace (strlen name >? 1) with true by (symmetry; apply Z.gtb_lt; lia).
  cbv iota. cbn [mbind option_bind]. rewrite H0. cbn [mbind option_bind].
  rewrite Hln. cbn [mbind option_bind].
  unfold has_long_name_of at 1. rewrite Hln.
  destruct (strcmp name ln =? 0); [done|]. cbn [orb]. apply IH.
  intros k token Hk. rewrite <- (Hread (S k) token Hk). do 2 f_equal. lia.
Qed.

Lemma arg_found_loop_unnamed c name (pre : list vex_arg_token) tk n i :
  1 < strlen name ->
  (forall (k : nat) token, (pre ++ [tk]) !! k = Some token ->
     token_at c (vex_get_token c (i + Z.of_nat k)) = Some token) ->
  Forall (fun token => exists long_name,
            Tok.long_name token = Some long_name /\ strcmp name long_name <> 0) pre ->
  Tok.long_name tk = None ->
  arg_found_loop c name (length pre + S n) i = None.
Proof.
  intros Hlen Hread Hpre Htk. revert i Hread.
  assert ((strlen name =? 1) = false) as H1 by (apply Z.eqb_neq; lia).
  assert ((strlen name >? 1) = true) as H2 by (apply Z.gtb_lt; lia).
  induction Hpre as [|t pre (ln & Hln & Hcmp) _ IH]; intros i Hread.
  - pose proof (Hread 0%nat tk eq_refl) as H0. rewrite Z.add_0_r in H0.
    cbn [length Nat.add arg_found_loop]. rewrite H1, H2. cbn [mbind option_bind].
    rewrite H0. cbn [mbind option_bind]. by rewrite Htk.
  - pose proof (Hread 0%nat t eq_refl) as H0. rewrite Z.add_0_r in H0.
    cbn [length Nat.add arg_found_loop]. rewrite H1, H2. cbn [mbind option_bind].
    rewrite H0. cbn [mbind option_bind]. rewrite Hln. cbn [mbind option_bind].
    replace (strcmp name ln =? 0) with false by (symmetry; by apply Z.eqb_neq).
    apply IH. intros k token Hk. rewrite <- (Hread (S k) token Hk). do 2 f_equal. lia.
Qed.

(** * Contexts that the entry points produce *)

Lemma c_str_length s : strlen (c_str s) <= strlen s.
Proof.
  induction s as [|ch s IH]; [done|]. cbn [c_str].
  destruct (Ascii.eqb ch NUL); rewrite ?strlen_cons, ?strlen_nil;
    pose proof (strlen_nonneg s); lia.
Qed.

Lemma substring_length n s : strlen (String.substring 0 n s) <= Z.of_nat n.
Proof.
  revert s. induction n as [|n IH]; intros [|ch s]; cbn [String.substring];
    rewrite ?strlen_cons, ?strlen_nil; try lia.
  specialize (IH s). lia.
Qed.

Lemma vsnprintf_length text : strlen (vsnprintf 256 text) <= 255.
Proof.
  unfold vsnprintf. pose proof (c_str_length (String.substring 0 (Nat.pred 256) text)).
  pose proof (substring_length (Nat.pred 256) text). cbn [Nat.pred] in *. lia.
Qed.

Lemma status_agrees_call c st fmt :
  status_call st fmt -> status_agrees (Ctx.set_status st (status_text st fmt) c).
Proof.
  unfold status_agrees. intros [[-> ->]|[Hst [text ->]]]; cbn; [by right|].
  destruct Hst as [-> | ->]; cbn; (split; [auto|apply vsnprintf_length]).
Qed.

Lemma status_agrees_rejected c c' : rejected c c' -> status_agrees c'.
Proof.
  unfold status_agrees.
  intros [->|[text ->]]; cbn; [by right|]. split; [by left|apply vsnprintf_length].
Qed.

Lemma status_agrees_registered desc c c' :
  registered desc c c' -> status_agrees c -> status_agrees c'.
Proof. by intros (b & cap & e & -> & _). Qed.

(** What [vex_add_arg] returns, and what it makes of the context. *)
Lemma vex_add_arg_outcome desc descs m b m' :
  registry (ctx m) descs ->
  Ctx.num_arg_desc (ctx m) <= Ctx.capacity_arg_desc (ctx m) ->
  vex_add_arg desc m = Returns b m' ->
  if b then registered desc (ctx m) (ctx m') /\
            isalpha (Desc.short_name desc) = true /\
            Forall (fun e => ~ clash e desc) descs
  else rejected (ctx m) (ctx m').
Proof.
  intros Hreg Hroom Hrun.
  exact (wp_run _ _ _ _ _ _ (wp_vex_add_arg_full desc descs m Hreg Hroom) Hrun).
Qed.

Lemma registry_ok_rejected c c' : rejected c c' -> registry_ok c -> registry_ok c'.
Proof. by intros [->|[text ->]]. Qed.

Lemma registry_ok_registered desc descs c c' :
  registry c descs ->
  NoDup (map Desc.short_name descs) ->
  Forall (fun e => isalpha (Desc.short_name e) = true) descs ->
  registered desc c c' -> isalpha (Desc.short_name desc) = true ->
  Forall (fun e => ~ clash e desc) descs ->
  registry_ok c'.
Proof.
  intros Hreg Hnodup Halpha Hadd Hdesc Hnew.
  destruct (registered_registry desc descs c c' Hreg Hadd) as (e & Hst & Hreg' & Hroom & _).
  destruct Hst as (Hshort & _).
  split; [done|]. exists (descs ++ [e]). split_and!; [done| |].
  - rewrite map_app. apply NoDup_app. split_and!; [done| |apply NoDup_singleton].
    intros ch Hin ->%list_elem_of_singleton.
    apply list_elem_of_fmap in Hin as (e' & Heq & He').
    apply (proj1 (Forall_forall _ _) Hnew e' He'). left. by rewrite <- Heq, Hshort.
  - apply Forall_app. split; [done|]. apply Forall_singleton. by rewrite Hshort.
Qed.

Lemma registry_ok_same c c' : same_registry c c' -> registry_ok c -> registry_ok c'.
Proof.
  intros (_ & _ & _ & _ & Hd & Hn & Hc) (Hroom & descs & [Hnum Hread] & Hnodup & Halpha).
  split; [lia|]. exists descs. split_and!; [|done|done].
  split; [by rewrite Hn|]. intros i e Hi. rewrite Hd. by apply Hread.
Qed.

(** ** Frames *)

Lemma same_registry_refl c : same_registry c c.
Proof. by repeat split. Qed.

Lemma same_registry_trans c1 c2 c3 :
  same_registry c1 c2 -> same_registry c2 c3 -> same_registry c1 c3.
Proof.
  intros (? & ? & ? & ? & ? & ? & ?) (? & ? & ? & ? & ? & ? & ?).
  repeat split; congruence.
Qed.

Lemma vex_parse_same_registry argc argv m b m' :
  vex_parse argc argv m = Returns b m' -> same_registry (ctx m) (ctx m').
Proof.
  apply (vex_parse_keeps same_registry).
  - apply same_registry_refl.
  - apply same_registry_trans.
  - intros c st fmt _. by repeat split.
  - intros c b0 num cap. by repeat split.
Qed.

Lemma vex_parse_status_agrees argc argv m b m' :
  vex_parse argc argv m = Returns b m' ->
  status_agrees (ctx m) -> status_agrees (ctx m').
Proof.
  apply (vex_parse_keeps (fun c c' => status_agrees c -> status_agrees c')).
  - intros c H. exact H.
  - intros c1 c2 c3 H12 H23 H1. by apply H23, H12.
  - intros c st fmt Hcall _. by apply status_agrees_call.
  - intros c b0 num cap H. exact H.
Qed.

Lemma same_tokens_refl c : same_tokens c c.
Proof. by repeat split. Qed.

Lemma same_tokens_trans c1 c2 c3 :
  same_tokens c1 c2 -> same_tokens c2 c3 -> same_tokens c1 c3.
Proof.
  intros (? & ? & ? & ? & ? & ?) (? & ? & ? & ? & ? & ?). repeat split; congruence.
Qed.

Lemma vex_add_arg_same_tokens desc m b m' :
  vex_add_arg desc m = Returns b m' -> same_tokens (ctx m) (ctx m').
Proof.
  apply (vex_add_arg_preserves same_tokens).
  - apply same_tokens_refl.
  - apply same_tokens_trans.
  - intros c st fmt _. by repeat split.
  - intros c b0 num cap. by repeat split.
  - intros c h. by repeat split.
Qed.

Lemma set_help_msg_same c : Ctx.set_help_msg (Ctx.help_msg c) c = c.
Proof. by destruct c. Qed.

Lemma vex_get_help_frame m r m' :
  vex_get_help m = Some (r, m') ->
  exists h, ctx m' = Ctx.set_help_msg h (ctx m).
Proof.
  unfold vex_get_help. destruct (Ctx.help_msg (ctx m)) as [text|] eqn:Hhelp.
  { intros [= <- <-]. exists (Some text). by rewrite <- Hhelp, set_help_msg_same. }
  intros H. destruct (Ctx.name (ctx m)); [|done]. cbn [mbind option_bind] in H.
  destruct (help_sizes _ _ _ _ _); [|done]. cbn [mbind option_bind] in H.
  assert (exists ok o, alloc m = Next ok (Machine (ctx m) o)) as (ok & o & Halloc).
  { unfold alloc. destruct m as [c [|b o]]; cbn; eauto. }
  rewrite Halloc in H. destruct ok.
  - cbn [ctx allocs] in H.
    repeat (match type of H with
            | context [mbind _ ?x] => destruct x; cbn [mbind option_bind] in H; [|done]
            end).
    injection H as <- <-. by eexists.
  - injection H as <- <-. exists None. cbn [ctx]. by rewrite <- Hhelp, set_help_msg_same.
Qed.

(** * [vex_init] *)

Lemma wp_ignore_result_run (c : M unit) (Q : unit -> machine -> Prop) E m :
  (forall b m', run c m = Returns b m' -> Q tt m') -> wp (ignore_result c) Q E m.
Proof.
  unfold wp, ignore_result, run. intros H.
  destruct (c m) as [[] m'|m'|]; [by apply (H true)|by apply (H false)|done].
Qed.

Lemma registry_nil c : Ctx.num_arg_desc c = 0 -> registry c [].
Proof. intros H. by split. Qed.

Lemma registry_ok_nil c :
  Ctx.num_arg_desc c = 0 -> 0 <= Ctx.capacity_arg_desc c -> registry_ok c.
Proof.
  intros Hnum Hcap. split; [lia|]. exists []. split_and!; [by apply registry_nil| |done].
  constructor.
Qed.

Lemma stored_as_copy desc desc' e :
  Desc.short_name desc' = Desc.short_name desc ->
  Desc.arg_type desc' = Desc.arg_type desc ->
  Desc.max_count desc' = Desc.max_count desc ->
  copy_of (Desc.long_name desc) (Desc.long_name desc') ->
  copy_of (Desc.description desc) (Desc.description desc') ->
  stored_as desc' e -> stored_as desc e.
Proof.
  unfold stored_as, copy_of.
  intros Hs Ht Hm Hl Hd (Hs' & Ht' & Hm' & Hl' & Hd').
  split_and!; [congruence|congruence|congruence| |].
  - destruct Hl as [Hl|Hl], Hl' as [Hl'|Hl']; rewrite ?Hl in *; auto.
  - destruct Hd as [Hd|Hd], Hd' as [Hd'|Hd']; rewrite ?Hd in *; auto.
Qed.

Lemma rejected_status c c' : rejected c c' -> Ctx.status c' <> VEX_STATUS_OK.
Proof. by intros [->|[text ->]]. Qed.

Lemma wp_vex_init_body info oracle :
  wp (vex_init_body info) (fun _ m' => initial info (ctx m'))
     (fun m' => initial info (ctx m')) (Machine ctx_zero oracle).
Proof.
  unfold vex_init_body.
  apply wp_bind, wp_strdup. intros name o1 Hname.
  apply wp_bind, wp_strdup. intros description o2 Hdescription.
  apply wp_bind, wp_strdup. intros version o3 Hversion.
  apply wp_bind, wp_modify_ctx. cbn [ctx allocs].
  set (c0 := Ctx.mk name None None description version NullPtr 0 0 NullPtr 0 0
                    VEX_STATUS_OK).
  destruct (is_null name || is_null description || is_null version) eqn:Hnull.
  { apply wp_set_status_text. intros o. cbn [ctx status_text].
    unfold initial. cbn.
    split_and!; try done.
    - by right.
    - by apply registry_ok_nil. }
  assert (is_Some name /\ is_Some description /\ is_Some version) as (Hn & Hd & Hv).
  { destruct name, description, version; try done; split_and!; by eexists. }
  apply wp_bind, wp_strdup. intros help_long o4 Hhl.
  apply wp_bind, wp_strdup. intros help_text o5 Hht.
  cbn [ctx]. apply wp_bind, wp_ignore_result_run. intros b1 m1 Hrun1.
  pose proof (vex_add_arg_outcome _ [] (Machine c0 o5) _ _ (registry_nil c0 eq_refl)
                ltac:(cbn; lia) Hrun1) as H1.
  apply wp_bind, wp_strdup. intros ver_long o6 Hvl.
  apply wp_bind, wp_strdup. intros ver_text o7 Hvt.
  cbn [ctx]. apply wp_ignore_result_run. intros b2 m2 Hrun2.
  cbn [ctx] in *.
  assert (forall e, stored_as (Desc.mk help_text help_long "h" VEX_ARG_TYPE_FLAG 0) e ->
                    stored_as help_desc e) as Hhelp.
  { intros e. by apply stored_as_copy. }
  assert (forall e, stored_as (Desc.mk ver_text ver_long "v" VEX_ARG_TYPE_FLAG 0) e ->
                    stored_as version_desc e) as Hver.
  { intros e. by apply stored_as_copy. }
  assert (exists descs1,
    registry (ctx m1) descs1 /\
    Ctx.num_arg_desc (ctx m1) <= Ctx.capacity_arg_desc (ctx m1) /\
    NoDup (map Desc.short_name descs1) /\
    Forall (fun e => isalpha (Desc.short_name e) = true) descs1 /\
    status_agrees (ctx m1) /\ same_tokens c0 (ctx m1) /\
    Ctx.help_msg (ctx m1) = None /\
    (Ctx.status (ctx m1) = VEX_STATUS_OK ->
     exists eh, descs1 = [eh] /\ stored_as help_desc eh)) as
    (descs1 & Hreg1 & Hroom1 & Hnodup1 & Halpha1 & Hst1 & Htok1 & Hhm1 & Hok1).
  { pose proof (vex_add_arg_same_tokens _ _ _ _ Hrun1) as Hsame. cbn [ctx] in Hsame.
    destruct b1.
    - destruct H1 as (Hadd & Ha & _).
      destruct (registered_registry _ [] c0 _ (registry_nil c0 eq_refl) Hadd)
        as (eh & Heh & Hreg & Hroom & Hhm).
      exists [eh]. destruct (Heh) as (Hsh & _).
      split_and!; try done.
      + cbn. apply NoDup_singleton.
      + apply Forall_singleton. by rewrite Hsh.
      + apply (status_agrees_registered _ _ _ Hadd). by left.
      + intros _. exists eh. split; [done|]. by apply Hhelp.
    - exists []. pose proof (rejected_status _ _ H1) as Hne.
      pose proof (status_agrees_rejected _ _ H1) as Hsa.
      split_and!; [| |constructor|constructor|done|done| |done].
      + by destruct H1 as [->|[text ->]].
      + destruct H1 as [->|[text ->]]; cbn; lia.
      + by destruct H1 as [->|[text ->]]. }
  pose proof (vex_add_arg_outcome _ descs1 (Machine (ctx m1) o7) _ _ Hreg1 Hroom1 Hrun2)
    as H2.
  pose proof (vex_add_arg_same_tokens _ _ _ _ Hrun2) as Hsame2.
  pose proof (same_tokens_trans _ _ _ Htok1 Hsame2) as (Hn2 & Hd2 & Hv2 & Ht2 & Hnt2 & Hct2).
  cbn in Hn2, Hd2, Hv2, Ht2, Hnt2, Hct2.
  assert (Ctx.name (ctx m2) = None \/ Ctx.description (ctx m2) = None \/
          Ctx.version (ctx m2) = None -> False) as Hnonnull.
  { rewrite Hn2, Hd2, Hv2. destruct Hn as [? ->], Hd as [? ->], Hv as [? ->].
    by intros [|[|]]. }
  assert (Ctx.name (ctx m2) = info_name info /\
          Ctx.description (ctx m2) = info_description info /\
          Ctx.version (ctx m2) = info_version info) as (Hin & Hid & Hiv).
  { rewrite Hn2, Hd2, Hv2. destruct Hn as [? ->], Hd as [? ->], Hv as [? ->].
    by destruct Hname as [<-|], Hdescription as [<-|], Hversion as [<-|]. }
  assert (Ctx.status (ctx m2) = VEX_STATUS_OK ->
          exists eh ev, registry (ctx m2) [eh; ev] /\
                        stored_as help_desc eh /\ stored_as version_desc ev) as Hok2.
  { intros Hok. destruct b2; [|by destruct (rejected_status _ _ H2)].
    destruct H2 as (Hadd & _).
    destruct (registered_registry _ descs1 _ _ Hreg1 Hadd) as (ev & Hev & Hreg & _).
    assert (Ctx.status (ctx m1) = VEX_STATUS_OK) as Hok'.
    { destruct Hadd as (b & cap & e & Hc & _). by rewrite Hc in Hok. }
    destruct (Hok1 Hok') as (eh & -> & Heh).
    exists eh, ev. split_and!; [done|done|by apply Hver]. }
  assert (status_agrees (ctx m2) /\ registry_ok (ctx m2) /\
          Ctx.help_msg (ctx m2) = None) as (Hst2 & Hrok2 & Hhm2).
  { destruct b2.
    - destruct H2 as (Hadd & Ha & Hnew).
      destruct (registered_registry _ descs1 _ _ Hreg1 Hadd) as (ev & _ & _ & _ & Hhm).
      split_and!; [|
        by apply (registry_ok_registered _ descs1 (ctx m1) _ Hreg1 Hnodup1 Halpha1 Hadd)
        |done].
      by apply (status_agrees_registered _ _ _ Hadd).
    - split_and!.
      + by apply status_agrees_rejected in H2.
      + apply (registry_ok_rejected (ctx m1)); [done|]. split; [done|]. by exists descs1.
      + by destruct H2 as [->|[text ->]]. }
  unfold initial, copy_of.
  split_and!; [by left|by left|by left|done|done|done|done|done|done| |].
  - intros H. by destruct (Hnonnull H).
  - intros Hok. split_and!; [done|done|done|by apply Hok2].
Qed.

Lemma vex_init_initial info oracle m :
  vex_init info oracle = Some m -> initial info (ctx m).
Proof.
  pose proof (wp_vex_init_body info oracle) as Hwp. unfold vex_init, wp in *.
  destruct (vex_init_body _ _) as [[] m'|m'|]; [|by intros [= <-]|done].
  by intros [= <-].
Qed.

(** * Invariants of the reachable contexts *)

Lemma token_buffer_ok_same c c' :
  same_tokens c c' -> token_buffer_ok c -> token_buffer_ok c'.
Proof.
  intros (_ & _ & _ & Hb & Hn & Hc) [Hnum Hcap]. unfold token_buffer_ok.
  by rewrite Hb, Hn, Hc.
Qed.

Lemma vex_add_arg_keeps_invariants desc m b m' :
  vex_add_arg desc m = Returns b m' ->
  status_agrees (ctx m) -> registry_ok (ctx m) ->
  status_agrees (ctx m') /\ registry_ok (ctx m').
Proof.
  intros Hrun Hst (Hroom & descs & Hreg & Hnodup & Halpha).
  pose proof (vex_add_arg_outcome desc descs m b m' Hreg Hroom Hrun) as H.
  destruct b.
  - destruct H as (Hadd & Ha & Hnew). split.
    + by apply (status_agrees_registered _ _ _ Hadd).
    + by apply (registry_ok_registered _ descs (ctx m) _ Hreg Hnodup Halpha Hadd).
  - split; [by apply status_agrees_rejected in H|].
    apply (registry_ok_rejected (ctx m)); [done|]. split; [done|]. by exists descs.
Qed.

Lemma reachable_invariants m :
  reachable m ->
  status_agrees (ctx m) /\ registry_ok (ctx m) /\ token_buffer_ok (ctx m).
Proof.
  induction 1 as [info oracle m Hinit|desc m b m' _ (Hst & Hreg & Htok) Hrun
                 |argc argv m b m' _ (Hst & Hreg & Htok) Hrun
                 |m r m' _ (Hst & Hreg & Htok) Hrun].
  - destruct (vex_init_initial _ _ _ Hinit)
      as (_ & _ & _ & _ & Hb & Hn & Hc & Hst & Hreg & _).
    split_and!; [done|done|]. unfold token_buffer_ok. rewrite Hb, Hn, Hc. cbn. lia.
  - destruct (vex_add_arg_keeps_invariants _ _ _ _ Hrun Hst Hreg) as [? ?].
    split_and!; [done|done|].
    apply (token_buffer_ok_same (ctx m)); [|done].
    by apply (vex_add_arg_same_tokens desc m b).
  - split_and!.
    + by apply (vex_parse_status_agrees argc argv m b).
    + apply (registry_ok_same (ctx m)); [|done].
      by apply (vex_parse_same_registry argc argv m b).
    + by apply (vex_parse_token_buffer_ok argc argv m b).
  - destruct (vex_get_help_frame _ _ _ Hrun) as [h ->]. done.
Qed.

Lemma configured_no_tokens m :
  configured m ->
  Ctx.arg_token (ctx m) = NullPtr /\ Ctx.num_arg_token (ctx m) = 0 /\
  Ctx.capacity_arg_token (ctx m) = 0.
Proof.
  induction 1 as [info oracle m Hinit|desc m b m' _ (Hb & Hn & Hc) Hrun
                 |m r m' _ (Hb & Hn & Hc) Hrun].
  - by destruct (vex_init_initial _ _ _ Hinit) as (_ & _ & _ & _ & Hb & Hn & Hc & _).
  - destruct (vex_add_arg_same_tokens _ _ _ _ Hrun) as (_ & _ & _ & -> & -> & ->).
    done.
  - destruct (vex_get_help_frame _ _ _ Hrun) as [h ->]. done.
Qed.

Lemma configured_reachable m : configured m -> reachable m.
Proof.
  induction 1; [by eapply reach_init|by eapply reach_add_arg|by eapply reach_get_help].
Qed.

(** * More of the argument loop *)

Lemma find_short_name ch (descs : list vex_arg_desc) d0 e d :
  find_short ch descs d0 = Some (e, d) -> Desc.short_name e = ch.
Proof.
  revert d0. induction descs as [|e0 descs IH]; intros d0; [done|].
  cbn [find_short]. destruct (Ascii.eqb_spec ch (Desc.short_name e0)) as [->|_].
  - by intros [= <- _].
  - apply IH.
Qed.

(** A cluster of registered short names: one token each, in order. *)
Lemma parse_short_cluster descs cluster : forall c l tokens,
  registry c descs -> token_buffer_ok c -> Ctx.arg_token c <> Freed ->
  c_string cluster -> cluster_tokens descs cluster = Some tokens ->
  exists l' c',
    parse_short cluster l (Machine c []) = Next l' (Machine c' []) /\
    tokens_of c' = tokens_of c ++ tokens /\ same_but_tokens c c' /\
    token_buffer_ok c'.
Proof.
  induction cluster as [|ch rest IH]; intros c l tokens Hreg Hok Hfreed Hcs Htokens.
  { injection Htokens as <-. exists l, c. rewrite app_nil_r.
    split_and!; [done|done|apply same_but_tokens_refl|done]. }
  cbn [cluster_tokens] in Htokens. unfold short_token in Htokens.
  destruct (find_short ch descs 0) as [[e d]|] eqn:Hfind; [|done].
  cbn [mbind option_bind] in Htokens.
  destruct (cluster_tokens descs rest) as [rest_tokens|] eqn:Hrest; [|done].
  injection Htokens as <-.
  unfold c_string in Hcs. cbn [char_in] in Hcs.
  apply orb_false_elim in Hcs as [Hch Hcs].
  assert (Desc.short_name e <> NUL) as Hnul.
  { rewrite (find_short_name _ _ _ _ _ Hfind). intros ->. done. }
  rewrite (parse_short_known c descs ch rest l e d) by done.
  set (token := token_of_desc e (Desc.long_name e)).
  destruct (pushed_ok token c Hok) as (Hok' & Htok' & _).
  destruct (IH (pushed token c)
              (Locals d (Ctx.num_arg_token c) (token_count l + 1) (parse_options l))
              rest_tokens)
    as (l' & c' & Hrun & Htok & Hsame & Hok''); try done.
  { apply (registry_same c); [|done].
    apply same_but_tokens_pushed, same_but_tokens_refl. }
  exists l', c'. split_and!; [done| | |done].
  - by rewrite Htok, Htok', <- app_assoc.
  - destruct Hsame as (b & n & cap & ->).
    apply same_but_tokens_set, same_but_tokens_pushed, same_but_tokens_refl.
Qed.

(** [vex_parse] on one short cluster after the program name. *)
Lemma parse_argv_short prog cluster m :
  Ctx.arg_token (ctx m) = NullPtr -> allocs m = [] ->
  head_char cluster <> "-"%char ->
  parse_argv [prog; String "-" cluster] m
  = run (parse_short cluster (Locals (-1) (-1) 0 true) ;;; ret tt)
        (Machine (cleared (ctx m)) []).
Proof.
  intros Hnull Hallocs Hhead. rewrite parse_argv_prefix.
  unfold run, parse_prefix. rewrite !bind_assoc. unfold bind at 1.
  rewrite clear_tokens_null, Hallocs by done.
  cbn [length map parse_loop]. rewrite bind_assoc.
  assert (parse_arg (Some (String "-" cluster)) init_locals
          = parse_short cluster (Locals (-1) (-1) 0 true)) as ->.
  { unfold parse_arg. cbn [head_char advance].
    rewrite (proj2 (Ascii.eqb_neq _ _) Hhead).
    change (Ascii.eqb "-" "-") with true. cbn [andb].
    destruct cluster as [|x cluster]; [done|].
    cbn [head_char strcmp] in *. change (Ascii.eqb "-" "-") with true. cbv iota.
    rewrite (proj2 (Ascii.eqb_neq _ _) Hhead).
    assert (char_code x - char_code "-" <> 0) as Hx by (by intros H%char_code_sub_0).
    by replace (char_code x - char_code "-" =? 0) with false by lia. }
  unfold bind at 1 3.
  destruct (parse_short _ _ _); done.
Qed.

(** A cluster character that names no descriptor, after a token that takes
    values: the rest of the cluster is the value. *)
Lemma parse_short_value c descs ch rest l last v :
  registry c descs -> find_short ch descs 0 = None ->
  0 <= last_token l ->
  read (Ctx.arg_token c) (last_token l) = Some last ->
  Tok.short_name last <> NUL -> Tok.arg_type last <> VEX_ARG_TYPE_FLAG ->
  convert_value (Tok.arg_type last) (String ch rest) = Some v ->
  parse_short (String ch rest) l (Machine c [])
  = Next l (Machine (stored (last_token l) (token_add last v) c) []).
Proof.
  intros Hreg Hfind Hlast Hread Hshort Htype Hv.
  destruct (registry_read _ _ Hreg) as [Hnum Hreads].
  cbn [parse_short]. unfold bind at 1, get_ctx. cbn [ctx]. unfold bind at 1.
  rewrite Hnum, match_short_nofail by done. rewrite Hfind.
  cbn [scan_result fst snd Tok.zero Tok.short_name last_token last_desc
       token_count parse_options].
  rewrite Ascii.eqb_refl. replace (0 <=? last_token l) with true by lia.
  unfold bind at 1. rewrite Hread. cbn [deref ret].
  rewrite (proj2 (Ascii.eqb_neq _ _) Hshort).
  replace (Tok.arg_type last =? VEX_ARG_TYPE_FLAG) with false by lia.
  cbn [negb andb]. unfold bind at 1. rewrite convert_nofail, Hv.
  unfold bind at 1. rewrite (add_value_at_nofail c _ last) by done.
  by destruct l.
Qed.

(** A value that joins the last token. *)
Lemma parse_value_joins arg l c desc token v :
  parse_options l = true -> 0 <= last_token l ->
  read (Ctx.arg_desc c) (last_desc l) = Some desc ->
  read (Ctx.arg_token c) (last_token l) = Some token ->
  Desc.max_count desc < 0 \/ Tok.arg_count token < Desc.max_count desc ->
  Tok.arg_type token = infer_type VEX_ARG_TYPE_UNKNOWN arg ->
  convert_value (infer_type VEX_ARG_TYPE_UNKNOWN arg) arg = Some v ->
  parse_value arg l (Machine c [])
  = Next l (Machine (stored (last_token l) (token_add token v) c) []).
Proof.
  intros Hopt Hlast Hdesc Htoken Hroom Htype Hv.
  unfold parse_value, bind, get_ctx. cbn [ctx].
  replace (0 <=? last_token l) with true by lia.
  rewrite Hdesc. cbn [deref ret]. rewrite Htoken. cbn [deref ret]. rewrite Hopt.
  replace ((Desc.max_count desc <? 0) || (Tok.arg_count token <? Desc.max_count desc))
    with true by (symmetry; apply orb_true_iff; lia).
  cbn [andb]. rewrite Htype, Z.eqb_refl. cbn [negb ret].
  rewrite convert_nofail, Hv.
  by rewrite (add_value_at_nofail c _ token).
Qed.

(** A value that finds no room in the last token starts a token of its
    own. *)
Lemma parse_value_new c l arg token :
  token_buffer_ok c -> Ctx.arg_token c <> Freed -> locals_ok c l ->
  last_token_full c l ->
  free_token arg = Some token ->
  parse_value arg l (Machine c [])
  = Next (Locals (-1) (-1) (token_count l) (parse_options l))
         (Machine (pushed token c) []).
Proof.
  intros Hok Hfreed Hloc Hfull Hfree. unfold free_token in Hfree.
  assert ((if 0 <=? last_token l
           then desc <- deref (read (Ctx.arg_desc c) (last_desc l)) ;;
                tk <- deref (read (Ctx.arg_token c) (last_token l)) ;;
                ret ((Desc.max_count desc <? 0)
                     || (Tok.arg_count tk <? Desc.max_count desc))
           else ret false) (Machine c []) = Next false (Machine c [])) as Hg.
  { destruct (Z.leb_spec 0 (last_token l)) as [Hlast|]; [|done].
    destruct (Hfull Hlast) as (desc & tk & Hdesc & Htk & Hmax).
    unfold bind. rewrite Hdesc, Htk. cbn [deref ret]. do 2 f_equal.
    apply orb_false_iff. split; [apply Z.ltb_ge|apply Z.ltb_ge]; lia. }
  unfold parse_value. unfold bind at 1, get_ctx. cbn [ctx]. unfold bind at 1.
  rewrite Hg, andb_false_r. unfold bind at 1. rewrite convert_nofail.
  destruct (convert_value _ _) as [v|]; [|done]. injection Hfree as <-.
  unfold bind at 1. rewrite add_value_local_nofail.
  unfold bind, check, bind. by rewrite add_token_nofail.
Qed.

(** The state of a parse, after any arguments, of a context that had not
    been parsed before. *)
Lemma parse_prefix_state pre m l m1 :
  Ctx.arg_token (ctx m) = NullPtr -> parse_prefix pre m = Next l m1 ->
  token_buffer_ok (ctx m1) /\ Ctx.arg_token (ctx m1) <> Freed /\
  locals_ok (ctx m1) l /\ same_but_tokens (cleared (ctx m)) (ctx m1).
Proof.
  intros Hnull Hpre.
  assert (Forall (good_arg (fun _ => True)) (map Some pre)) as Hargs.
  { apply Forall_forall. by intros arg _ s _. }
  pose proof (wp_clear_then_loop (fun _ => True) (length pre) (map Some pre) m
                (fun _ _ _ _ => I) Hargs) as Hwp.
  unfold wp in Hwp. fold (parse_prefix pre) in Hwp. rewrite Hpre in Hwp.
  destruct Hwp as (b & Hb & Hsame & Hok & Hloc & _ & Hfreed).
  rewrite (Hb Hnull) in Hfreed, Hsame. split_and!; [done| |done|done].
  by apply Hfreed.
Qed.

(** The parse of [pre ++ [arg]] when the step for [arg] falls through. *)
Lemma parse_argv_snoc prog pre arg m l m1 l2 m2 :
  parse_prefix pre m = Next l m1 ->
  parse_arg (Some arg) l m1 = Next l2 m2 ->
  parse_prefix (pre ++ [arg]) m = Next l2 m2 /\
  parse_argv (prog :: pre ++ [arg]) m = Returns true m2.
Proof.
  intros Hpre Harg.
  assert (parse_prefix (pre ++ [arg]) m = Next l2 m2) as Hsnoc.
  { rewrite parse_prefix_app. unfold bind at 1. rewrite Hpre.
    cbn [length map parse_loop]. unfold bind. by rewrite Harg. }
  split; [done|]. rewrite parse_argv_prefix. unfold run, bind. by rewrite Hsnoc.
Qed.

Lemma parse_arg_value arg l m :
  head_char arg <> "-"%char -> parse_arg (Some arg) l m = parse_value arg l m.
Proof.
  intros Hhead. unfold parse_arg. rewrite strcmp_dashdash by done.
  by rewrite (proj2 (Ascii.eqb_neq _ _) Hhead), andb_false_r.
Qed.

(** * The further properties *)

(** ** [vex_arg_found] *)

Lemma tokens_of_reads c :
  token_buffer_ok c ->
  Z.to_nat (vex_token_count c) = length (tokens_of c) /\
  forall (k : nat) token, tokens_of c !! k = Some token ->
    token_at c (vex_get_token c (0 + Z.of_nat k)) = Some token.
Proof.
  intros Hok. split; [by rewrite tokens_of_length|].
  intros k token Hk. rewrite Z.add_0_l. by apply get_token_of.
Qed.

(** X2: for a name of one character, [vex_arg_found] tells whether some
    stored token has that character as its short name; long names are not
    looked at.  The counters of the context describe its token block. *)
Theorem vex_arg_found_by_short_name (c : vex_ctx) (ch : ascii) :
  token_buffer_ok c ->
  vex_arg_found c (Some (String ch ""))
  = Some (existsb (has_short_name ch) (tokens_of c)).
Proof.
  intros Hok. destruct (tokens_of_reads c Hok) as [Hnum Hread].
  unfold vex_arg_found. rewrite Hnum. by apply arg_found_loop_short.
Qed.

(** X3: for a name of two characters or more, when every stored token has
    a long name, [vex_arg_found] tells whether [strcmp] finds the name equal
    to the long name of some stored token. *)
Theorem vex_arg_found_by_long_name (c : vex_ctx) (name : string) :
  token_buffer_ok c -> 1 < strlen name ->
  Forall (fun token => is_Some (Tok.long_name token)) (tokens_of c) ->
  vex_arg_found c (Some name)
  = Some (existsb (has_long_name_of name) (tokens_of c)).
Proof.
  intros Hok Hlen Hnamed. destruct (tokens_of_reads c Hok) as [Hnum Hread].
  unfold vex_arg_found. rewrite Hnum. by apply arg_found_loop_long.
Qed.

(** X4: for a name of two characters or more, [vex_arg_found] hands the
    null long name of a free-standing value token to [strcmp]: when such a
    token is stored before any token whose long name is the one looked for,
    the behaviour is undefined. *)
Theorem vex_arg_found_unnamed_token (c : vex_ctx) (name : string)
    (pre : list vex_arg_token) (token : vex_arg_token) (post : list vex_arg_token) :
  token_buffer_ok c -> 1 < strlen name ->
  tokens_of c = pre ++ token :: post ->
  Forall (fun t => exists long_name,
            Tok.long_name t = Some long_name /\ strcmp name long_name <> 0) pre ->
  Tok.long_name token = None ->
  vex_arg_found c (Some name) = None.
Proof.
  intros Hok Hlen Htokens Hpre Htoken.
  destruct (tokens_of_reads c Hok) as [Hnum Hread].
  unfold vex_arg_found. rewrite Hnum, Htokens, length_app. cbn [length].
  apply (arg_found_loop_unnamed c name pre token); [done| |done|done].
  intros k t Hk. apply Hread. rewrite Htokens.
  apply lookup_app_Some in Hk as [Hk|[Hge Hk]].
  - by apply lookup_app_l_Some.
  - rewrite lookup_app_r by done.
    destruct (k - length pre)%nat; [done|]. by destruct n.
Qed.

(** X5: registration alone creates no token: in a context that has only
    been set up, by [vex_init], [vex_add_arg] and [vex_get_help],
    [vex_token_count] is zero and [vex_arg_found] answers false for every
    name. *)
Theorem registration_creates_no_token (m : machine) (name : option string) :
  configured m ->
  vex_token_count (ctx m) = 0 /\ vex_arg_found (ctx m) name = Some false.
Proof.
  intros (_ & Hn & _)%configured_no_tokens. split; [done|].
  destruct name as [name|]; [|done]. unfold vex_arg_found, vex_token_count.
  by rewrite Hn.
Qed.

(** ** [vex_add_arg] *)

(** X6: a call of [vex_add_arg] that returns true appends one descriptor
    to the registry: the descriptors stored before are unchanged, the new
    one has the short name, the type and the [max_count] given and copies
    of the strings given (null where the copy failed), and the cached help
    text is dropped.  The context has room for its stored descriptors. *)
Theorem vex_add_arg_appends (desc : vex_arg_desc) (m m' : machine)
    (descs : list vex_arg_desc) :
  registry (ctx m) descs ->
  Ctx.num_arg_desc (ctx m) <= Ctx.capacity_arg_desc (ctx m) ->
  vex_add_arg desc m = Returns true m' ->
  exists e,
    stored_as desc e /\ registry (ctx m') (descs ++ [e]) /\
    Ctx.num_arg_desc (ctx m') <= Ctx.capacity_arg_desc (ctx m') /\
    Ctx.help_msg (ctx m') = None.
Proof.
  intros Hreg Hroom Hrun.
  destruct (vex_add_arg_outcome desc descs m true m' Hreg Hroom Hrun) as (Hadd & _).
  by apply (registered_registry desc descs (ctx m)).
Qed.

(** X7: a descriptor whose short name is not a letter is rejected, whatever
    its long name: [vex_add_arg] returns false with status
    [VEX_STATUS_BAD_VALUE] and the message [Invalid short arg name: ]
    followed by the character, and changes nothing else.  A descriptor
    without short name is such a descriptor, so the message
    [No arg name given] is never set for it. *)
Theorem vex_add_arg_rejects_non_letter (desc : vex_arg_desc) (m : machine)
    (b : bool) (m' : machine) :
  isalpha (Desc.short_name desc) = false ->
  vex_add_arg desc m = Returns b m' ->
  b = false /\
  ctx m' = Ctx.set_status VEX_STATUS_BAD_VALUE
             (Some (vsnprintf 256 (fmt_c "Invalid short arg name: "
                                         (Desc.short_name desc))))
             (ctx m).
Proof.
  intros Halpha. unfold vex_add_arg, run, vex_add_arg_body.
  rewrite Halpha. cbn [negb].
  destruct (hd true (allocs m)) eqn:Hok.
  - unfold bind. rewrite set_status_message by auto. by intros [= <- <-].
  - assert (_vex_set_status VEX_STATUS_BAD_VALUE
              (Some (fmt_c "Invalid short arg name: " (Desc.short_name desc))) m
            = Undef) as Hundef.
    { unfold _vex_set_status, bind, alloc.
      change (negb (VEX_STATUS_BAD_VALUE =? VEX_STATUS_OK)
              && negb (VEX_STATUS_BAD_VALUE =? VEX_STATUS_BAD_ALLOC)) with true.
      cbv iota. by destruct m as [c [|[] o]]. }
    unfold bind. by rewrite Hundef.
Qed.

(** X8: [vex_add_arg] compares long names with [strcmp] without testing
    them: for a descriptor without long name whose short name is a letter
    other than the short name of the first stored descriptor, the behaviour
    is undefined. *)
Theorem vex_add_arg_null_long_name (desc : vex_arg_desc) (m : machine)
    (descs : list vex_arg_desc) (e : vex_arg_desc) :
  registry (ctx m) descs -> descs !! 0%nat = Some e ->
  isalpha (Desc.short_name desc) = true ->
  Desc.short_name e <> Desc.short_name desc ->
  Desc.long_name desc = None ->
  vex_add_arg desc m = Undefined.
Proof.
  intros Hreg He Halpha Hshort Hlong.
  pose proof (isalpha_not_NUL _ Halpha) as Hnul.
  destruct Hreg as [Hnum Hread]. pose proof (Hread 0%nat e He) as H0.
  change (Z.of_nat 0) with 0 in H0.
  destruct descs as [|e0 descs]; [done|]. cbn [length] in Hnum.
  assert (find_duplicate desc (S (length descs)) 0 m = Undef) as Hdup.
  { cbn [find_duplicate]. unfold bind, get_ctx. rewrite H0. cbn [deref ret].
    rewrite (proj2 (Ascii.eqb_neq _ _) Hshort).
    destruct (Desc.long_name e); cbn [deref ret undef]; [|done]. by rewrite Hlong. }
  unfold vex_add_arg, run, vex_add_arg_body.
  rewrite Halpha, Hnul. cbn [negb andb]. unfold bind at 1. cbn [ret].
  unfold bind at 1. cbn [ret]. unfold bind at 1, get_ctx. unfold bind at 1.
  by rewrite Hnum, Nat2Z.id, Hdup.
Qed.

(** ** [vex_init] and [vex_get_version] *)

(** X9: when no allocation fails, [vex_init] returns a context with
    copies of the name, the description and the version given, status
    [VEX_STATUS_OK], no token, and the two descriptors [-h/--help] and
    [-v/--version] registered as Flags in this order; [vex_get_version]
    then returns the version given. *)
Theorem vex_init_copies_info (name version description : string) :
  exists m,
    vex_init {| info_name := Some name; info_version := Some version;
                info_description := Some description |} [] = Some m /\
    ctx m = Ctx.mk (Some name) None None (Some description) (Some version)
                   (Block [help_desc; version_desc]) 2 2 NullPtr 0 0 VEX_STATUS_OK /\
    vex_get_version (ctx m) = Some version.
Proof. eexists. split; [reflexivity|]. by split. Qed.

(** X10: when [vex_init] gets a null name, description or version, or
    when one of the three copies cannot be allocated, it returns a context
    with status [VEX_STATUS_BAD_ALLOC], without message, in which nothing is
    registered. *)
Theorem vex_init_bad_alloc (info : vex_init_info) (oracle : list bool) (m : machine) :
  vex_init info oracle = Some m ->
  Ctx.name (ctx m) = None \/ Ctx.description (ctx m) = None \/
  Ctx.version (ctx m) = None ->
  Ctx.status (ctx m) = VEX_STATUS_BAD_ALLOC /\ Ctx.status_msg (ctx m) = None /\
  Ctx.num_arg_desc (ctx m) = 0.
Proof.
  intros Hinit Hnull.
  destruct (vex_init_initial _ _ _ Hinit)
    as (_ & _ & _ & _ & _ & _ & _ & Hst & _ & Hbad & _).
  destruct (Hbad Hnull) as [Hstatus Hnum]. split_and!; [done| |done].
  unfold status_agrees in Hst. destruct (Ctx.status_msg (ctx m)); [|done].
  rewrite Hstatus in Hst. by destruct Hst as [[|] _].
Qed.

(** X11: whatever the allocator does, a context that [vex_init] returns
    with status [VEX_STATUS_OK] holds the name, the description and the
    version given, which [vex_get_version] returns, and its registry is the
    two default Flags, [-h] then [-v]. *)
Theorem vex_init_ok (info : vex_init_info) (oracle : list bool) (m : machine) :
  vex_init info oracle = Some m -> Ctx.status (ctx m) = VEX_STATUS_OK ->
  Ctx.name (ctx m) = info_name info /\
  Ctx.description (ctx m) = info_description info /\
  vex_get_version (ctx m) = info_version info /\
  exists eh ev,
    registry (ctx m) [eh; ev] /\ stored_as help_desc eh /\ stored_as version_desc ev.
Proof.
  intros Hinit Hok.
  destruct (vex_init_initial _ _ _ Hinit)
    as (_ & _ & _ & _ & _ & _ & _ & _ & _ & _ & Hgood).
  by destruct (Hgood Hok) as (? & ? & ? & ?).
Qed.

(** ** Every context a caller can reach *)

(** X12: in every context reached through [vex_init], [vex_add_arg],
    [vex_parse] and [vex_get_help], the status and its message go together:
    [VEX_STATUS_OK] and [VEX_STATUS_BAD_ALLOC] come without message,
    [VEX_STATUS_BAD_VALUE] and [VEX_STATUS_UNKNOWN_ARG] with a message of at
    most 255 characters. *)
Theorem reachable_status_agrees (m : machine) :
  reachable m -> status_agrees (ctx m).
Proof. by intros (? & _)%reachable_invariants. Qed.

(** X13: in every such context the stored descriptors fit their block, and
    their short names are letters, no two of them the same. *)
Theorem reachable_short_names_distinct (m : machine) :
  reachable m -> registry_ok (ctx m).
Proof. by intros (_ & ? & _)%reachable_invariants. Qed.

(** X14: in every such context [vex_get_token] returns, for each index
    from 0 below [vex_token_count], a pointer to a token of the live token
    block, and null for any other index, also after a parse that
    failed. *)
Theorem reachable_tokens_in_block (m : machine) (i : Z) :
  reachable m ->
  if (0 <=? i) && (i <? vex_token_count (ctx m))
  then is_Some (token_at (ctx m) (vex_get_token (ctx m) i))
  else vex_get_token (ctx m) i = None.
Proof.
  intros (_ & _ & Hok)%reachable_invariants. unfold vex_get_token, vex_token_count.
  destruct (Z.leb_spec 0 i); destruct (Z.ltb_spec i (Ctx.num_arg_token (ctx m)));
    destruct (Z.ltb_spec i 0); destruct (Z.geb_spec i (Ctx.num_arg_token (ctx m)));
    cbn [andb orb]; try lia; try done.
  apply read_in_range; [done|lia].
Qed.

(** ** [vex_parse] as a whole *)

(** X15: [vex_parse] writes to the token buffer and to the status only:
    whether it returns true or false, the name, the description, the
    version, the cached help text and the registry are those before the
    call, and the token counters it leaves describe the token block. *)
Theorem vex_parse_keeps_registry (argc : Z) (argv : list (option string))
    (m : machine) (b : bool) (m' : machine) :
  vex_parse argc argv m = Returns b m' ->
  same_registry (ctx m) (ctx m') /\ token_buffer_ok (ctx m').
Proof.
  intros Hrun. split.
  - by apply (vex_parse_same_registry argc argv m b m').
  - by apply (vex_parse_token_buffer_ok argc argv m b m').
Qed.

(** X16: [vex_parse] releases the token block of an earlier parse without
    clearing the pointer to it, and the first token stored afterwards makes
    [realloc] work on the released block.  So a parse of a context that
    holds a token block returns only if it stores no token, and it then
    leaves the pointer dangling with a token count of zero. *)
Theorem vex_parse_again_stores_nothing (argc : Z) (argv : list (option string))
    (m : machine) (b : bool) (m' : machine) (cells : list vex_arg_token) :
  Ctx.arg_token (ctx m) = Block cells ->
  vex_parse argc argv m = Returns b m' ->
  Ctx.arg_token (ctx m') = Freed /\ vex_token_count (ctx m') = 0.
Proof.
  intros Hblock Hrun.
  by destruct (vex_parse_again argc argv m b m' cells Hblock Hrun) as (? & ? & _).
Qed.

(** ** Options and their values *)

(** X17: a cluster [-xyz] whose characters are all short names of
    descriptors yields one token per character, in the order of the
    cluster, each with the names and the type of the first descriptor with
    that short name.  The context has not been parsed before and no
    allocation fails. *)
Theorem cluster_of_registered_names (prog cluster : string) (m : machine)
    (descs : list vex_arg_desc) (tokens : list vex_arg_token) :
  registry (ctx m) descs -> Ctx.arg_token (ctx m) = NullPtr -> allocs m = [] ->
  c_string cluster -> head_char cluster <> "-"%char ->
  cluster_tokens descs cluster = Some tokens ->
  exists m',
    parse_argv [prog; String "-" cluster] m = Returns true m' /\
    tokens_of (ctx m') = tokens /\
    vex_token_count (ctx m') = Z.of_nat (length tokens).
Proof.
  intros Hreg Hnull Hallocs Hcs Hhead Htokens.
  destruct (cleared_ok (ctx m)) as (Hok0 & Hfreed0 & Hsame0 & Htok0).
  pose proof (registry_same _ _ _ Hsame0 Hreg) as Hreg0.
  destruct (parse_short_cluster descs cluster (cleared (ctx m))
              (Locals (-1) (-1) 0 true) tokens)
    as (l' & c' & Hrun & Htok & Hsame & Hok'); try done.
  rewrite parse_argv_short by done. unfold run, bind. rewrite Hrun.
  exists (Machine c' []). rewrite Htok0 in Htok. split_and!; [done|done|].
  cbn [ctx]. cbn [app] in Htok. rewrite <- Htok, tokens_of_length by done.
  unfold vex_token_count. destruct Hok'. lia.
Qed.

(** X18: a value attached to a short option, as in [-ifile.txt]: when the
    first character of a cluster names a descriptor that is not a Flag and
    the next one names none, the rest of the cluster, converted to the type
    of that descriptor, becomes the value of its token, and the scan of the
    cluster ends.  The context has not been parsed before and no allocation
    fails. *)
Theorem short_option_attached_value (prog : string) (ch : ascii) (rest : string)
    (m : machine) (descs : list vex_arg_desc) (e : vex_arg_desc) (d : Z)
    (v : vex_value) :
  registry (ctx m) descs -> Ctx.arg_token (ctx m) = NullPtr -> allocs m = [] ->
  ch <> NUL -> ch <> "-"%char ->
  find_short ch descs 0 = Some (e, d) ->
  Desc.arg_type e <> VEX_ARG_TYPE_FLAG ->
  rest <> "" -> find_short (head_char rest) descs 0 = None ->
  convert_value (Desc.arg_type e) rest = Some v ->
  exists m',
    parse_argv [prog; String "-" (String ch rest)] m = Returns true m' /\
    tokens_of (ctx m') = [token_add (token_of_desc e (Desc.long_name e)) v].
Proof.
  intros Hreg Hnull Hallocs Hch Hdash Hfind Htype Hrest Hnone Hv.
  destruct (cleared_ok (ctx m)) as (Hok0 & Hfreed0 & Hsame0 & Htok0).
  pose proof (registry_same _ _ _ Hsame0 Hreg) as Hreg0.
  pose proof (find_short_name _ _ _ _ _ Hfind) as Hshort.
  set (token := token_of_desc e (Desc.long_name e)).
  destruct (pushed_ok token _ Hok0) as (Hok1 & Htok1 & Hnum1).
  pose proof (registry_same _ _ _ (same_but_tokens_pushed _ _ token Hsame0) Hreg)
    as Hreg1.
  destruct rest as [|x rest]; [done|]. cbn [head_char] in Hnone.
  rewrite parse_argv_short by done. unfold run, bind.
  rewrite (parse_short_known _ descs ch _ _ e d) by (done || by rewrite Hshort).
  fold token.
  cbn [token_count parse_options].
  rewrite (parse_short_value (pushed token (cleared (ctx m))) descs x rest
             (Locals d (Ctx.num_arg_token (cleared (ctx m))) (0 + 1) true) token v).
  - eexists. split; [reflexivity|]. cbn [ctx last_token].
    destruct (stored_ok (Ctx.num_arg_token (cleared (ctx m))) (token_add token v) _ Hok1)
      as (_ & -> & _).
    by rewrite Htok1, Htok0.
  - done.
  - done.
  - cbn [last_token]. destruct Hok0. lia.
  - cbn [last_token]. by apply read_pushed.
  - cbn [token token_of_desc Tok.short_name]. by rewrite Hshort.
  - done.
  - done.
Qed.

(** X19: a free-standing value joins the token of the option before it:
    when option parsing is active, the last token has room for a value (its
    descriptor has a negative [max_count], or more than the values it
    holds) and the type inferred for the value is the type of that token,
    the converted value is appended to the token, no token is created, and
    the next value can join in the same way.  [l] and [m1] are the state of
    the parse after the arguments [pre]; no allocation fails from there. *)
Theorem value_joins_last_option (prog : string) (pre : list string) (arg : string)
    (m m1 : machine) (l : locals) (desc : vex_arg_desc) (token : vex_arg_token)
    (v : vex_value) :
  parse_prefix pre m = Next l m1 -> allocs m1 = [] ->
  parse_options l = true -> 0 <= last_token l ->
  read (Ctx.arg_desc (ctx m1)) (last_desc l) = Some desc ->
  read (Ctx.arg_token (ctx m1)) (last_token l) = Some token ->
  Desc.max_count desc < 0 \/ Tok.arg_count token < Desc.max_count desc ->
  head_char arg <> "-"%char ->
  Tok.arg_type token = infer_type VEX_ARG_TYPE_UNKNOWN arg ->
  convert_value (infer_type VEX_ARG_TYPE_UNKNOWN arg) arg = Some v ->
  parse_prefix (pre ++ [arg]) m
  = Next l (Machine (stored (last_token l) (token_add token v) (ctx m1)) []) /\
  parse_argv (prog :: pre ++ [arg]) m
  = Returns true (Machine (stored (last_token l) (token_add token v) (ctx m1)) []).
Proof.
  intros Hpre Hallocs Hopt Hlast Hdesc Htoken Hroom Hhead Htype Hv.
  apply (parse_argv_snoc prog pre arg m l m1); [done|].
  rewrite parse_arg_value by done. destruct m1 as [c1 o1]. cbn [ctx allocs] in *.
  subst o1. by apply (parse_value_joins arg l c1 desc).
Qed.

(** X20: a free-standing value that finds no room starts a token of its
    own: when there is no last token, or the descriptor of the last token
    has a [max_count] of zero or more that its values have reached, the
    value is stored as a new token without names, typed by its content, and
    the values after it do not join any token.  [l] and [m1] are the state
    of the parse after the arguments [pre]; the context has not been parsed
    before, and no allocation fails from [m1] on. *)
Theorem value_after_full_option (prog : string) (pre : list string) (arg : string)
    (m m1 : machine) (l : locals) (token : vex_arg_token) :
  Ctx.arg_token (ctx m) = NullPtr ->
  parse_prefix pre m = Next l m1 -> allocs m1 = [] ->
  last_token_full (ctx m1) l ->
  head_char arg <> "-"%char ->
  free_token arg = Some token ->
  parse_prefix (pre ++ [arg]) m
  = Next (Locals (-1) (-1) (token_count l) (parse_options l))
         (Machine (pushed token (ctx m1)) []) /\
  parse_argv (prog :: pre ++ [arg]) m
  = Returns true (Machine (pushed token (ctx m1)) []) /\
  tokens_of (pushed token (ctx m1)) = tokens_of (ctx m1) ++ [token].
Proof.
  intros Hnull Hpre Hallocs Hfull Hhead Hfree.
  destruct (parse_prefix_state pre m l m1 Hnull Hpre) as (Hok & Hfreed & Hloc & _).
  destruct (pushed_ok token _ Hok) as (_ & Htok & _).
  apply and_assoc. split; [|done].
  apply (parse_argv_snoc prog pre arg m l m1); [done|].
  rewrite parse_arg_value by done. destruct m1 as [c1 o1]. cbn [ctx allocs] in *.
  subst o1. by apply parse_value_new.
Qed.

(** ** [_vex_add_token] *)

(** X21: [_vex_add_token] appends: when it returns true the stored tokens
    are those before the call followed by the token given, and the counters
    still describe the block; when the allocator fails it returns false
    with status [VEX_STATUS_BAD_ALLOC] and the stored tokens are those
    before the call.  The counters of the context describe its token
    block. *)
Theorem vex_add_token_appends (token : vex_arg_token) (m : machine) (ok : bool)
    (m' : machine) :
  token_buffer_ok (ctx m) ->
  _vex_add_token token m = Next ok m' ->
  token_buffer_ok (ctx m') /\
  if ok then tokens_of (ctx m') = tokens_of (ctx m) ++ [token] /\
             vex_token_count (ctx m') = vex_token_count (ctx m) + 1
  else tokens_of (ctx m') = tokens_of (ctx m) /\
       Ctx.status (ctx m') = VEX_STATUS_BAD_ALLOC.
Proof.
  intros Hok Hrun.
  pose proof (wp_add_token_full token
    (fun ok m' =>
       token_buffer_ok (ctx m') /\
       if ok : bool
       then tokens_of (ctx m') = tokens_of (ctx m) ++ [token] /\
            vex_token_count (ctx m') = vex_token_count (ctx m) + 1
       else tokens_of (ctx m') = tokens_of (ctx m) /\
            Ctx.status (ctx m') = VEX_STATUS_BAD_ALLOC)
    (fun _ => True) m Hok) as Hwp.
  unfold wp in Hwp. rewrite Hrun in Hwp. apply Hwp.
  - intros o. cbn [ctx]. by destruct (pushed_ok token _ Hok) as (? & ? & ?).
  - intros msg o. by cbn [ctx].
Qed.

Lemma vex_free_released c : Ctx.arg_token c = Freed -> vex_free c = None.
Proof.
  intros Hfreed. unfold vex_free. rewrite Hfreed.
  destruct (Ctx.arg_desc c) as [|cells|]; [done| |done].
  by destruct (free_descs _ _ _).
Qed.

(** ** [vex_get_help] *)

(** X22: with three descriptors or more, [vex_get_help] stays within the
    block it allocates: it returns the usage line, the description and one
    line per descriptor, the names padded to 16 characters more than the
    longest long name, and caches this text in the context.  When the
    allocation fails it returns null and leaves the context as it is. *)
Theorem vex_get_help_renders (c : vex_ctx) (o : list bool)
    (descs : list vex_arg_desc) (name : string) :
  registry c descs -> Ctx.help_msg c = None ->
  Ctx.name c = Some name -> c_string name ->
  (3 <= length descs)%nat ->
  vex_get_help (Machine c o)
  = if hd true o
    then Some (Some (help_text c descs),
               Machine (Ctx.set_help_msg (Some (help_text c descs)) c) (tl o))
    else Some (None, Machine c (tl o)).
Proof.
  intros Hreg Hhelp Hname Hcs Hlen.
  rewrite (vex_get_help_text c o descs name) by done.
  destruct (hd true o); [|done].
  pose proof (help_text_fits c descs) as Hfits.
  pose proof (dots_total_le descs) as Hdots.
  destruct (Z.leb_spec (strlen (help_text c descs) + 1) (help_room c descs)); [done|].
  lia.
Qed.

(** X23: right after a [vex_init] in which no allocation fails,
    [vex_get_help] returns the usage line with [-h/--help] and
    [-v/--version], the description, and the two lines of the default
    flags, each padded to 24 characters before its description. *)
Theorem vex_get_help_after_init (name version description : string) :
  c_string name ->
  exists m m',
    vex_init {| info_name := Some name; info_version := Some version;
                info_description := Some description |} [] = Some m /\
    vex_get_help m
    = Some (Some ("Usage: " +:+ name +:+ " [-h/--help]  [-v/--version] " +:+ nl +:+ nl
                  +:+ "Description:" +:+ nl +:+ description +:+ nl +:+ nl
                  +:+ "Arguments:" +:+ nl
                  +:+ " -h, --help             Print this help message" +:+ nl
                  +:+ " -v, --version          Print the version string" +:+ nl),
            m').
Proof.
  intros Hcs.
  set (c := Ctx.mk (Some name) None None (Some description) (Some version)
                   (Block [help_desc; version_desc]) 2 2 NullPtr 0 0 VEX_STATUS_OK).
  assert (registry c [help_desc; version_desc]) as Hreg.
  { by apply (registry_of_block c [help_desc; version_desc]). }
  exists (Machine c []). eexists. split; [reflexivity|].
  rewrite (vex_get_help_text c [] [help_desc; version_desc] name) by done.
  cbn [hd].
  pose proof (help_text_fits c [help_desc; version_desc]) as Hfits.
  destruct (Z.leb_spec (strlen (help_text c [help_desc; version_desc]) + 1)
                       (help_room c [help_desc; version_desc])) as [_|Hover].
  - unfold help_text.
    cbn [c Ctx.name Ctx.description default from_option id texts foldr].
    rewrite !append_assoc. reflexivity.
  - exfalso. revert Hover. apply Z.le_ngt, Hfits. by vm_compute.
Qed.

(** X24: with no descriptor and a description, the help text does not fit
    the block that [vex_get_help] allocates for it, and the behaviour is
    undefined; this is the context that [vex_init] returns when the version
    is null or its copy fails.  The header is compiled with [strcat_s]
    standing for [strcat]. *)
Theorem vex_get_help_empty_registry (c : vex_ctx) (o : list bool)
    (name description : string) :
  registry c [] -> Ctx.help_msg c = None ->
  Ctx.name c = Some name -> c_string name ->
  Ctx.description c = Some description ->
  hd true o = true ->
  vex_get_help (Machine c o) = None.
Proof.
  intros Hreg Hhelp Hname Hcs Hdesc Halloc.
  rewrite (vex_get_help_text c o [] name) by done. rewrite Halloc.
  destruct (Z.leb_spec (strlen (help_text c []) + 1) (help_room c [])) as [Hfits|]; [|done].
  exfalso. revert Hfits. rewrite help_text_length. unfold help_room.
  rewrite Hname, Hdesc.
  cbn [default from_option id texts foldr length descriptions_length name_column].
  change (strlen "") with 0. lia.
Qed.

(** X25: the help text is built once: a call of [vex_get_help] that
    returned a text is followed by calls that return the same text and
    leave the context and the allocator as they are. *)
Theorem vex_get_help_cached (m : machine) (text : string) (m' : machine) :
  vex_get_help m = Some (Some text, m') ->
  vex_get_help m' = Some (Some text, m').
Proof.
  intros Hrun.
  assert (Ctx.help_msg (ctx m') = Some text) as Hcached.
  { revert Hrun. unfold vex_get_help.
    destruct (Ctx.help_msg (ctx m)) as [cached|] eqn:Hhelp.
    { by intros [= <- <-]. }
    destruct (Ctx.name (ctx m)); [|done]. cbn [mbind option_bind].
    destruct (help_sizes _ _ _ _ _); [|done]. cbn [mbind option_bind].
    destruct (alloc m) as [[] m1| |]; [|done..].
    destruct (usage_loop _ _ _ _ _); [|done]. cbn [mbind option_bind].
    destruct (strcat _ _ (nl +:+ nl)); [|done]. cbn [mbind option_bind].
    destruct (match Ctx.description (ctx m) with Some _ => _ | None => _ end);
      [|done]. cbn [mbind option_bind].
    destruct (strcat _ _ _); [|done]. cbn [mbind option_bind].
    destruct (arguments_loop _ _ _ _ _ _); [|done]. cbn [mbind option_bind].
    by intros [= <- <-]. }
  unfold vex_get_help. by rewrite Hcached.
Qed.

(** ** [vex_free] *)

(** X26: a context that has been parsed twice cannot be released:
    whenever [vex_parse] returns on a context that holds a token block, a
    call of [vex_free] releases this block a second time. *)
Theorem vex_free_after_second_parse (argc : Z) (argv : list (option string))
    (m : machine) (b : bool) (m' : machine) (cells : list vex_arg_token) :
  Ctx.arg_token (ctx m) = Block cells ->
  vex_parse argc argv m = Returns b m' ->
  vex_free (ctx m') = None.
Proof.
  intros Hblock Hrun. apply vex_free_released.
  by destruct (vex_parse_again argc argv m b m' cells Hblock Hrun) as (? & _).
Qed.

(** ** Looking up what a parse stored *)

Lemma cluster_tokens_short_names descs ch cluster : forall tokens,
  cluster_tokens descs cluster = Some tokens ->
  existsb (has_short_name ch) tokens = char_in ch cluster.
Proof.
  induction cluster as [|x rest IH]; intros tokens Htokens.
  { by injection Htokens as <-. }
  cbn [cluster_tokens] in Htokens. unfold short_token in Htokens.
  destruct (find_short x descs 0) as [[e d]|] eqn:Hfind; [|done].
  cbn [mbind option_bind] in Htokens.
  destruct (cluster_tokens descs rest) as [rest_tokens|]; [|done].
  injection Htokens as <-. cbn [existsb char_in]. rewrite (IH rest_tokens) by done.
  unfold has_short_name at 1. cbn [token_of_desc Tok.short_name].
  by rewrite (find_short_name _ _ _ _ _ Hfind).
Qed.

(** X27: what a cluster stores, [vex_arg_found] finds: after the parse of
    a cluster [-xyz] whose characters are all short names of descriptors,
    [vex_arg_found] answers true for the one-character names that occur in
    the cluster and false for every other one.  The context has not been
    parsed before and no allocation fails. *)
Theorem clustered_names_found (prog cluster : string) (m : machine)
    (descs : list vex_arg_desc) (ch : ascii) :
  registry (ctx m) descs -> Ctx.arg_token (ctx m) = NullPtr -> allocs m = [] ->
  c_string cluster -> head_char cluster <> "-"%char ->
  is_Some (cluster_tokens descs cluster) ->
  exists m',
    parse_argv [prog; String "-" cluster] m = Returns true m' /\
    vex_arg_found (ctx m') (Some (String ch "")) = Some (char_in ch cluster).
Proof.
  intros Hreg Hnull Hallocs Hcs Hhead [tokens Htokens].
  destruct (cleared_ok (ctx m)) as (Hok0 & Hfreed0 & Hsame0 & Htok0).
  pose proof (registry_same _ _ _ Hsame0 Hreg) as Hreg0.
  destruct (parse_short_cluster descs cluster (cleared (ctx m))
              (Locals (-1) (-1) 0 true) tokens)
    as (l' & c' & Hrun & Htok & Hsame & Hok'); try done.
  rewrite parse_argv_short by done. unfold run, bind. rewrite Hrun.
  exists (Machine c' []). split; [done|]. cbn [ctx].
  rewrite Htok0 in Htok. cbn [app] in Htok.
  unfold vex_arg_found.
  replace (Z.to_nat (vex_token_count c')) with (length (tokens_of c'))
    by (by rewrite tokens_of_length).
  rewrite (arg_found_loop_short c' ch (tokens_of c') 0).
  - by rewrite Htok, (cluster_tokens_short_names descs ch cluster tokens).
  - intros k token Hk. rewrite Z.add_0_l. by apply get_token_of.
Qed.

(** ** The help text of a context set up by [vex_init] *)

Lemma registry_fields c c' descs :
  Ctx.arg_desc c' = Ctx.arg_desc c -> Ctx.num_arg_desc c' = Ctx.num_arg_desc c ->
  registry c descs -> registry c' descs.
Proof. intros Hb Hn [Hnum Hread]. split; [by rewrite Hn|]. by rewrite Hb. Qed.

Lemma default_flags_follows name m0 m :
  default_flags name (ctx m0) -> follows m0 m -> default_flags name (ctx m).
Proof.
  intros H0 Hfollows.
  induction Hfollows as [|desc m b m' _ IH Hrun|argc argv m b m' _ IH Hrun
                         |m r m' _ IH Hrun]; [done|..].
  - destruct IH as (Hname & Hcap & eh & ev & rest & Hreg & Hh & Hv).
    pose proof (vex_add_arg_outcome desc _ m b m' Hreg Hcap Hrun) as Hout.
    destruct b.
    + destruct Hout as (Hregd & _ & _).
      destruct (registered_registry desc _ _ _ Hreg Hregd) as (e & _ & Hreg' & Hcap' & _).
      split_and!; [|done|by exists eh, ev, (rest ++ [e])].
      destruct Hregd as (b & cap & e' & -> & _). done.
    + assert (exists st msg, ctx m' = Ctx.set_status st msg (ctx m))
        as (st & msg & ->).
      { destruct Hout as [->|[text ->]]; by eexists _, _. }
      split_and!; [done|done|]. exists eh, ev, rest. split_and!; [|done|done].
      by apply (registry_fields (ctx m)).
  - destruct IH as (Hname & Hcap & eh & ev & rest & Hreg & Hh & Hv).
    destruct (vex_parse_same_registry argc argv m b m' Hrun)
      as (Hn & _ & _ & _ & Hb & Hnum & Hc).
    split_and!; [by rewrite Hn|by rewrite Hnum, Hc|].
    exists eh, ev, rest. split_and!; [|done|done].
    by apply (registry_fields (ctx m)).
  - destruct IH as (Hname & Hcap & eh & ev & rest & Hreg & Hh & Hv).
    destruct (vex_get_help_frame m r m' Hrun) as [h ->].
    split_and!; [done|done|]. exists eh, ev, rest. split_and!; [|done|done].
    by apply (registry_fields (ctx m)).
Qed.

(** X28: in a context that [vex_init] returned with status
    [VEX_STATUS_OK], and after any calls of [vex_add_arg], [vex_parse] and
    [vex_get_help] that returned, [vex_get_help] stays within the block it
    allocates: it returns the cached text if there is one, and otherwise
    the text of the name, the description and the registered descriptors,
    or null when the allocation fails. *)
Theorem vex_get_help_within_block (info : vex_init_info) (oracle : list bool)
    (m0 m : machine) (name : string) :
  vex_init info oracle = Some m0 -> Ctx.status (ctx m0) = VEX_STATUS_OK ->
  info_name info = Some name -> c_string name ->
  follows m0 m ->
  exists descs,
    registry (ctx m) descs /\
    vex_get_help m
    = match Ctx.help_msg (ctx m) with
      | Some text => Some (Some text, m)
      | None =>
          if hd true (allocs m)
          then Some (Some (help_text (ctx m) descs),
                     Machine (Ctx.set_help_msg (Some (help_text (ctx m) descs)) (ctx m))
                             (tl (allocs m)))
          else Some (None, Machine (ctx m) (tl (allocs m)))
      end.
Proof.
  intros Hinit Hok Hname Hcs Hfollows.
  assert (default_flags name (ctx m0)) as H0.
  { destruct (vex_init_initial _ _ _ Hinit)
      as (_ & _ & _ & _ & _ & _ & _ & _ & (Hcap & _) & _ & Hgood).
    destruct (Hgood Hok) as (Hn & _ & _ & eh & ev & Hreg & Hh & Hv).
    split_and!; [by rewrite Hn|done|]. exists eh, ev, []. split_and!; [done|..].
    - destruct Hh as (_ & Hty & _). unfold dots_length. by rewrite Hty.
    - destruct Hv as (_ & Hty & _). unfold dots_length. by rewrite Hty. }
  destruct (default_flags_follows name m0 m H0 Hfollows)
    as (Hn & _ & eh & ev & rest & Hreg & Hh & Hv).
  exists (eh :: ev :: rest). split; [done|].
  destruct (Ctx.help_msg (ctx m)) as [text|] eqn:Hhelp.
  { unfold vex_get_help. by rewrite Hhelp. }
  destruct m as [c o]. cbn [ctx allocs] in *.
  rewrite (vex_get_help_text c o (eh :: ev :: rest) name) by done.
  destruct (hd true o); [|done].
  pose proof (help_text_fits c (eh :: ev :: rest)) as Hfits.
  pose proof (dots_total_le rest) as Hdots.
  destruct (Z.leb_spec (strlen (help_text c (eh :: ev :: rest)) + 1)
                       (help_room c (eh :: ev :: rest))) as [|Hover]; [done|].
  exfalso. revert Hover. apply Z.le_ngt, Hfits.
  unfold dots_total in *. cbn [foldr length]. rewrite Hh, Hv. lia.
Qed.

(** * Instances of the further theorems *)

Lemma token_buffer_ok_concrete c :
  (0 <=? Ctx.num_arg_token c) && (Ctx.num_arg_token c <=? Ctx.capacity_arg_token c)
  && (Ctx.capacity_arg_token c =? Z.of_nat (length (cells_of (Ctx.arg_token c)))) = true ->
  token_buffer_ok c.
Proof.
  intros [[?%Z.leb_le ?%Z.leb_le]%andb_prop ?%Z.eqb_eq]%andb_prop. by split.
Qed.

Lemma vex_arg_found_by_short_name_witness :
  vex_arg_found (ctx after_h) (Some "h")
  = Some (existsb (has_short_name "h") (tokens_of (ctx after_h))).
Proof.
  apply (vex_arg_found_by_short_name (ctx after_h) "h").
  by apply token_buffer_ok_concrete.
Defined.

Lemma vex_arg_found_by_long_name_witness :
  vex_arg_found (ctx after_h) (Some "help")
  = Some (existsb (has_long_name_of "help") (tokens_of (ctx after_h))).
Proof.
  apply (vex_arg_found_by_long_name (ctx after_h) "help").
  - by apply token_buffer_ok_concrete.
  - reflexivity.
  - repeat constructor; by eexists.
Defined.

Lemma vex_arg_found_unnamed_token_witness :
  vex_arg_found (ctx after_h_12) (Some "version") = None.
Proof.
  apply (vex_arg_found_unnamed_token (ctx after_h_12) "version"
           [Tok.mk (Some "help") "h" [] VEX_ARG_TYPE_FLAG]
           (Tok.mk None NUL [int_arg 12] VEX_ARG_TYPE_INT) []).
  - by apply token_buffer_ok_concrete.
  - reflexivity.
  - reflexivity.
  - repeat constructor. exists "help". by split.
  - reflexivity.
Defined.

Lemma registration_creates_no_token_witness :
  vex_token_count (ctx with_count) = 0 /\
  vex_arg_found (ctx with_count) (Some "count") = Some false.
Proof.
  apply (registration_creates_no_token with_count (Some "count")).
  apply (conf_add_arg count_desc fresh true); [|reflexivity].
  apply (conf_init demo_info []). reflexivity.
Defined.

Lemma vex_add_arg_appends_witness :
  exists e,
    stored_as count_desc e /\
    registry (ctx with_count) ([help_desc; version_desc] ++ [e]) /\
    Ctx.num_arg_desc (ctx with_count) <= Ctx.capacity_arg_desc (ctx with_count) /\
    Ctx.help_msg (ctx with_count) = None.
Proof.
  apply (vex_add_arg_appends count_desc fresh with_count [help_desc; version_desc]).
  - by apply (registry_of_block _ [help_desc; version_desc]).
  - by vm_compute.
  - reflexivity.
Defined.

Lemma vex_add_arg_rejects_non_letter_witness :
  false = false /\
  ctx (returned (vex_add_arg digit_desc fresh))
  = Ctx.set_status VEX_STATUS_BAD_VALUE
      (Some (vsnprintf 256 (fmt_c "Invalid short arg name: " "1"))) (ctx fresh).
Proof.
  apply (vex_add_arg_rejects_non_letter digit_desc fresh false
           (returned (vex_add_arg digit_desc fresh))).
  - reflexivity.
  - reflexivity.
Defined.

Lemma vex_add_arg_null_long_name_witness :
  vex_add_arg short_only_desc fresh = Undefined.
Proof.
  apply (vex_add_arg_null_long_name short_only_desc fresh
           [help_desc; version_desc] help_desc).
  - by apply (registry_of_block _ [help_desc; version_desc]).
  - reflexivity.
  - reflexivity.
  - discriminate.
  - reflexivity.
Defined.

Lemma vex_init_bad_alloc_witness :
  Ctx.status (ctx no_version) = VEX_STATUS_BAD_ALLOC /\
  Ctx.status_msg (ctx no_version) = None /\
  Ctx.num_arg_desc (ctx no_version) = 0.
Proof.
  apply (vex_init_bad_alloc no_version_info [] no_version).
  - reflexivity.
  - right. right. reflexivity.
Defined.

Lemma vex_init_ok_witness :
  Ctx.name (ctx fresh) = Some "prog" /\
  Ctx.description (ctx fresh) = Some "demo" /\
  vex_get_version (ctx fresh) = Some "1.0" /\
  exists eh ev,
    registry (ctx fresh) [eh; ev] /\ stored_as help_desc eh /\
    stored_as version_desc ev.
Proof.
  apply (vex_init_ok demo_info [] fresh).
  - reflexivity.
  - reflexivity.
Defined.

Lemma reachable_status_agrees_witness : status_agrees (ctx after_h_12).
Proof.
  apply (reachable_status_agrees after_h_12).
  apply (reach_parse 3 [Some "prog"; Some "-h"; Some "12"] fresh true); [|reflexivity].
  apply (reach_init demo_info []). reflexivity.
Defined.

Lemma reachable_short_names_distinct_witness : registry_ok (ctx after_h_12).
Proof.
  apply (reachable_short_names_distinct after_h_12).
  apply (reach_parse 3 [Some "prog"; Some "-h"; Some "12"] fresh true); [|reflexivity].
  apply (reach_init demo_info []). reflexivity.
Defined.

Lemma reachable_tokens_in_block_witness :
  is_Some (token_at (ctx after_h_12) (vex_get_token (ctx after_h_12) 1)) /\
  vex_get_token (ctx after_h_12) 2 = None.
Proof.
  split.
  - apply (reachable_tokens_in_block after_h_12 1).
    apply (reach_parse 3 [Some "prog"; Some "-h"; Some "12"] fresh true); [|reflexivity].
    apply (reach_init demo_info []). reflexivity.
  - apply (reachable_tokens_in_block after_h_12 2).
    apply (reach_parse 3 [Some "prog"; Some "-h"; Some "12"] fresh true); [|reflexivity].
    apply (reach_init demo_info []). reflexivity.
Defined.

Lemma vex_parse_keeps_registry_witness :
  same_registry (ctx fresh) (ctx after_h_12) /\ token_buffer_ok (ctx after_h_12).
Proof.
  apply (vex_parse_keeps_registry 3 [Some "prog"; Some "-h"; Some "12"]
           fresh true after_h_12).
  reflexivity.
Defined.

Lemma vex_parse_again_stores_nothing_witness :
  Ctx.arg_token (ctx parsed_twice) = Freed /\ vex_token_count (ctx parsed_twice) = 0.
Proof.
  apply (vex_parse_again_stores_nothing 1 [Some "prog"] after_h true parsed_twice
           [Tok.mk (Some "help") "h" [] VEX_ARG_TYPE_FLAG]).
  - reflexivity.
  - reflexivity.
Defined.

Lemma cluster_of_registered_names_witness :
  exists m',
    parse_argv ["prog"; "-vh"] fresh = Returns true m' /\
    tokens_of (ctx m')
    = [Tok.mk (Some "version") "v" [] VEX_ARG_TYPE_FLAG;
       Tok.mk (Some "help") "h" [] VEX_ARG_TYPE_FLAG] /\
    vex_token_count (ctx m') = 2.
Proof.
  apply (cluster_of_registered_names "prog" "vh" fresh [help_desc; version_desc]
           [Tok.mk (Some "version") "v" [] VEX_ARG_TYPE_FLAG;
            Tok.mk (Some "help") "h" [] VEX_ARG_TYPE_FLAG]).
  - by apply (registry_of_block _ [help_desc; version_desc]).
  - reflexivity.
  - reflexivity.
  - reflexivity.
  - discriminate.
  - reflexivity.
Defined.

Lemma short_option_attached_value_witness :
  exists m',
    parse_argv ["prog"; "-c42"] with_count = Returns true m' /\
    tokens_of (ctx m') = [Tok.mk (Some "count") "c" [int_arg 42] VEX_ARG_TYPE_INT].
Proof.
  apply (short_option_attached_value "prog" "c" "42" with_count
           [help_desc; version_desc; count_desc] count_desc 2 (int_arg 42)).
  - by apply (registry_of_block _ [help_desc; version_desc; count_desc; Desc.zero]).
  - reflexivity.
  - reflexivity.
  - discriminate.
  - discriminate.
  - reflexivity.
  - discriminate.
  - discriminate.
  - reflexivity.
  - reflexivity.
Defined.

Lemma value_joins_last_option_witness :
  parse_prefix ["-c"; "12"] with_count
  = Next (Locals 2 0 1 true)
         (Machine (stored 0 (Tok.mk (Some "count") "c" [int_arg 12] VEX_ARG_TYPE_INT)
                          (ctx after_c)) []) /\
  parse_argv ["prog"; "-c"; "12"] with_count
  = Returns true
      (Machine (stored 0 (Tok.mk (Some "count") "c" [int_arg 12] VEX_ARG_TYPE_INT)
                       (ctx after_c)) []).
Proof.
  apply (value_joins_last_option "prog" ["-c"] "12" with_count after_c
           (Locals 2 0 1 true) count_desc
           (Tok.mk (Some "count") "c" [] VEX_ARG_TYPE_INT) (int_arg 12)).
  - reflexivity.
  - reflexivity.
  - reflexivity.
  - by vm_compute.
  - reflexivity.
  - reflexivity.
  - right. by vm_compute.
  - discriminate.
  - reflexivity.
  - reflexivity.
Defined.

Lemma value_after_full_option_witness :
  parse_prefix ["-h"; "12"] fresh
  = Next (Locals (-1) (-1) 1 true)
         (Machine (pushed (Tok.mk None NUL [int_arg 12] VEX_ARG_TYPE_INT)
                          (ctx after_h)) []) /\
  parse_argv ["prog"; "-h"; "12"] fresh
  = Returns true
      (Machine (pushed (Tok.mk None NUL [int_arg 12] VEX_ARG_TYPE_INT)
                       (ctx after_h)) []) /\
  tokens_of (pushed (Tok.mk None NUL [int_arg 12] VEX_ARG_TYPE_INT) (ctx after_h))
  = tokens_of (ctx after_h) ++ [Tok.mk None NUL [int_arg 12] VEX_ARG_TYPE_INT].
Proof.
  apply (value_after_full_option "prog" ["-h"] "12" fresh after_h
           (Locals 0 0 1 true) (Tok.mk None NUL [int_arg 12] VEX_ARG_TYPE_INT)).
  - reflexivity.
  - reflexivity.
  - reflexivity.
  - intros _. exists help_desc, (Tok.mk (Some "help") "h" [] VEX_ARG_TYPE_FLAG).
    split_and!; [reflexivity|reflexivity|by vm_compute|by vm_compute].
  - discriminate.
  - reflexivity.
Defined.

Lemma vex_add_token_appends_witness :
  token_buffer_ok (pushed (Tok.mk None NUL [int_arg 12] VEX_ARG_TYPE_INT) (ctx after_h)) /\
  tokens_of (pushed (Tok.mk None NUL [int_arg 12] VEX_ARG_TYPE_INT) (ctx after_h))
  = tokens_of (ctx after_h) ++ [Tok.mk None NUL [int_arg 12] VEX_ARG_TYPE_INT] /\
  vex_token_count (pushed (Tok.mk None NUL [int_arg 12] VEX_ARG_TYPE_INT) (ctx after_h))
  = vex_token_count (ctx after_h) + 1.
Proof.
  apply (vex_add_token_appends (Tok.mk None NUL [int_arg 12] VEX_ARG_TYPE_INT)
           after_h true
           (Machine (pushed (Tok.mk None NUL [int_arg 12] VEX_ARG_TYPE_INT)
                            (ctx after_h)) [])).
  - by apply token_buffer_ok_concrete.
  - reflexivity.
Defined.

Lemma vex_get_help_renders_witness :
  vex_get_help with_count
  = Some (Some (help_text (ctx with_count) [help_desc; version_desc; count_desc]),
          Machine (Ctx.set_help_msg
                     (Some (help_text (ctx with_count)
                              [help_desc; version_desc; count_desc]))
                     (ctx with_count)) []).
Proof.
  apply (vex_get_help_renders (ctx with_count) []
           [help_desc; version_desc; count_desc] "prog").
  - by apply (registry_of_block _ [help_desc; version_desc; count_desc; Desc.zero]).
  - reflexivity.
  - reflexivity.
  - reflexivity.
  - cbn [length]. lia.
Defined.

Lemma vex_get_help_after_init_witness :
  exists m m',
    vex_init demo_info [] = Some m /\
    vex_get_help m
    = Some (Some ("Usage: " +:+ "prog" +:+ " [-h/--help]  [-v/--version] " +:+ nl +:+ nl
                  +:+ "Description:" +:+ nl +:+ "demo" +:+ nl +:+ nl
                  +:+ "Arguments:" +:+ nl
                  +:+ " -h, --help             Print this help message" +:+ nl
                  +:+ " -v, --version          Print the version string" +:+ nl),
            m').
Proof.
  apply (vex_get_help_after_init "prog" "1.0" "demo"). reflexivity.
Defined.

Lemma vex_get_help_empty_registry_witness :
  vex_init no_version_info [] = Some no_version /\
  vex_get_help no_version = None.
Proof.
  split; [reflexivity|].
  apply (vex_get_help_empty_registry (ctx no_version) [] "prog" "demo").
  - split; [reflexivity|]. intros i e Hi. by destruct i.
  - reflexivity.
  - reflexivity.
  - reflexivity.
  - reflexivity.
  - reflexivity.
Defined.

Lemma vex_get_help_cached_witness :
  vex_get_help
    (Machine (Ctx.set_help_msg
                (Some (help_text (ctx fresh) [help_desc; version_desc])) (ctx fresh)) [])
  = Some (Some (help_text (ctx fresh) [help_desc; version_desc]),
          Machine (Ctx.set_help_msg
                     (Some (help_text (ctx fresh) [help_desc; version_desc]))
                     (ctx fresh)) []).
Proof.
  apply (vex_get_help_cached fresh). by vm_compute.
Defined.

Lemma vex_free_after_second_parse_witness :
  vex_free (ctx parsed_twice) = None.
Proof.
  apply (vex_free_after_second_parse 1 [Some "prog"] after_h true parsed_twice
           [Tok.mk (Some "help") "h" [] VEX_ARG_TYPE_FLAG]).
  - reflexivity.
  - reflexivity.
Defined.

Lemma clustered_names_found_witness :
  exists m',
    parse_argv ["prog"; "-vh"] fresh = Returns true m' /\
    vex_arg_found (ctx m') (Some "v") = Some (char_in "v" "vh").
Proof.
  apply (clustered_names_found "prog" "vh" fresh [help_desc; version_desc] "v").
  - by apply (registry_of_block _ [help_desc; version_desc]).
  - reflexivity.
  - reflexivity.
  - reflexivity.
  - discriminate.
  - by eexists.
Defined.

Lemma vex_get_help_within_block_witness :
  exists descs,
    registry (ctx after_h_12) descs /\
    vex_get_help after_h_12
    = Some (Some (help_text (ctx after_h_12) descs),
            Machine (Ctx.set_help_msg (Some (help_text (ctx after_h_12) descs))
                                      (ctx after_h_12)) []).
Proof.
  apply (vex_get_help_within_block demo_info [] fresh after_h_12 "prog").
  - reflexivity.
  - reflexivity.
  - reflexivity.
  - reflexivity.
  - apply (follows_parse fresh 3 [Some "prog"; Some "-h"; Some "12"] fresh true);
      [|reflexivity].
    apply follows_here.
Defined.
